(** * go-osc: the OSC message codec of [message.go] / [osc.go]

    A shallow embedding of the encoder ([Message.MarshalBinary],
    [writePaddedString], [writeBlob]), of the decoder ([readPacket],
    [readBundle], [readMessage], [readArguments], [readBlob],
    [readPaddedString]) and of the address matcher ([getRegEx],
    [Message.Match]), together with the properties the specification
    states about them.

    Go values are represented as follows.
    - [string] and [[]byte] are sequences of 8-bit bytes: [list ascii].
    - [int] (counters, lengths, offsets) is [Z]; none of the counters of
      this code can leave the 64-bit range on an in-memory input.
    - [int32], [int64], [uint64] are [Z] with the wrap-around written out
      ([to_int32], [to_int64]); [float32] and [float64] are carried as
      their IEEE-754 bit patterns, which is what [binary.Write] and
      [binary.Read] move to and from the wire.
    - [(T, error)] results are the sum [result T].
    - [*bufio.Reader] over an in-memory source is the record [Reader];
      functions that read thread it explicitly, as they thread [*start]. *)

From Stdlib Require Import String Ascii ZArith List Bool Lia.
Import ListNotations.

Local Open Scope Z_scope.

(** ** Bytes and Go strings *)

Definition byte := ascii.
Definition bytes := list byte.

Definition NUL : byte := Ascii.zero.

(** A Go string literal. *)
Definition lit (s : string) : bytes := list_ascii_of_string s.

Definition len (s : bytes) : Z := Z.of_nat (length s).

(** [make([]byte, n)]: [n] zero bytes. *)
Definition make (n : Z) : bytes := repeat NUL (Z.to_nat n).

(** [strings.Index(s, string(c))] for a one-byte needle: the index of the
    first occurrence, [-1] when there is none. *)
Fixpoint Index (s : bytes) (c : byte) : Z :=
  match s with
  | [] => -1
  | x :: s' =>
      if Ascii.eqb x c then 0
      else let i := Index s' c in
           if i <? 0 then -1 else i + 1
  end.

(** ** De/Encoding functions *)

(** [padBytesNeeded]; Go's [%] truncates towards zero, as [Z.rem] does. *)
Definition padBytesNeeded (elementLen : Z) : Z :=
  Z.rem (4 - Z.rem elementLen 4) 4.

(** [writePaddedString(str, buf)].  The [bytes.Buffer] is the list of bytes
    written so far; its [Write], [WriteString] and [WriteByte] never return
    an error, so the result is the count and the new buffer. *)
Definition writePaddedString (str : bytes) (buf : bytes) : Z * bytes :=
  let nullIndex := Index str NUL in
  let str := if 0 <? nullIndex then firstn (Z.to_nat nullIndex) str else str in
  let buf := buf ++ str in
  let n := len str in
  let buf := buf ++ [NUL] in
  let n := n + 1 in
  let numPadBytes := padBytesNeeded n in
  if 0 <? numPadBytes then
    let padBytes := make numPadBytes in
    let buf := buf ++ padBytes in
    let numPadBytes := len padBytes in
    (n + numPadBytes, buf)
  else (n + numPadBytes, buf).

(** What the documentation of [writePaddedString] promises: the string cut
    at its first null byte, one terminator, zero padding to a multiple of
    four. *)
Fixpoint truncateAtNull (s : bytes) : bytes :=
  match s with
  | [] => []
  | x :: s' => if Ascii.eqb x NUL then [] else x :: truncateAtNull s'
  end.

Definition paddedStringDoc (s : bytes) : bytes :=
  let t := truncateAtNull s in
  t ++ [NUL] ++ make (padBytesNeeded (len t + 1)).

(** ** Fixed-width big-endian numbers ([encoding/binary]) *)

Definition byte_of_Z (z : Z) : byte := ascii_of_N (Z.to_N (z mod 256)).
Definition Z_of_byte (b : byte) : Z := Z.of_N (N_of_ascii b).

(** [binary.BigEndian.PutUint32] / [PutUint64]: the [k] low-order bytes of
    [v], most significant first ([byte(v >> 24)], [byte(v >> 16)], ...). *)
Fixpoint be_bytes (k : nat) (v : Z) : bytes :=
  match k with
  | O => []
  | S k' => byte_of_Z (Z.shiftr v (8 * Z.of_nat k')) :: be_bytes k' v
  end.

(** [binary.BigEndian.Uint32] / [Uint64]:
    [... | uint(b[n-2])<<8 | uint(b[n-1])]. *)
Definition be_uint (bs : bytes) : Z :=
  fold_left (fun acc b => Z.lor (Z.shiftl acc 8) (Z_of_byte b)) bs 0.

(** The conversions [int32(x)] and [int64(x)]: two's complement wrap. *)
Definition to_int32 (x : Z) : Z := (x + 2 ^ 31) mod 2 ^ 32 - 2 ^ 31.
Definition to_int64 (x : Z) : Z := (x + 2 ^ 63) mod 2 ^ 64 - 2 ^ 63.

(** ** Errors and results *)

(** The errors this code can return.  [EOF], [ErrUnexpectedEOF] and
    [ErrBufferFull] come from [io] and [bufio]; the others are built by the
    package ([ERROR_INVALID_PACKET] and the [fmt.Errorf] values, one
    constructor per format string, carrying the formatted operand).
    [OutOfFuel] is not a Go error: it marks that the recursion bound of
    the embedding was reached. *)
Inductive error : Type :=
| EOF
| ErrUnexpectedEOF
| ErrBufferFull
| ERROR_INVALID_PACKET
| ErrInvalidBundleStartTag (startTag : bytes)
| ErrUnsupportedTypeTagString (typetags : bytes)
| ErrUnsupportedTypeTag (c : byte)
| ErrInvalidBlobLength (blobLen : Z)
| ErrUnsupportedType
| OutOfFuel.

Inductive result (A : Type) : Type :=
| Ok (a : A)
| Err (e : error).
Arguments Ok {A} a.
Arguments Err {A} e.

Definition isErr {A} (r : result A) : bool :=
  match r with Ok _ => false | Err _ => true end.

(** ** [bufio.Reader] over an in-memory source

    [buf] is the unread part of the internal buffer ([b.buf[b.r:b.w]]),
    [rd] what the underlying [bytes.Buffer] still holds, [size] the
    capacity [len(b.buf)].  Against such a source a pending [b.err] is
    always [io.EOF] and is always reported by the operation that met it,
    so it needs no field. *)
Record Reader : Type := mkReader {
  buf : bytes;
  rd : bytes;
  size : nat
}.

Definition defaultBufSize : nat := 4096.

(** [bufio.NewReader(bytes.NewBuffer(data))]. *)
Definition NewReader (data : bytes) : Reader := mkReader [] data defaultBufSize.

(** [bufio.NewReaderSize]: the capacity is at least 16. *)
Definition NewReaderSize (data : bytes) (sz : nat) : Reader :=
  mkReader [] data (Nat.max sz 16).

(** Everything the reader has yet to deliver. *)
Definition stream (b : Reader) : bytes := buf b ++ rd b.

Definition Buffered (b : Reader) : Z := len (buf b).

(** [fill]: slide the unread bytes to the front and take one read from the
    source into the free room. *)
Definition fill (b : Reader) : Reader :=
  let room := (size b - length (buf b))%nat in
  mkReader (buf b ++ firstn room (rd b)) (skipn room (rd b)) (size b).

(** An operation on the reader: its result and the reader afterwards. *)
Definition RdOp (A : Type) : Type := Reader -> result A * Reader.

(** [Peek(n)]. *)
Definition Peek (n : nat) : RdOp bytes := fun b =>
  let b1 :=
    if ((length (buf b) <? n) && (length (buf b) <? size b))%nat
    then fill b else b in
  if (size b <? n)%nat then (Err ErrBufferFull, b1)
  else if (length (buf b1) <? n)%nat then (Err EOF, b1)
  else (Ok (firstn n (buf b1)), b1).

(** [Read(p)] with [len(p) = n]: the bytes copied into [p]; there may be
    fewer than [n] of them without an error. *)
Definition Read (n : nat) : RdOp bytes := fun b =>
  match n with
  | O => (Ok [], b)
  | _ =>
      match buf b with
      | [] =>
          match rd b with
          | [] => (Err EOF, b)
          | _ =>
              if (size b <=? n)%nat then
                (* large read, empty buffer: straight from the source *)
                (Ok (firstn n (rd b)), mkReader [] (skipn n (rd b)) (size b))
              else
                (* one read into the buffer, then copy *)
                let loaded := firstn (size b) (rd b) in
                (Ok (firstn n loaded),
                 mkReader (skipn n loaded) (skipn (size b) (rd b)) (size b))
          end
      | _ => (Ok (firstn n (buf b)), mkReader (skipn n (buf b)) (rd b) (size b))
      end
  end.

(** [io.ReadAtLeast(r, buf, min)] with [len(buf) = min]: read until [min]
    bytes have arrived or a read fails.  Each read that does not fail
    brings at least one byte, so [min] rounds are enough. *)
Fixpoint ReadAtLeast (fuel : nat) (min : nat) (got : bytes) : RdOp bytes := fun b =>
  if (min <=? length got)%nat then (Ok got, b)
  else
    match fuel with
    | O => (Err OutOfFuel, b)
    | S fuel' =>
        match Read (min - length got) b with
        | (Ok p, b') => ReadAtLeast fuel' min (got ++ p) b'
        | (Err e, b') =>
            (Err match e, got with
                 | EOF, _ :: _ => ErrUnexpectedEOF
                 | _, _ => e
                 end, b')
        end
    end.

Definition ReadFull (n : nat) : RdOp bytes := ReadAtLeast n n [].

(** [binary.Read(reader, binary.BigEndian, &x)] for an [n]-byte [x]: the
    unsigned value of the [n] bytes. *)
Definition binaryRead (n : nat) : RdOp Z := fun b =>
  match ReadFull n b with
  | (Ok bs, b') => (Ok (be_uint bs), b')
  | (Err e, b') => (Err e, b')
  end.

(** The line of [s] through the first [delim], and what follows it. *)
Fixpoint splitAfter (delim : byte) (s : bytes) : option (bytes * bytes) :=
  match s with
  | [] => None
  | x :: s' =>
      if Ascii.eqb x delim then Some ([x], s')
      else match splitAfter delim s' with
           | Some (line, rest) => Some (x :: line, rest)
           | None => None
           end
  end.

(** [collectFragments]: [ReadSlice] until the delimiter is found, keeping
    the full buffers met on the way ([full]). *)
Fixpoint collectFragments (fuel : nat) (delim : byte) (full : bytes) : RdOp bytes := fun b =>
  match splitAfter delim (buf b) with
  | Some (line, rest) => (Ok (full ++ line), mkReader rest (rd b) (size b))
  | None =>
      match fuel with
      | O => (Err OutOfFuel, b)
      | S fuel' =>
          if (size b <=? length (buf b))%nat then
            (* ErrBufferFull: the whole buffer is a fragment *)
            collectFragments fuel' delim (full ++ buf b) (mkReader [] (rd b) (size b))
          else
            match rd b with
            | [] => (Err EOF, mkReader [] [] (size b))
            | _ => collectFragments fuel' delim full (fill b)
            end
      end
  end.

(** [ReadString(delim)]. *)
Definition ReadString (delim : byte) : RdOp bytes := fun b =>
  collectFragments (2 * length (rd b) + 2) delim [] b.

(** [readPaddedString]: the string without its terminator and the number of
    bytes it counts as consumed. *)
Definition readPaddedString : RdOp (bytes * Z) := fun reader =>
  match ReadString NUL reader with
  | (Err e, reader) => (Err e, reader)
  | (Ok str, reader) =>
      let lenStr := len str in
      let n := lenStr in
      let padLen := padBytesNeeded lenStr in
      if 0 <? padLen then
        let n := n + padLen in
        match Read (Z.to_nat padLen) reader with
        | (Err e, reader) => (Err e, reader)
        | (Ok _, reader) => (Ok (firstn (Z.to_nat (lenStr - 1)) str, n), reader)
        end
      else (Ok (firstn (Z.to_nat (lenStr - 1)) str, n), reader)
  end.

(** [readBlob]: the blob and the number of bytes it counts as consumed. *)
Definition readBlob : RdOp (bytes * Z) := fun reader =>
  match binaryRead 4 reader with
  | (Err e, reader) => (Err e, reader)
  | (Ok u, reader) =>
      let blobLen := to_int32 u in
      let n := 4 + blobLen in
      if (blobLen <? 1) || (to_int32 (Buffered reader) <? blobLen) then
        (Err (ErrInvalidBlobLength blobLen), reader)
      else
        match Read (Z.to_nat blobLen) reader with
        | (Err e, reader) => (Err e, reader)
        | (Ok got, reader) =>
            (* [blob] was made of [blobLen] zero bytes; the read fills a prefix *)
            let blob := got ++ make (blobLen - len got) in
            let numPadBytes := padBytesNeeded blobLen in
            if 0 <? numPadBytes then
              let n := n + numPadBytes in
              match Read (Z.to_nat numPadBytes) reader with
              | (Err e, reader) => (Err e, reader)
              | (Ok _, reader) => (Ok (blob, n), reader)
              end
            else (Ok (blob, n), reader)
        end
  end.

(** [writeBlob]. *)
Definition writeBlob (data : bytes) (buf : bytes) : Z * bytes :=
  let lenData := len data in
  let buf := buf ++ be_bytes 4 (to_int32 lenData) in
  let buf := buf ++ data in
  let numPadBytes := padBytesNeeded lenData in
  if 0 <? numPadBytes then
    let padBytes := make numPadBytes in
    let buf := buf ++ padBytes in
    let numPadBytes := len padBytes in
    (4 + lenData + numPadBytes, buf)
  else (4 + lenData + numPadBytes, buf).

(** ** Messages, bundles, packets *)

(** Modelled from the spec: the type [Timetag], [NewTimetagFromTimetag] and
    [Timetag.MarshalBinary] are not among the sources.  The spec makes a
    Timetag a "64-bit fixed-point value" whose [fromRaw(u64)] and [toRaw]
    are an "identity wrap for wire transport", carried as "8 raw bytes =
    u64". *)
Definition Timetag : Type := Z.

Definition NewTimetagFromTimetag (timetag : Z) : Timetag := timetag.

Definition Timetag_MarshalBinary (t : Timetag) : bytes := be_bytes 8 t.

(** One element of [Message.Arguments], an [interface{}]: the dynamic types
    the type switches of the package know, and [AOther] for a value of any
    other dynamic type (their [default] branch). *)
Inductive Argument : Type :=
| ABool (t : bool)
| ANil
| AInt32 (t : Z)
| AFloat32 (bits : Z)
| AStr (t : bytes)
| ABlob (t : bytes)
| AInt64 (t : Z)
| AFloat64 (bits : Z)
| ATime (t : Timetag)
| AOther.

Record Message : Type := mkMessage {
  Address : bytes;
  Arguments : list Argument
}.

(** [NewMessage(addr, args...)]. *)
Definition NewMessage (addr : bytes) (args : list Argument) : Message :=
  mkMessage addr args.

(** [msg.Append(args...)]. *)
Definition Append (msg : Message) (args : list Argument) : Message :=
  mkMessage (Address msg) (Arguments msg ++ args).

(** Modelled from the spec: the type [Bundle], [NewBundle], [Bundle.Append]
    and [timetagToTime] are not among the sources.  The spec makes a Bundle
    "{ timetag: Timetag, elements: ordered sequence of Packet }" whose
    elements "are appended in wire order", and a Packet the "sum type over
    Message | Bundle". *)
Inductive Packet : Type :=
| PMessage (msg : Message)
| PBundle (bundle : Bundle)
with Bundle : Type :=
| mkBundle (timetag : Timetag) (elements : list Packet).

Definition Elements (b : Bundle) : list Packet :=
  match b with mkBundle _ es => es end.

Definition NewBundle (t : Timetag) : Bundle := mkBundle t [].

Definition Bundle_Append (b : Bundle) (p : Packet) : Bundle :=
  match b with mkBundle t es => mkBundle t (es ++ [p]) end.

(** ** Type tags *)

(** [getTypeTag]. *)
Definition getTypeTag (arg : Argument) : byte :=
  match arg with
  | ABool t => if t then "T" else "F"
  | ANil => "N"
  | AInt32 _ => "i"
  | AFloat32 _ => "f"
  | AStr _ => "s"
  | ABlob _ => "b"
  | AInt64 _ => "h"
  | AFloat64 _ => "d"
  | ATime _ => "t"
  | AOther => "255"
  end%char.

(** [msg.typeTags()]; the [strings.Builder] is the list written so far. *)
Definition typeTags (msg : Message) : bytes :=
  if (length (Arguments msg) =? 0)%nat then lit ","
  else
    let tags := [","%char] in
    fold_left (fun tags m => tags ++ [getTypeTag m]) (Arguments msg) tags.

(** ** Encoding a message *)

(** The loop of [MarshalBinary] over the arguments: the type tags collected
    so far and the payload buffer. *)
Fixpoint marshalArguments (args : list Argument) (typetags payload : bytes)
  : result (bytes * bytes) :=
  match args with
  | [] => Ok (typetags, payload)
  | arg :: args' =>
      match arg with
      | ABool t =>
          marshalArguments args' (typetags ++ [if t then "T" else "F"]%char) payload
      | ANil =>
          marshalArguments args' (typetags ++ ["N"]%char) payload
      | AInt32 t =>
          marshalArguments args' (typetags ++ ["i"]%char) (payload ++ be_bytes 4 t)
      | AFloat32 t =>
          marshalArguments args' (typetags ++ ["f"]%char) (payload ++ be_bytes 4 t)
      | AStr t =>
          let (_, payload) := writePaddedString t payload in
          marshalArguments args' (typetags ++ ["s"]%char) payload
      | ABlob t =>
          let (_, payload) := writeBlob t payload in
          marshalArguments args' (typetags ++ ["b"]%char) payload
      | AInt64 t =>
          marshalArguments args' (typetags ++ ["h"]%char) (payload ++ be_bytes 8 t)
      | AFloat64 t =>
          marshalArguments args' (typetags ++ ["d"]%char) (payload ++ be_bytes 8 t)
      | ATime t =>
          marshalArguments args' (typetags ++ ["t"]%char)
            (payload ++ Timetag_MarshalBinary t)
      | AOther => Err ErrUnsupportedType
      end
  end.

(** [msg.MarshalBinary()]. *)
Definition MarshalBinary (msg : Message) : result bytes :=
  let data := [] in
  let (_, data) := writePaddedString (Address msg) data in
  match marshalArguments (Arguments msg) [","%char] [] with
  | Err e => Err e
  | Ok (typetags, payload) =>
      let (_, data) := writePaddedString typetags data in
      Ok (data ++ payload)
  end.

(** ** Decoding

    The decoder mutates the reader and the counter [*start] it is handed;
    both survive an error return.  [M] threads them. *)
Record St : Type := mkSt {
  reader : Reader;
  start : Z
}.

Definition M (A : Type) : Type := St -> result A * St.

Definition ret {A} (a : A) : M A := fun s => (Ok a, s).

Definition fail {A} (e : error) : M A := fun s => (Err e, s).

Definition bind {A B} (m : M A) (k : A -> M B) : M B := fun s =>
  match m s with
  | (Ok a, s') => k a s'
  | (Err e, s') => (Err e, s')
  end.

Notation "x <- m ;; k" := (bind m (fun x => k))
  (at level 61, m at next level, right associativity).
Notation "' pat <- m ;; k" := (bind m (fun x => match x with pat => k end))
  (at level 61, pat pattern, m at next level, right associativity).

(** A reader operation, run on the reader of the state. *)
Definition op {A} (f : RdOp A) : M A := fun s =>
  let (r, b) := f (reader s) in (r, mkSt b (start s)).

(** [*start += n]. *)
Definition advance (n : Z) : M unit := fun s =>
  (Ok tt, mkSt (reader s) (start s + n)).

(** How one round of the loop over the type tags ends: it goes on to the
    next tag with the message as it now is, or [readArguments] returns
    [nil] at once. *)
Inductive flow : Type :=
| Next (msg : Message)
| ReturnNil (msg : Message).

(** The body of the loop of [readArguments] for the tag [c].  The loop
    ranges over the runes of the tag string; every tag the switch knows is
    one ASCII byte, and a byte outside ASCII starts a rune the switch does
    not know, so ranging over the bytes takes the same branches. *)
Definition readArgument (c : byte) (msg : Message) : M flow :=
  if Ascii.eqb c "i" then
    u <- op (binaryRead 4) ;;
    _ <- advance 4 ;;
    ret (Next (Append msg [AInt32 (to_int32 u)]))
  else if Ascii.eqb c "h" then
    u <- op (binaryRead 8) ;;
    _ <- advance 8 ;;
    ret (Next (Append msg [AInt64 (to_int64 u)]))
  else if Ascii.eqb c "f" then
    u <- op (binaryRead 4) ;;
    _ <- advance 4 ;;
    ret (Next (Append msg [AFloat32 u]))
  else if Ascii.eqb c "d" then
    u <- op (binaryRead 8) ;;
    _ <- advance 8 ;;
    ret (Next (Append msg [AFloat64 u]))
  else if Ascii.eqb c "s" then
    '(s, _) <- op readPaddedString ;;
    let lenStr := len s in
    _ <- advance (lenStr + padBytesNeeded lenStr) ;;
    ret (Next (Append msg [AStr s]))
  else if Ascii.eqb c "b" then
    '(buf, n) <- op readBlob ;;
    _ <- advance n ;;
    ret (Next (Append msg [ABlob buf]))
  else if Ascii.eqb c "t" then
    fun st =>
      match op (binaryRead 8) st with
      | (Err _, st') => (Ok (ReturnNil msg), st')
      | (Ok tt', st') =>
          (_ <- advance 8 ;;
           ret (Next (Append msg [ATime (NewTimetagFromTimetag tt')]))) st'
      end
  else if Ascii.eqb c "N" then ret (Next (Append msg [ANil]))
  else if Ascii.eqb c "T" then ret (Next (Append msg [ABool true]))
  else if Ascii.eqb c "F" then ret (Next (Append msg [ABool false]))
  else fail (ErrUnsupportedTypeTag c).

Fixpoint readArgumentsLoop (typetags : bytes) (msg : Message) : M Message :=
  match typetags with
  | [] => ret msg
  | c :: typetags' =>
      f <- readArgument c msg ;;
      match f with
      | Next msg' => readArgumentsLoop typetags' msg'
      | ReturnNil msg' => ret msg'
      end
  end.

(** [readArguments(msg, reader, start)]: the message as the call leaves it
    when it returns [nil], the error otherwise. *)
Definition readArguments (msg : Message) : M Message :=
  '(typetags, n) <- op readPaddedString ;;
  _ <- advance n ;;
  match typetags with
  | [] => ret msg
  | c :: typetags' =>
      if negb (Ascii.eqb c ",") then fail (ErrUnsupportedTypeTagString typetags)
      else readArgumentsLoop typetags' msg
  end.

(** [readMessage(reader, start)]. *)
Definition readMessage : M Message :=
  '(addr, n) <- op readPaddedString ;;
  _ <- advance n ;;
  let msg := NewMessage addr [] in
  readArguments msg.

Definition bundleTagString : bytes := lit "#bundle".

Definition bytes_eqb (a b : bytes) : bool :=
  if list_eq_dec ascii_dec a b then true else false.

(** [readBundle] up to its loop, which is [loop]. *)
Definition readBundleWith (loop : Bundle -> M Bundle) : M Bundle :=
  '(startTag, n) <- op readPaddedString ;;
  _ <- advance n ;;
  if negb (bytes_eqb startTag bundleTagString)
  then fail (ErrInvalidBundleStartTag startTag)
  else
    timeTag <- op (binaryRead 8) ;;
    _ <- advance 8 ;;
    let bundle := NewBundle timeTag in
    loop bundle.

(** [readPacket(reader, start, end)] and the loop [for *start < end] of
    [readBundle]; [fuel] bounds the depth of the calls. *)
Fixpoint readPacket (fuel : nat) (end_ : Z) {struct fuel} : M Packet :=
  match fuel with
  | O => fail OutOfFuel
  | S fuel' =>
      b <- op (Peek 1) ;;
      match b with
      | c :: _ =>
          if Ascii.eqb c "/" then
            msg <- readMessage ;; ret (PMessage msg)
          else if Ascii.eqb c "#" then
            bundle <- readBundleWith (readBundleLoop fuel' end_) ;;
            ret (PBundle bundle)
          else fail ERROR_INVALID_PACKET
      | [] => fail ERROR_INVALID_PACKET
      end
  end
with readBundleLoop (fuel : nat) (end_ : Z) (bundle : Bundle) {struct fuel} : M Bundle :=
  fun st =>
    if start st <? end_ then
      match fuel with
      | O => (Err OutOfFuel, st)
      | S fuel' =>
          (_ <- op (binaryRead 4) ;;      (* [length], never looked at *)
           _ <- advance 4 ;;
           p <- readPacket fuel' end_ ;;
           readBundleLoop fuel' end_ (Bundle_Append bundle p)) st
      end
    else (Ok bundle, st).

(** [readBundle(reader, start, end)]. *)
Definition readBundle (fuel : nat) (end_ : Z) : M Bundle :=
  readBundleWith (readBundleLoop fuel end_).

(** ** Address patterns

    [getRegEx] rewrites the address pattern into the source text of a
    regular expression and hands it to [regexp.MustCompile];
    [Message.Match] asks the compiled expression [MatchString].  The
    package [regexp] is Go's library: what follows embeds the fragment of
    its syntax that the rewriting produces from patterns made of ordinary
    characters, [?], [*], [{], [,], [}], [.], [(] and [)], over one-byte
    characters.  It is the library's behaviour on ASCII patterns of that
    kind and ASCII addresses, and the statements about [Match] keep to
    those: outside them ([^], [$], [+], brackets, characters of several
    bytes) the library does more than is written here. *)

Inductive regex : Type :=
| RNone                      (* matches nothing *)
| REmpty                     (* the empty string *)
| RLit (c : byte)            (* one given character *)
| RAny                       (* [.]: any character but a newline *)
| RCat (a b : regex)
| RAlt (a b : regex)
| RStar (a : regex).

Definition newline : byte := "010"%char.

(** The characters with a meaning in the syntax. *)
Definition isMeta (c : byte) : bool :=
  existsb (Ascii.eqb c) (lit "\.+*?()|[]{}^$").

(** The parser: alternation, below it concatenation, below it repetition,
    below it atoms.  [None] stands for a pattern that [regexp.Compile]
    refuses (where [MustCompile] panics) or that uses syntax outside the
    fragment; [fuel] bounds the depth of the calls. *)
Fixpoint parseAlt (fuel : nat) (s : bytes) {struct fuel} : option (regex * bytes) :=
  match fuel with
  | O => None
  | S f =>
      match parseCat f s with
      | Some (a, c :: s') =>
          if Ascii.eqb c "|" then
            match parseAlt f s' with
            | Some (b, s'') => Some (RAlt a b, s'')
            | None => None
            end
          else Some (a, c :: s')
      | other => other
      end
  end
with parseCat (fuel : nat) (s : bytes) {struct fuel} : option (regex * bytes) :=
  match fuel with
  | O => None
  | S f =>
      match s with
      | [] => Some (REmpty, s)
      | c :: _ =>
          if Ascii.eqb c "|" || Ascii.eqb c ")" then Some (REmpty, s)
          else
            match parseRep f s with
            | Some (a, s') =>
                match parseCat f s' with
                | Some (b, s'') => Some (RCat a b, s'')
                | None => None
                end
            | None => None
            end
      end
  end
with parseRep (fuel : nat) (s : bytes) {struct fuel} : option (regex * bytes) :=
  match fuel with
  | O => None
  | S f =>
      match parseAtom f s with
      | Some (a, c :: s') =>
          if Ascii.eqb c "*" then
            match s' with
            | c' :: _ =>
                (* a repetition operator after [*] is outside the fragment *)
                if Ascii.eqb c' "*" || Ascii.eqb c' "+" || Ascii.eqb c' "?"
                   || Ascii.eqb c' "{"
                then None else Some (RStar a, s')
            | [] => Some (RStar a, s')
            end
          else if Ascii.eqb c "+" || Ascii.eqb c "?" || Ascii.eqb c "{"
          then None
          else Some (a, c :: s')
      | other => other
      end
  end
with parseAtom (fuel : nat) (s : bytes) {struct fuel} : option (regex * bytes) :=
  match fuel with
  | O => None
  | S f =>
      match s with
      | [] => None
      | c :: s' =>
          if Ascii.eqb c "(" then
            match parseAlt f s' with
            | Some (a, c' :: s'') =>
                if Ascii.eqb c' ")" then Some (a, s'') else None
            | _ => None
            end
          else if Ascii.eqb c "." then Some (RAny, s')
          else if Ascii.eqb c "\" then
            match s' with
            | x :: s'' => if isMeta x then Some (RLit x, s'') else None
            | [] => None
            end
          else if isMeta c then None
          else Some (RLit c, s')
      end
  end.

(** [regexp.MustCompile] on the fragment. *)
Definition Compile (expr : bytes) : option regex :=
  match parseAlt (4 * length expr + 4) expr with
  | Some (re, []) => Some re
  | _ => None
  end.

(** Matching by derivatives. *)
Fixpoint nullable (re : regex) : bool :=
  match re with
  | RNone => false
  | REmpty => true
  | RLit _ => false
  | RAny => false
  | RCat a b => nullable a && nullable b
  | RAlt a b => nullable a || nullable b
  | RStar _ => true
  end.

Fixpoint deriv (c : byte) (re : regex) : regex :=
  match re with
  | RNone => RNone
  | REmpty => RNone
  | RLit x => if Ascii.eqb x c then REmpty else RNone
  | RAny => if Ascii.eqb c newline then RNone else REmpty
  | RCat a b =>
      if nullable a then RAlt (RCat (deriv c a) b) (deriv c b)
      else RCat (deriv c a) b
  | RAlt a b => RAlt (deriv c a) (deriv c b)
  | RStar a => RCat (deriv c a) (RStar a)
  end.

(** The words of an expression, as the syntax reads: the matcher by
    derivatives is checked against them. *)
Inductive Words : regex -> bytes -> Prop :=
| WEmpty : Words REmpty []
| WLit (c : byte) : Words (RLit c) [c]
| WAny (c : byte) : c <> newline -> Words RAny [c]
| WCat (a b : regex) (s t : bytes) :
    Words a s -> Words b t -> Words (RCat a b) (s ++ t)
| WAltL (a b : regex) (s : bytes) : Words a s -> Words (RAlt a b) s
| WAltR (a b : regex) (s : bytes) : Words b s -> Words (RAlt a b) s
| WStarNil (a : regex) : Words (RStar a) []
| WStarCons (a : regex) (s t : bytes) :
    Words a s -> Words (RStar a) t -> Words (RStar a) (s ++ t).

(** The whole of [s] is a word of [re]. *)
Fixpoint matchWhole (re : regex) (s : bytes) : bool :=
  match s with
  | [] => nullable re
  | c :: s' => matchWhole (deriv c re) s'
  end.

(** Some prefix of [s] is a word of [re]. *)
Fixpoint matchPrefix (re : regex) (s : bytes) : bool :=
  nullable re ||
  match s with
  | [] => false
  | c :: s' => matchPrefix (deriv c re) s'
  end.

(** [re.MatchString(s)]: [s] contains a match of [re], starting and ending
    anywhere. *)
Fixpoint MatchString (re : regex) (s : bytes) : bool :=
  matchPrefix re s ||
  match s with
  | [] => false
  | _ :: s' => MatchString re s'
  end.

(** The prefixes of [s], and its substrings. *)
Fixpoint prefixes (s : bytes) : list bytes :=
  match s with
  | [] => [[]]
  | c :: s' => [] :: map (cons c) (prefixes s')
  end.

Fixpoint substrings (s : bytes) : list bytes :=
  prefixes s ++
  match s with
  | [] => []
  | _ :: s' => substrings s'
  end.

(** [strings.Replace(s, old, new, -1)] for a one-byte [old]. *)
Definition Replace (s : bytes) (old : byte) (new : bytes) : bytes :=
  flat_map (fun c => if Ascii.eqb c old then new else [c]) s.

(** The table of [getRegEx]. *)
Definition replacements : list (byte * bytes) :=
  [ ("."%char, lit "\.");
    ("("%char, lit "\(");
    (")"%char, lit "\)");
    ("*"%char, lit ".*");
    ("{"%char, lit "(");
    (","%char, lit "|");
    ("}"%char, lit ")");
    ("?"%char, lit ".") ].

(** The text [getRegEx] hands to [regexp.MustCompile]. *)
Definition regexSource (pattern : bytes) : bytes :=
  fold_left (fun pattern trs => Replace pattern (fst trs) (snd trs))
            replacements pattern.

(** [getRegEx(pattern)]. *)
Definition getRegEx (pattern : bytes) : option regex :=
  Compile (regexSource pattern).

(** [msg.Match(addr)]. *)
Definition Match (msg : Message) (addr : bytes) : option bool :=
  match getRegEx (Address msg) with
  | Some re => Some (MatchString re addr)
  | None => None
  end.

(** A matcher anchored at both ends, which is what the specification asks
    of [matches]. *)
Definition MatchAnchored (msg : Message) (addr : bytes) : option bool :=
  match getRegEx (Address msg) with
  | Some re => Some (matchWhole re addr)
  | None => None
  end.

(** ** Auxiliary notions used by the statements *)

(** The tag characters the switch of [readArguments] knows. *)
Definition knownTag (c : byte) : bool :=
  existsb (Ascii.eqb c) (lit "ihfdsbtNTF").

(** Running the loop body over [typetags] as long as every round goes on to
    the next tag: the message and the state reached, [None] as soon as a
    round returns (with an error, or with [nil] on a failed timetag
    read). *)
Fixpoint readArgumentsRounds (typetags : bytes) (msg : Message) (st : St)
  : option (Message * St) :=
  match typetags with
  | [] => Some (msg, st)
  | c :: typetags' =>
      match readArgument c msg st with
      | (Ok (Next msg'), st') => readArgumentsRounds typetags' msg' st'
      | _ => None
      end
  end.

(** The bound on the rounds of [collectFragments] from the reader [b]: each
    round either empties a full buffer or takes bytes from the source. *)
Definition rounds (b : Reader) : nat :=
  (2 * length (rd b) + match buf b with [] => 0 | _ :: _ => 1 end)%nat.

(** [b'] is the reader [b] after some reading: the same capacity, and no
    more of the stream left. *)
Definition later (b b' : Reader) : Prop :=
  size b' = size b /\ (length (stream b') <= length (stream b))%nat.

(** The operation returns, with a result or a Go error, and only reads
    forward. *)
Definition returnsOp {A} (f : RdOp A) : Prop :=
  forall b, (0 < size b)%nat ->
            later b (snd (f b)) /\ fst (f b) <> Err OutOfFuel.

Definition returns {A} (m : M A) : Prop :=
  forall st, (0 < size (reader st))%nat ->
             later (reader st) (reader (snd (m st)))
             /\ fst (m st) <> Err OutOfFuel.

(** Errors raised by [io], [bufio] and the recursion bound, as opposed to
    those the package builds. *)
Definition readerError (e : error) : bool :=
  match e with
  | EOF | ErrUnexpectedEOF | ErrBufferFull | OutOfFuel => true
  | _ => false
  end.

(** A byte string without null byte. *)
Definition nullFree (s : bytes) : bool :=
  forallb (fun c => negb (Ascii.eqb c NUL)) s.

(** The arguments that are Go values of the types the encoder knows and
    that the decoder can give back: integers within their width, floats as
    bit patterns of their width, strings without null byte, blobs that are
    not empty. *)
Definition roundTrips (arg : Argument) : bool :=
  match arg with
  | ABool _ | ANil => true
  | AInt32 t => (- 2 ^ 31 <=? t) && (t <? 2 ^ 31)
  | AInt64 t => (- 2 ^ 63 <=? t) && (t <? 2 ^ 63)
  | AFloat32 bits => (0 <=? bits) && (bits <? 2 ^ 32)
  | AFloat64 bits => (0 <=? bits) && (bits <? 2 ^ 64)
  | AStr t => nullFree t
  | ABlob t => negb (length t =? 0)%nat
  | ATime t => (0 <=? t) && (t <? 2 ^ 64)
  | AOther => false
  end.

Definition roundTripsMessage (msg : Message) : bool :=
  nullFree (Address msg) && forallb roundTrips (Arguments msg).

(** An argument that is not a blob. *)
Definition noBlob (arg : Argument) : bool :=
  match arg with
  | ABlob _ => false
  | _ => true
  end.

(** The capacity of the reader and what its source still holds are
    multiples of four, and the capacity is above the widest number read. *)
Definition wordSized (b : Reader) : Prop :=
  Z.of_nat (size b) mod 4 = 0 /\ 8 < Z.of_nat (size b) /\ len (rd b) mod 4 = 0.

(** Moreover the reader stands at a multiple of four bytes from the end of
    the input. *)
Definition wordAligned (b : Reader) : Prop :=
  wordSized b /\ len (buf b) mod 4 = 0.

(** The bytes of one argument on the wire. *)
Definition wireArgument (arg : Argument) : bytes :=
  match arg with
  | ABool _ | ANil | AOther => []
  | AInt32 t | AFloat32 t => be_bytes 4 t
  | AInt64 t | AFloat64 t => be_bytes 8 t
  | ATime t => be_bytes 8 t
  | AStr t => paddedStringDoc t
  | ABlob t =>
      be_bytes 4 (to_int32 (len t)) ++ t ++ make (padBytesNeeded (len t))
  end.

Definition wireArguments (args : list Argument) : bytes :=
  concat (map wireArgument args).

(** The bytes of a message on the wire. *)
Definition wireMessage (msg : Message) : bytes :=
  paddedStringDoc (Address msg)
  ++ paddedStringDoc (","%char :: map getTypeTag (Arguments msg))
  ++ wireArguments (Arguments msg).

(** ** Sample inputs *)

(** "/a", tags ",it", the int32 7, and three bytes where the eight of a
    timetag should be. *)
Definition truncatedTimetag : bytes :=
  lit "/a" ++ [NUL; NUL] ++ lit ",it" ++ [NUL] ++ be_bytes 4 7 ++ [NUL; NUL; NUL].

(** The same bytes with the tag [h] (int64) in place of [t]. *)
Definition truncatedInt64 : bytes :=
  lit "/a" ++ [NUL; NUL] ++ lit ",ih" ++ [NUL] ++ be_bytes 4 7 ++ [NUL; NUL; NUL].

(** A message with one string argument of four characters. *)
Definition stringMessage : Message := NewMessage (lit "/a") [AStr (lit "abcd")].

Definition stringMessageBytes : bytes :=
  lit "/a" ++ [NUL; NUL] ++ lit ",s" ++ [NUL; NUL]
  ++ lit "abcd" ++ [NUL; NUL; NUL; NUL].

(** A message with one blob argument of 5000 bytes. *)
Definition blobMessage : Message :=
  NewMessage (lit "/a") [ABlob (repeat "x"%char 5000)].

Definition blobMessageBytes : bytes :=
  lit "/a" ++ [NUL; NUL] ++ lit ",b" ++ [NUL; NUL]
  ++ be_bytes 4 5000 ++ repeat "x"%char 5000.

(** A message with an empty blob, and one with a null byte inside a
    string. *)
Definition emptyBlobMessage : Message := NewMessage (lit "/a") [ABlob []].

Definition nullStringMessage : Message :=
  NewMessage (lit "/a") [AStr (lit "a" ++ [NUL] ++ lit "b")].

(** "/a" with the tags ",i" and no payload; "/a" with the tags ",tx" and no
    payload. *)
Definition tagsWithoutPayload : bytes :=
  lit "/a" ++ [NUL; NUL] ++ lit ",i" ++ [NUL; NUL].

Definition unknownTagAfterTimetag : bytes :=
  lit "/a" ++ [NUL; NUL] ++ lit ",tx" ++ [NUL].

(** A bundle with the timetag 1 and one element, the message "/a" without
    arguments (eight bytes), whose length prefix is [declared]. *)
Definition bundleBytes (declared : Z) : bytes :=
  lit "#bundle" ++ [NUL] ++ be_bytes 8 1
  ++ be_bytes 4 declared
  ++ lit "/a" ++ [NUL; NUL] ++ lit "," ++ [NUL; NUL; NUL].

(** A bundle whose first element is a bundle holding the message "/a" and
    whose second element is the message "/b". *)
Definition nestedBundleBytes : bytes :=
  lit "#bundle" ++ [NUL] ++ be_bytes 8 1
  ++ be_bytes 4 28
  ++ (lit "#bundle" ++ [NUL] ++ be_bytes 8 2
      ++ be_bytes 4 8
      ++ lit "/a" ++ [NUL; NUL] ++ lit "," ++ [NUL; NUL; NUL])
  ++ be_bytes 4 8
  ++ lit "/b" ++ [NUL; NUL] ++ lit "," ++ [NUL; NUL; NUL].

(** A message with an argument of every kind. *)
Definition sampleMessage : Message :=
  NewMessage (lit "/synth/1")
    [ABool true; ABool false; ANil; AInt32 (-2); AInt64 (2 ^ 40);
     AFloat32 1078530011; AFloat64 4614256656552045848;
     AStr (lit "abcd"); ABlob (lit "xyz"); ATime 1].

(** ** The rest of [Message] *)

(** [msg.ClearData()]: the slice [msg.Arguments[len(msg.Arguments):]]. *)
Definition ClearData (msg : Message) : Message :=
  mkMessage (Address msg) (skipn (length (Arguments msg)) (Arguments msg)).

(** [msg.Clear()]. *)
Definition Clear (msg : Message) : Message :=
  let msg := mkMessage (lit "") (Arguments msg) in
  ClearData msg.

(** ** Utility and helper functions *)

(** [addressExists(addr, handlers)].  The map is the list of its entries
    in the order in which the [range] happens to meet them; Go fixes no
    such order. *)
Fixpoint addressExists {Handler : Type} (addr : bytes)
         (handlers : list (bytes * Handler)) : bool :=
  match handlers with
  | [] => false
  | (h, _) :: handlers' =>
      if bytes_eqb h addr then true else addressExists addr handlers'
  end.

(** ** Further notions used by the statements *)

(** The dynamic types the type switch of [MarshalBinary] knows. *)
Definition supported (arg : Argument) : bool :=
  match arg with
  | AOther => false
  | _ => true
  end.

(** What the loop of [MarshalBinary] appends to the payload for one
    argument. *)
Definition argumentPayload (arg : Argument) : bytes :=
  match arg with
  | ABool _ | ANil | AOther => []
  | AInt32 t | AFloat32 t => be_bytes 4 t
  | AInt64 t | AFloat64 t => be_bytes 8 t
  | ATime t => Timetag_MarshalBinary t
  | AStr t => snd (writePaddedString t [])
  | ABlob t => snd (writeBlob t [])
  end.

(** What the loop of [readArguments] adds to [*start] for an argument it
    appends. *)
Definition counted (arg : Argument) : Z :=
  match arg with
  | ABool _ | ANil | AOther => 0
  | AInt32 _ | AFloat32 _ => 4
  | AInt64 _ | AFloat64 _ | ATime _ => 8
  | AStr t => len t + padBytesNeeded (len t)
  | ABlob t => 4 + len t + padBytesNeeded (len t)
  end.

Definition countedAll (args : list Argument) : Z :=
  fold_right (fun a n => counted a + n) 0 args.

(** The string arguments whose length is a multiple of four. *)
Definition shortCounted (arg : Argument) : bool :=
  match arg with
  | AStr t => len t mod 4 =? 0
  | _ => false
  end.

(** How many of the arguments are such strings. *)
Definition countShort (args : list Argument) : Z :=
  Z.of_nat (length (filter shortCounted args)).

(** The bytes [readBundle] takes for a bundle of messages: the start tag,
    the eight bytes of the timetag, and each message behind a four-byte
    length field, whose value is the first component of the element. *)
Definition wireElement (e : Z * Message) : bytes :=
  be_bytes 4 (fst e) ++ wireMessage (snd e).

Definition wireBundle (timetag : Timetag) (elems : list (Z * Message)) : bytes :=
  paddedStringDoc bundleTagString ++ be_bytes 8 timetag
  ++ concat (map wireElement elems).

(** How many string arguments of the messages have a length that is a
    multiple of four. *)
Definition countShortElems (elems : list (Z * Message)) : Z :=
  fold_right (fun e n => countShort (Arguments (snd e)) + n) 0 elems.

(** A message the decoder gives back and that [readPacket] takes for a
    message. *)
Definition packetMessage (msg : Message) : bool :=
  roundTripsMessage msg
  && match Address msg with
     | c :: _ => Ascii.eqb c "/"
     | [] => false
     end.

(** ** Address patterns, character by character *)

(** What the table of [getRegEx] makes of one character. *)
Definition translate (c : byte) : bytes :=
  match find (fun trs => Ascii.eqb (fst trs) c) replacements with
  | Some trs => snd trs
  | None => [c]
  end.

Definition isASCII (c : byte) : bool := Z_of_byte c <? 128.

(** The characters of the patterns without alternatives: ASCII, no brace
    and no comma, and none of the characters that reach [regexp] as they
    are and mean something there. *)
Definition globChar (c : byte) : bool :=
  isASCII c && negb (existsb (Ascii.eqb c) (lit "{},\+|[]^$")).

(** The words of a pattern without alternatives: [*] stands for any run
    of characters and [?] for one character, a newline excepted. *)
Inductive Glob : bytes -> bytes -> Prop :=
| GNil : Glob [] []
| GStar (p w1 w2 : bytes) :
    ~ In newline w1 -> Glob p w2 -> Glob ("*"%char :: p) (w1 ++ w2)
| GAny (p : bytes) (x : byte) (w : bytes) :
    x <> newline -> Glob p w -> Glob ("?"%char :: p) (x :: w)
| GLit (c : byte) (p w : bytes) :
    c <> "*"%char -> c <> "?"%char -> Glob p w -> Glob (c :: p) (c :: w).

(** The first character of what follows an atom is not a repetition
    operator, a bar or a closing parenthesis. *)
Definition startsPlain (s : bytes) : bool :=
  match s with
  | [] => true
  | c :: _ => negb (existsb (Ascii.eqb c) (lit "*+?{|)"))
  end.

(** The first character of what follows an atom is not a repetition
    operator. *)
Definition noRep (s : bytes) : bool :=
  match s with
  | [] => true
  | c :: _ => negb (existsb (Ascii.eqb c) (lit "*+?{"))
  end.

(** The expression [getRegEx] builds for such a pattern. *)
Definition globAtom (c : byte) : regex :=
  if Ascii.eqb c "*" then RStar RAny
  else if Ascii.eqb c "?" then RAny
  else RLit c.

Fixpoint globRegex (p : bytes) : regex :=
  match p with
  | [] => REmpty
  | c :: p' => RCat (globAtom c) (globRegex p')
  end.

(** Two bundles of two messages; in the second a string argument has four
    characters. *)
Definition sampleElems : list (Z * Message) :=
  [ (8, NewMessage (lit "/a") []);
    (0, NewMessage (lit "/b") [AInt32 7; AStr (lit "abc")]) ].

Definition shortElems : list (Z * Message) :=
  [ (20, NewMessage (lit "/a") [AStr (lit "abcd")]);
    (8, NewMessage (lit "/b") []) ].

(** A pattern with one pair of braces: [pre{a,a1,...,an}post]. *)
Fixpoint commaSep (a : bytes) (alts : list bytes) : bytes :=
  match alts with
  | [] => a
  | a' :: alts' => a ++ ","%char :: commaSep a' alts'
  end.

Definition bracePattern (pre a : bytes) (alts : list bytes) (post : bytes)
  : bytes :=
  pre ++ "{"%char :: commaSep a alts ++ "}"%char :: post.

(** The expression [getRegEx] builds for it. *)
Fixpoint altRegex (a : bytes) (alts : list bytes) : regex :=
  match alts with
  | [] => globRegex a
  | a' :: alts' => RAlt (globRegex a) (altRegex a' alts')
  end.

Fixpoint globThen (p : bytes) (k : regex) : regex :=
  match p with
  | [] => k
  | c :: p' => RCat (globAtom c) (globThen p' k)
  end.

Definition braceRegex (pre a : bytes) (alts : list bytes) (post : bytes)
  : regex :=
  globThen pre (RCat (altRegex a alts) (globRegex post)).

(** * Properties *)

(** ** Padding *)

Lemma padBytesNeeded_mod (n : Z) :
  0 <= n -> padBytesNeeded n = (4 - n mod 4) mod 4.
Proof.
  intros Hn. unfold padBytesNeeded.
  pose proof (Z.mod_pos_bound n 4 ltac:(lia)) as Hb.
  rewrite (Z.rem_mod_nonneg n 4) by lia.
  apply Z.rem_mod_nonneg; lia.
Qed.

Lemma padBytesNeeded_range (n : Z) : 0 <= n -> 0 <= padBytesNeeded n < 4.
Proof.
  intros Hn. rewrite padBytesNeeded_mod by assumption.
  apply Z.mod_pos_bound. lia.
Qed.

Lemma padBytesNeeded_aligned (n : Z) :
  0 <= n -> (n + padBytesNeeded n) mod 4 = 0.
Proof.
  intros Hn. rewrite padBytesNeeded_mod by assumption.
  pose proof (Z.mod_pos_bound n 4 ltac:(lia)) as Hb.
  rewrite Z.add_mod by lia.
  assert (Hc : n mod 4 = 0 \/ n mod 4 = 1 \/ n mod 4 = 2 \/ n mod 4 = 3) by lia.
  destruct Hc as [-> | [-> | [-> | ->]]]; reflexivity.
Qed.

(** C6.  For every length [n >= 0], [padBytesNeeded n] is
    [(4 - (n mod 4)) mod 4], lies in [0, 4), and brings [n] up to a
    multiple of four. *)
Theorem padBytesNeeded_spec (n : Z) (Hn : 0 <= n) :
  padBytesNeeded n = (4 - n mod 4) mod 4
  /\ 0 <= padBytesNeeded n < 4
  /\ (n + padBytesNeeded n) mod 4 = 0.
Proof.
  split; [apply padBytesNeeded_mod | split;
    [apply padBytesNeeded_range | apply padBytesNeeded_aligned]]; assumption.
Qed.

Lemma padBytesNeeded_spec_witness :
  0 <= 5
  /\ padBytesNeeded 5 = (4 - 5 mod 4) mod 4
  /\ 0 <= padBytesNeeded 5 < 4
  /\ (5 + padBytesNeeded 5) mod 4 = 0.
Proof.
  split; [lia | apply (padBytesNeeded_spec 5); lia].
Defined.

(** ** Padded strings *)

Lemma Index_lower (s : bytes) (c : byte) : -1 <= Index s c.
Proof.
  induction s as [| x s IH]; simpl; [lia |].
  destruct (Ascii.eqb x c); [lia |].
  destruct (Index s c <? 0) eqn:E; [lia |].
  apply Z.ltb_ge in E. lia.
Qed.

Lemma Index_absent (s : bytes) :
  Index s NUL = -1 -> truncateAtNull s = s.
Proof.
  induction s as [| x s IH]; simpl; [reflexivity |].
  destruct (Ascii.eqb x NUL); [discriminate |].
  destruct (Index s NUL <? 0) eqn:E; intros H.
  - f_equal. apply IH. apply Z.ltb_lt in E. pose proof (Index_lower s NUL). lia.
  - apply Z.ltb_ge in E. lia.
Qed.

Lemma Index_present (s : bytes) :
  0 <= Index s NUL -> firstn (Z.to_nat (Index s NUL)) s = truncateAtNull s.
Proof.
  induction s as [| x s IH]; simpl; [reflexivity |].
  destruct (Ascii.eqb x NUL); [reflexivity |].
  destruct (Index s NUL <? 0) eqn:E; intros H; [lia |].
  apply Z.ltb_ge in E.
  rewrite Z2Nat.inj_add by lia. rewrite Nat.add_comm. simpl.
  f_equal. apply IH. assumption.
Qed.

Lemma len_nonneg (s : bytes) : 0 <= len s.
Proof. unfold len. lia. Qed.

Lemma len_app (a b : bytes) : len (a ++ b) = len a + len b.
Proof. unfold len. rewrite length_app. lia. Qed.

Lemma len_make (n : Z) : 0 <= n -> len (make n) = n.
Proof. intros H. unfold len, make. rewrite repeat_length. lia. Qed.

(** The string written is the one the documentation describes whenever the
    first byte of [str] is not a null. *)
Lemma writePaddedString_doc (str buf : bytes) :
  Index str NUL <> 0 ->
  writePaddedString str buf
  = (len (paddedStringDoc str), buf ++ paddedStringDoc str).
Proof.
  intros H0. unfold writePaddedString, paddedStringDoc.
  pose proof (Index_lower str NUL) as Hl.
  assert (Ht : (if 0 <? Index str NUL
                then firstn (Z.to_nat (Index str NUL)) str else str)
               = truncateAtNull str).
  { destruct (0 <? Index str NUL) eqn:E.
    - apply Index_present. apply Z.ltb_lt in E. lia.
    - apply Z.ltb_ge in E. symmetry. apply Index_absent. lia. }
  rewrite Ht. cbv zeta.
  set (t := truncateAtNull str).
  pose proof (len_nonneg t) as Hlen.
  pose proof (padBytesNeeded_range (len t + 1) ltac:(lia)) as Hp.
  rewrite !len_app.
  replace (len [NUL]) with 1 by reflexivity.
  rewrite len_make by lia.
  destruct (0 <? padBytesNeeded (len t + 1)) eqn:E.
  - rewrite <- !app_assoc. f_equal. lia.
  - apply Z.ltb_ge in E.
    assert (Hz : padBytesNeeded (len t + 1) = 0) by lia.
    rewrite Hz. unfold make. simpl. rewrite <- app_assoc.
    f_equal. lia.
Qed.

Lemma paddedStringDoc_aligned (s : bytes) :
  len (paddedStringDoc s) mod 4 = 0 /\ 4 <= len (paddedStringDoc s).
Proof.
  unfold paddedStringDoc. cbv zeta.
  set (t := truncateAtNull s).
  pose proof (len_nonneg t) as Hlen.
  pose proof (padBytesNeeded_range (len t + 1) ltac:(lia)) as Hp.
  pose proof (padBytesNeeded_aligned (len t + 1) ltac:(lia)) as Ha.
  rewrite !len_app. replace (len [NUL]) with 1 by reflexivity.
  rewrite len_make by lia.
  replace (len t + (1 + padBytesNeeded (len t + 1)))
    with (len t + 1 + padBytesNeeded (len t + 1)) by lia.
  split; [assumption |].
  destruct (Z.eq_dec (len t + 1 + padBytesNeeded (len t + 1)) 0) as [E | E];
    [lia |].
  apply Z.mod_divide in Ha; [| lia].
  destruct Ha as [k Hk]. lia.
Qed.

(** C7.  [writePaddedString] does not cut a string at a null byte that is
    its first byte ([nullIndex > 0] where [nullIndex >= 0] is meant): for
    the string of a null followed by "abcd" it writes the five bytes, a
    terminator and two bytes of padding and returns 8, where the string cut
    at its first null is empty and takes four bytes. *)
Theorem writePaddedString_leading_null :
  let str := NUL :: lit "abcd" in
  writePaddedString str [] = (8, str ++ [NUL; NUL; NUL])
  /\ truncateAtNull str = []
  /\ paddedStringDoc str = [NUL; NUL; NUL; NUL]
  /\ snd (writePaddedString str []) <> paddedStringDoc str
  /\ fst (writePaddedString str []) <> len (paddedStringDoc str).
Proof.
  cbv zeta. repeat split; try reflexivity; vm_compute; discriminate.
Qed.

(** ** Type tags *)

Lemma fold_left_snoc_map {A B} (f : A -> B) (l : list A) (acc : list B) :
  fold_left (fun tags m => tags ++ [f m]) l acc = acc ++ map f l.
Proof.
  revert acc. induction l as [| a l IH]; intros acc; simpl.
  - symmetry. apply app_nil_r.
  - rewrite IH. rewrite <- app_assoc. reflexivity.
Qed.

(** C8.  The type-tag string of a message is a comma followed by the tag of
    each argument in order; the tag of each kind of argument is the fixed
    character of the table; without arguments the string is ",". *)
Theorem typeTags_spec :
  (forall msg, typeTags msg = ","%char :: map getTypeTag (Arguments msg))
  /\ (forall addr, typeTags (NewMessage addr []) = lit ",")
  /\ getTypeTag (ABool true) = "T"%char
  /\ getTypeTag (ABool false) = "F"%char
  /\ getTypeTag ANil = "N"%char
  /\ (forall t, getTypeTag (AInt32 t) = "i"%char)
  /\ (forall t, getTypeTag (AInt64 t) = "h"%char)
  /\ (forall t, getTypeTag (AFloat32 t) = "f"%char)
  /\ (forall t, getTypeTag (AFloat64 t) = "d"%char)
  /\ (forall t, getTypeTag (AStr t) = "s"%char)
  /\ (forall t, getTypeTag (ABlob t) = "b"%char)
  /\ (forall t, getTypeTag (ATime t) = "t"%char).
Proof.
  split; [| repeat split].
  intros [addr args]. unfold typeTags. simpl.
  destruct args as [| a args]; [reflexivity |].
  cbn [length Nat.eqb]. rewrite fold_left_snoc_map. reflexivity.
Qed.

(** ** Address patterns *)

Lemma existsb_map {A B} (f : B -> bool) (g : A -> B) (l : list A) :
  existsb f (map g l) = existsb (fun a => f (g a)) l.
Proof.
  induction l as [| a l IH]; simpl; [reflexivity | now rewrite IH].
Qed.

Lemma matchPrefix_prefixes (re : regex) (s : bytes) :
  matchPrefix re s = existsb (matchWhole re) (prefixes s).
Proof.
  revert re. induction s as [| c s IH]; intros re; simpl.
  - now rewrite orb_false_r.
  - rewrite existsb_map. simpl. now rewrite IH.
Qed.

Lemma MatchString_substrings (re : regex) (s : bytes) :
  MatchString re s = existsb (matchWhole re) (substrings s).
Proof.
  induction s as [| c s IH].
  - change (substrings []) with (prefixes [] ++ []).
    rewrite existsb_app. cbn [MatchString].
    now rewrite matchPrefix_prefixes.
  - change (substrings (c :: s)) with (prefixes (c :: s) ++ substrings s).
    rewrite existsb_app. cbn [MatchString].
    now rewrite matchPrefix_prefixes, IH.
Qed.

Lemma substrings_spec (s t : bytes) :
  In t (substrings s) <-> exists pre post, s = pre ++ t ++ post.
Proof.
  assert (Hp : forall s t, In t (prefixes s) <-> exists post, s = t ++ post).
  { clear. induction s as [| c s IH]; intros t; simpl.
    - split.
      + intros [<- | []]. now exists [].
      + intros [post H]. left. symmetry in H.
        apply app_eq_nil in H. symmetry. tauto.
    - rewrite in_map_iff. split.
      + intros [<- | [u [<- Hu]]].
        * now exists (c :: s).
        * apply IH in Hu. destruct Hu as [post ->]. now exists post.
      + intros [post H]. destruct t as [| x t]; [now left | right].
        simpl in H. injection H as <- ->.
        exists t. split; [reflexivity |]. apply IH. now exists post. }
  induction s as [| c s IH].
  - change (substrings []) with (prefixes [] ++ []).
    rewrite in_app_iff, Hp. split.
    + intros [[post H] | []]. now exists [], post.
    + intros [pre [post H]]. left.
      symmetry in H. apply app_eq_nil in H. destruct H as [-> H].
      now exists post.
  - change (substrings (c :: s)) with (prefixes (c :: s) ++ substrings s).
    rewrite in_app_iff, Hp, IH. split.
    + intros [[post H] | [pre [post ->]]].
      * now exists [], post.
      * now exists (c :: pre), post.
    + intros [pre [post H]]. destruct pre as [| x pre].
      * left. now exists post.
      * right. simpl in H. injection H as _ ->. now exists pre, post.
Qed.

(** C2 fails on the code by a slip.  [Message.Match] is documented to
    return true "if the OSC address pattern of the OSC Message matches the
    given address", and [getRegEx] gives each wildcard the meaning it has
    in such a match ([?] one character, [*] any run of characters).  But
    [getRegEx] hands the rewritten pattern to [regexp.MustCompile] as it
    is, without [^] and [$], and [Match] asks [MatchString], which looks
    for a match anywhere in the address.  The text compiled for "/foo/?"
    is "/foo/."; its matcher accepts "/foo/ba", and "/x/foo/b/y", which a
    match of the whole address rejects.  On the other examples of the
    claim the two agree: "/foo/?" accepts "/foo/b", "/foo/*" accepts
    "/foo/bar", "/a/{x,y}" accepts "/a/x" and rejects "/a/z". *)
Theorem Match_unanchored :
  regexSource (lit "/foo/?") = lit "/foo/."
  /\ Match (NewMessage (lit "/foo/?") []) (lit "/foo/ba") = Some true
  /\ MatchAnchored (NewMessage (lit "/foo/?") []) (lit "/foo/ba") = Some false
  /\ Match (NewMessage (lit "/foo/?") []) (lit "/x/foo/b/y") = Some true
  /\ MatchAnchored (NewMessage (lit "/foo/?") []) (lit "/x/foo/b/y")
     = Some false
  /\ Match (NewMessage (lit "/foo/?") []) (lit "/foo/b") = Some true
  /\ MatchAnchored (NewMessage (lit "/foo/?") []) (lit "/foo/b") = Some true
  /\ Match (NewMessage (lit "/foo/*") []) (lit "/foo/bar") = Some true
  /\ Match (NewMessage (lit "/a/{x,y}") []) (lit "/a/x") = Some true
  /\ Match (NewMessage (lit "/a/{x,y}") []) (lit "/a/z") = Some false.
Proof. repeat split; vm_compute; reflexivity. Qed.

(** ** The decoder on the sample inputs *)

(** C3.  When the read of a timetag argument fails, [readArguments] returns
    [nil] in place of the error ([return nil] where the other tags have
    [return err]): on [truncatedTimetag] the read of the eight bytes fails
    with [ErrUnexpectedEOF], and [readMessage] returns, without an error,
    a message that has the int32 argument only.  With the tag [h] on the
    same bytes the error is returned. *)
Theorem readArguments_swallows_timetag_error :
  readMessage (mkSt (NewReader truncatedTimetag) 0)
  = (Ok (mkMessage (lit "/a") [AInt32 7]),
     mkSt (mkReader [] [] defaultBufSize) 12)
  /\ binaryRead 8 (mkReader [NUL; NUL; NUL] [] defaultBufSize)
     = (Err ErrUnexpectedEOF, mkReader [] [] defaultBufSize)
  /\ fst (readMessage (mkSt (NewReader truncatedInt64) 0))
     = Err ErrUnexpectedEOF.
Proof. repeat split; vm_compute; reflexivity. Qed.

(** C10.  For a string argument the counter is advanced by the length of
    the string plus the padding of that length, not by the bytes taken
    from the reader: the encoding of [stringMessage] has 16 bytes, decoding
    it takes all 16 from the reader and gives the message back, and leaves
    the counter at 12.  The string "abcd" took eight bytes (so says
    [readPaddedString]) and was counted as four. *)
Theorem readArguments_string_miscounts :
  MarshalBinary stringMessage = Ok stringMessageBytes
  /\ len stringMessageBytes = 16
  /\ readMessage (mkSt (NewReader stringMessageBytes) 0)
     = (Ok stringMessage, mkSt (mkReader [] [] defaultBufSize) 12)
  /\ readPaddedString
       (mkReader (lit "abcd" ++ [NUL; NUL; NUL; NUL]) [] defaultBufSize)
     = (Ok (lit "abcd", 8), mkReader [] [] defaultBufSize)
  /\ len (lit "abcd") + padBytesNeeded (len (lit "abcd")) = 4.
Proof. repeat split; vm_compute; reflexivity. Qed.

(** C4.  [readBlob] bounds the declared length by [reader.Buffered()], not
    by the bytes that remain: the encoding of [blobMessage] (5012 bytes)
    declares a blob of 5000 bytes and holds them, and decoding it behind
    the default buffer of 4096 bytes fails with the invalid-length error,
    5000 bytes of input still unread; behind a buffer twice as large the
    same input decodes. *)
Theorem readBlob_bounds_by_buffered :
  MarshalBinary blobMessage = Ok blobMessageBytes
  /\ len blobMessageBytes = 5012
  /\ fst (readMessage (mkSt (NewReader blobMessageBytes) 0))
     = Err (ErrInvalidBlobLength 5000)
  /\ len (stream (reader (snd (readMessage (mkSt (NewReader blobMessageBytes) 0)))))
     = 5000
  /\ fst (readMessage (mkSt (NewReaderSize blobMessageBytes (2 * defaultBufSize)) 0))
     = Ok blobMessage.
Proof. repeat split; vm_compute; reflexivity. Qed.

(** C1, as stated, fails: the encoding of a message with an empty blob is
    refused by the decoder, and a string with a null byte inside comes
    back cut at that byte. *)
Lemma roundtrip_fails_on_empty_blob :
  MarshalBinary emptyBlobMessage
  = Ok (lit "/a" ++ [NUL; NUL] ++ lit ",b" ++ [NUL; NUL] ++ [NUL; NUL; NUL; NUL])
  /\ fst (readMessage
            (mkSt (NewReader (lit "/a" ++ [NUL; NUL] ++ lit ",b" ++ [NUL; NUL]
                              ++ [NUL; NUL; NUL; NUL])) 0))
     = Err (ErrInvalidBlobLength 0)
  /\ MarshalBinary nullStringMessage
     = Ok (lit "/a" ++ [NUL; NUL] ++ lit ",s" ++ [NUL; NUL] ++ lit "a" ++ [NUL; NUL; NUL])
  /\ fst (readMessage
            (mkSt (NewReader (lit "/a" ++ [NUL; NUL] ++ lit ",s" ++ [NUL; NUL]
                              ++ lit "a" ++ [NUL; NUL; NUL])) 0))
     = Ok (NewMessage (lit "/a") [AStr (lit "a")])
  /\ NewMessage (lit "/a") [AStr (lit "a")] <> nullStringMessage.
Proof.
  repeat split; try (vm_compute; reflexivity).
  vm_compute. discriminate.
Qed.

(** C9, as stated, fails: on [tagsWithoutPayload] the tag string is ",i",
    which begins with a comma, and decoding fails all the same; on
    [unknownTagAfterTimetag] the tag string ",tx" has the unknown tag [x]
    and decoding succeeds. *)
Lemma readMessage_other_failures :
  fst (readPaddedString (mkReader (lit ",i" ++ [NUL; NUL]) [] defaultBufSize))
  = Ok (lit ",i", 4)
  /\ fst (readMessage (mkSt (NewReader tagsWithoutPayload) 0)) = Err EOF
  /\ fst (readPaddedString (mkReader (lit ",tx" ++ [NUL]) [] defaultBufSize))
     = Ok (lit ",tx", 4)
  /\ knownTag "x"%char = false
  /\ fst (readMessage (mkSt (NewReader unknownTagAfterTimetag) 0))
     = Ok (NewMessage (lit "/a") []).
Proof. repeat split; vm_compute; reflexivity. Qed.

(** ** The reader *)

Lemma stream_fill (b : Reader) : stream (fill b) = stream b.
Proof.
  unfold stream, fill. simpl.
  now rewrite <- app_assoc, firstn_skipn.
Qed.

(** A read of [n > 0] bytes fails at the end of the stream only; otherwise
    it delivers between one and [n] bytes from the front of the stream. *)
Lemma Read_spec (n : nat) (b : Reader) :
  (0 < n)%nat ->
  match stream b with
  | [] => Read n b = (Err EOF, b)
  | _ :: _ =>
      exists p b',
        Read n b = (Ok p, b') /\ p <> [] /\ (length p <= n)%nat
        /\ stream b = p ++ stream b' /\ size b' = size b
        /\ (rd b = [] -> rd b' = [])
  end.
Proof.
  intros Hn. destruct b as [bf r sz]. destruct n as [| n]; [lia |].
  unfold stream, Read. cbn [buf rd size].
  destruct bf as [| x bf].
  - cbn [app]. destruct r as [| y r]; [reflexivity |].
    destruct (sz <=? S n)%nat eqn:E.
    + eexists _, _. split; [reflexivity |].
      cbn [buf rd size app]. repeat split.
      * discriminate.
      * apply firstn_le_length.
      * now rewrite firstn_skipn.
      * discriminate.
    + apply Nat.leb_gt in E.
      destruct sz as [| sz]; [lia |].
      eexists _, _. split; [reflexivity |].
      cbn [buf rd size]. repeat split.
      * discriminate.
      * apply firstn_le_length.
      * rewrite app_assoc, firstn_skipn, firstn_skipn. reflexivity.
      * discriminate.
  - eexists _, _. split; [reflexivity |].
    cbn [buf rd size]. repeat split.
    + discriminate.
    + apply firstn_le_length.
    + rewrite app_assoc, firstn_skipn. reflexivity.
    + auto.
Qed.

Lemma ReadAtLeast_spec (fuel min : nat) (got : bytes) (b : Reader) :
  (min - length got <= fuel)%nat ->
  if (min - length got <=? length (stream b))%nat then
    exists b',
      ReadAtLeast fuel min got b
      = (Ok (got ++ firstn (min - length got) (stream b)), b')
      /\ stream b' = skipn (min - length got) (stream b)
      /\ size b' = size b
      /\ (rd b = [] -> rd b' = [])
  else
    exists e b',
      ReadAtLeast fuel min got b = (Err e, b')
      /\ (e = EOF \/ e = ErrUnexpectedEOF)
      /\ stream b' = [] /\ size b' = size b.
Proof.
  revert got b. induction fuel as [| fuel IH]; intros got b Hf.
  - replace (min - length got)%nat with 0%nat by lia. simpl.
    assert (E : (min <=? length got)%nat = true) by (apply Nat.leb_le; lia).
    rewrite E. exists b. rewrite app_nil_r. auto.
  - cbn [ReadAtLeast].
    destruct (min <=? length got)%nat eqn:E.
    + apply Nat.leb_le in E.
      replace (min - length got)%nat with 0%nat by lia. simpl.
      exists b. rewrite app_nil_r. auto.
    + apply Nat.leb_gt in E.
      pose proof (Read_spec (min - length got) b ltac:(lia)) as HR.
      destruct (stream b) as [| x s] eqn:Es.
      * rewrite HR.
        assert (E' : (min - length got <=? length (@nil byte))%nat = false)
          by (apply Nat.leb_gt; simpl; lia).
        rewrite E'. eexists _, b. split; [reflexivity |].
        split; [destruct got; auto | auto].
      * destruct HR as [p [b' [HR [Hp [Hlen [Hs [Hsz Hrd]]]]]]].
        rewrite HR.
        assert (Hp' : (0 < length p)%nat)
          by (destruct p; [congruence | simpl; lia]).
        specialize (IH (got ++ p) b').
        rewrite length_app in IH.
        specialize (IH ltac:(lia)).
        replace (min - (length got + length p))%nat
          with (min - length got - length p)%nat in IH by lia.
        assert (Hl : length (x :: s) = (length p + length (stream b'))%nat)
          by (rewrite Hs, length_app; reflexivity).
        destruct (min - length got <=? length (x :: s))%nat eqn:E1.
        -- apply Nat.leb_le in E1.
           assert (E2 : (min - length got - length p <=? length (stream b'))%nat
                        = true) by (apply Nat.leb_le; lia).
           rewrite E2 in IH. destruct IH as [b'' [H1 [H2 [H3 H4]]]].
           exists b''. rewrite H1, H2, H3, Hs.
           rewrite firstn_app, skipn_app.
           rewrite (firstn_all2 p) by lia.
           rewrite (skipn_all2 p) by lia.
           rewrite <- app_assoc. cbn [app].
           repeat split; auto.
        -- apply Nat.leb_gt in E1.
           assert (E2 : (min - length got - length p <=? length (stream b'))%nat
                        = false) by (apply Nat.leb_gt; lia).
           rewrite E2 in IH. destruct IH as [e [b'' [H1 [H2 [H3 H4]]]]].
           exists e, b''. rewrite H1, H4. auto.
Qed.

(** [io.ReadFull]: the next [n] bytes of the stream when there are as many,
    an end-of-input error with the stream used up otherwise. *)
Lemma ReadFull_spec (n : nat) (b : Reader) :
  if (n <=? length (stream b))%nat then
    exists b',
      ReadFull n b = (Ok (firstn n (stream b)), b')
      /\ stream b' = skipn n (stream b) /\ size b' = size b
      /\ (rd b = [] -> rd b' = [])
  else
    exists e b',
      ReadFull n b = (Err e, b')
      /\ (e = EOF \/ e = ErrUnexpectedEOF)
      /\ stream b' = [] /\ size b' = size b.
Proof.
  pose proof (ReadAtLeast_spec n n [] b) as H.
  cbn [length] in H. rewrite Nat.sub_0_r in H.
  apply H. lia.
Qed.

Lemma splitAfter_app (d : byte) (a c : bytes) :
  splitAfter d (a ++ c)
  = match splitAfter d a with
    | Some (line, rest) => Some (line, rest ++ c)
    | None =>
        match splitAfter d c with
        | Some (line, rest) => Some (a ++ line, rest)
        | None => None
        end
    end.
Proof.
  induction a as [| x a IH]; cbn [app splitAfter].
  - destruct (splitAfter d c) as [[l r] |]; reflexivity.
  - destruct (Ascii.eqb x d); [reflexivity |].
    rewrite IH.
    destruct (splitAfter d a) as [[l r] |]; [reflexivity |].
    destruct (splitAfter d c) as [[l r] |]; reflexivity.
Qed.

Lemma splitAfter_Some (d : byte) (s line rest : bytes) :
  splitAfter d s = Some (line, rest) ->
  s = line ++ rest /\ exists pre, line = pre ++ [d] /\ ~ In d pre.
Proof.
  revert line rest. induction s as [| x s IH]; intros line rest; cbn [splitAfter].
  - discriminate.
  - destruct (Ascii.eqb x d) eqn:E.
    + apply Ascii.eqb_eq in E. subst x. intros [= <- <-].
      split; [reflexivity |]. exists []. split; [reflexivity | intros []].
    + destruct (splitAfter d s) as [[l r] |]; [| discriminate].
      intros [= <- <-]. destruct (IH l r eq_refl) as [-> [pre [-> Hpre]]].
      split; [reflexivity |]. exists (x :: pre). split; [reflexivity |].
      intros [Hx | Hin]; [| tauto].
      subst x. rewrite Ascii.eqb_refl in E. discriminate.
Qed.

Lemma splitAfter_intro (d : byte) (pre rest : bytes) :
  forallb (fun c => negb (Ascii.eqb c d)) pre = true ->
  splitAfter d (pre ++ d :: rest) = Some (pre ++ [d], rest).
Proof.
  induction pre as [| x pre IH]; cbn [app forallb splitAfter]; intros H.
  - now rewrite Ascii.eqb_refl.
  - apply andb_prop in H. destruct H as [Hx Hpre].
    apply negb_true_iff in Hx. rewrite Hx, (IH Hpre). reflexivity.
Qed.

(** [collectFragments] finds the first delimiter of the stream, wherever
    the buffer ends, or meets the end of the input. *)
Lemma collectFragments_spec (fuel : nat) (d : byte) (full : bytes) (b : Reader) :
  (0 < size b)%nat -> (rounds b < fuel)%nat ->
  match splitAfter d (stream b) with
  | Some (line, rest) =>
      exists b',
        collectFragments fuel d full b = (Ok (full ++ line), b')
        /\ stream b' = rest /\ size b' = size b
        /\ (rd b = [] -> rd b' = [])
  | None =>
      exists b',
        collectFragments fuel d full b = (Err EOF, b')
        /\ stream b' = [] /\ size b' = size b
  end.
Proof.
  revert full b. induction fuel as [| fuel IH]; intros full b Hsz Hf; [lia |].
  cbn [collectFragments]. unfold stream at 1. rewrite splitAfter_app.
  destruct (splitAfter d (buf b)) as [[line rest] |] eqn:E.
  - eexists. split; [reflexivity |]. cbn. auto.
  - destruct (size b <=? length (buf b))%nat eqn:Efull.
    + apply Nat.leb_le in Efull.
      assert (Hr : (rounds (mkReader [] (rd b) (size b)) < fuel)%nat).
      { unfold rounds in *. cbn [buf rd] in *.
        destruct (buf b); cbn [length] in *; lia. }
      specialize (IH (full ++ buf b) (mkReader [] (rd b) (size b)) Hsz Hr).
      unfold stream in IH. cbn [buf rd size app] in IH.
      destruct (splitAfter d (rd b)) as [[l r] |].
      * destruct IH as [b' [H1 [H2 [H3 H4]]]]. exists b'.
        rewrite H1, app_assoc. auto.
      * exact IH.
    + apply Nat.leb_gt in Efull.
      destruct (rd b) as [| y r] eqn:Er.
      * cbn [splitAfter]. eexists. split; [reflexivity |]. cbn. auto.
      * assert (Hr : (rounds (fill b) < fuel)%nat).
        { unfold rounds, fill in *. cbn [buf rd] in *. rewrite Er in *.
          assert (Hk : (length (skipn (size b - length (buf b)) (y :: r))
                        <= length r)%nat).
          { rewrite length_skipn. cbn [length]. lia. }
          cbn [length] in Hf.
          destruct (buf b ++ firstn (size b - length (buf b)) (y :: r));
            destruct (buf b); lia. }
        specialize (IH full (fill b) Hsz Hr).
        rewrite stream_fill in IH. unfold stream in IH.
        rewrite splitAfter_app, E, Er in IH.
        destruct (splitAfter d (y :: r)) as [[l r'] |].
        -- destruct IH as [b' [H1 [H2 [H3 H4]]]]. exists b'.
           rewrite H1. repeat split; auto. discriminate.
        -- exact IH.
Qed.

Lemma ReadString_spec (d : byte) (b : Reader) :
  (0 < size b)%nat ->
  match splitAfter d (stream b) with
  | Some (line, rest) =>
      exists b',
        ReadString d b = (Ok line, b')
        /\ stream b' = rest /\ size b' = size b
        /\ (rd b = [] -> rd b' = [])
  | None =>
      exists b',
        ReadString d b = (Err EOF, b')
        /\ stream b' = [] /\ size b' = size b
  end.
Proof.
  intros Hsz. unfold ReadString.
  apply (collectFragments_spec _ d [] b Hsz).
  unfold rounds. destruct (buf b); lia.
Qed.

(** ** Every operation returns and reads forward *)

Lemma later_refl (b : Reader) : later b b.
Proof. split; [reflexivity | lia]. Qed.

Lemma later_trans (a b c : Reader) : later a b -> later b c -> later a c.
Proof. intros [H1 H2] [H3 H4]. split; [congruence | lia]. Qed.

Lemma later_size (b b' : Reader) :
  later b b' -> (0 < size b)%nat -> (0 < size b')%nat.
Proof. intros [H _] Hs. rewrite H. exact Hs. Qed.

Lemma Read_later (n : nat) (b : Reader) :
  later b (snd (Read n b)) /\ (fst (Read n b) = Err EOF \/ isErr (fst (Read n b)) = false).
Proof.
  destruct n as [| n].
  - simpl. split; [apply later_refl | auto].
  - pose proof (Read_spec (S n) b ltac:(lia)) as H.
    destruct (stream b) eqn:E.
    + rewrite H. simpl. split; [apply later_refl | auto].
    + destruct H as [p [b' [H [_ [_ [Hs [Hsz _]]]]]]]. rewrite H. simpl.
      split; [| auto]. split; [assumption |].
      unfold bytes in *. rewrite E, Hs, length_app. lia.
Qed.

Lemma ReadFull_later (n : nat) (b : Reader) :
  later b (snd (ReadFull n b))
  /\ match fst (ReadFull n b) with
     | Ok bs => bs = firstn n (stream b)
                /\ (length (stream (snd (ReadFull n b))) + n
                    = length (stream b))%nat
     | Err e => e = EOF \/ e = ErrUnexpectedEOF
     end.
Proof.
  pose proof (ReadFull_spec n b) as H.
  destruct (n <=? length (stream b))%nat eqn:E.
  - apply Nat.leb_le in E.
    destruct H as [b' [H [Hs [Hsz _]]]]. rewrite H. cbn [fst snd].
    unfold later. rewrite Hs, length_skipn.
    split; [split; [assumption | lia] | split; [reflexivity | lia]].
  - destruct H as [e [b' [H [He [Hs Hsz]]]]]. rewrite H. cbn [fst snd].
    split; [| assumption]. split; [assumption |]. rewrite Hs. simpl. lia.
Qed.

Lemma binaryRead_later (n : nat) (b : Reader) :
  later b (snd (binaryRead n b))
  /\ match fst (binaryRead n b) with
     | Ok u => u = be_uint (firstn n (stream b))
               /\ (length (stream (snd (binaryRead n b))) + n
                   = length (stream b))%nat
     | Err e => e = EOF \/ e = ErrUnexpectedEOF
     end.
Proof.
  pose proof (ReadFull_later n b) as [H1 H2]. unfold binaryRead.
  destruct (ReadFull n b) as [[bs | e] b']; cbn [fst snd] in *.
  - split; [assumption |]. destruct H2 as [-> H2]. auto.
  - auto.
Qed.

Lemma binaryRead_returns (n : nat) : returnsOp (binaryRead n).
Proof.
  intros b _. pose proof (binaryRead_later n b) as [H1 H2].
  split; [assumption |].
  destruct (fst (binaryRead n b)); [discriminate |].
  destruct H2 as [-> | ->]; discriminate.
Qed.

Lemma Peek_returns (n : nat) : returnsOp (Peek n).
Proof.
  intros b _. unfold Peek.
  set (b1 := if ((length (buf b) <? n) && (length (buf b) <? size b))%nat
             then fill b else b).
  assert (H : later b b1).
  { subst b1. destruct ((length (buf b) <? n) && (length (buf b) <? size b))%nat.
    - split; [reflexivity |]. rewrite stream_fill. lia.
    - apply later_refl. }
  destruct (size b <? n)%nat; [split; [assumption | discriminate] |].
  destruct (length (buf b1) <? n)%nat; split; auto; discriminate.
Qed.

(** [readPaddedString] returns; it fails with [EOF] only, and when it
    succeeds it has taken at least one byte. *)
Lemma readPaddedString_later (b : Reader) :
  (0 < size b)%nat ->
  later b (snd (readPaddedString b))
  /\ match fst (readPaddedString b) with
     | Ok _ => (length (stream (snd (readPaddedString b)))
                < length (stream b))%nat
     | Err e => e = EOF
     end.
Proof.
  intros Hsz. unfold readPaddedString.
  pose proof (ReadString_spec NUL b Hsz) as H.
  destruct (splitAfter NUL (stream b)) as [[line rest] |] eqn:E.
  - destruct H as [b' [H [Hs [Hsz' _]]]]. rewrite H.
    apply splitAfter_Some in E. destruct E as [E [pre [Hline _]]].
    assert (Hlt : (length (stream b') < length (stream b))%nat).
    { rewrite E, Hs, length_app, Hline, length_app. simpl. lia. }
    destruct (0 <? padBytesNeeded (len line)).
    + pose proof (Read_later (Z.to_nat (padBytesNeeded (len line))) b')
        as [[H1 H2] H3].
      destruct (Read (Z.to_nat (padBytesNeeded (len line))) b')
        as [[p | e] b'']; cbn [fst snd] in *.
      * split; [split; [congruence | lia] | lia].
      * split; [split; [congruence | lia] |].
        destruct H3 as [H3 | H3]; [congruence | discriminate].
    + cbn [fst snd]. split; [split; [assumption | lia] | assumption].
  - destruct H as [b' [H [Hs Hsz']]]. rewrite H. cbn [fst snd].
    split; [| reflexivity]. split; [assumption |]. rewrite Hs. simpl. lia.
Qed.

Lemma readPaddedString_returns : returnsOp readPaddedString.
Proof.
  intros b Hsz. pose proof (readPaddedString_later b Hsz) as [H1 H2].
  split; [assumption |].
  destruct (fst (readPaddedString b)); [discriminate | subst; discriminate].
Qed.

(** [readBlob] returns; its errors are the end-of-input errors and the
    invalid-length error. *)
Lemma readBlob_later (b : Reader) :
  later b (snd (readBlob b))
  /\ match fst (readBlob b) with
     | Ok _ => True
     | Err e => e = EOF \/ e = ErrUnexpectedEOF
                \/ exists blobLen, e = ErrInvalidBlobLength blobLen
     end.
Proof.
  unfold readBlob.
  pose proof (binaryRead_later 4 b) as [H1 H2].
  destruct (binaryRead 4 b) as [[u | e] b1]; cbn [fst snd] in *.
  - destruct ((to_int32 u <? 1) || (to_int32 (Buffered b1) <? to_int32 u)).
    + cbn [fst snd]. split; [assumption |]. right. right. eauto.
    + pose proof (Read_later (Z.to_nat (to_int32 u)) b1) as [H3 H4].
      destruct (Read (Z.to_nat (to_int32 u)) b1) as [[got | e] b2];
        cbn [fst snd] in *.
      * destruct (0 <? padBytesNeeded (to_int32 u)).
        -- pose proof (Read_later (Z.to_nat (padBytesNeeded (to_int32 u))) b2)
             as [H5 H6].
           destruct (Read (Z.to_nat (padBytesNeeded (to_int32 u))) b2)
             as [[p | e] b3]; cbn [fst snd] in *.
           ++ split; [| exact I].
              eapply later_trans; [| exact H5].
              eapply later_trans; eassumption.
           ++ split.
              ** eapply later_trans; [| exact H5].
                 eapply later_trans; eassumption.
              ** destruct H6 as [H6 | H6]; [injection H6; auto | discriminate].
        -- cbn [fst snd]. split; [| exact I].
           eapply later_trans; eassumption.
      * split; [eapply later_trans; eassumption |].
        destruct H4 as [H4 | H4]; [injection H4; auto | discriminate].
  - split; [assumption |]. tauto.
Qed.

Lemma readBlob_returns : returnsOp readBlob.
Proof.
  intros b _. pose proof (readBlob_later b) as [H1 H2].
  split; [assumption |].
  destruct (fst (readBlob b)); [discriminate |].
  destruct H2 as [-> | [-> | [n ->]]]; discriminate.
Qed.

Lemma returns_ret {A} (a : A) : returns (ret a).
Proof. intros st _. split; [apply later_refl | discriminate]. Qed.

Lemma returns_fail {A} (e : error) : e <> OutOfFuel -> returns (@fail A e).
Proof. intros He st _. split; [apply later_refl | cbn; congruence]. Qed.

Lemma returns_advance (n : Z) : returns (advance n).
Proof. intros st _. split; [apply later_refl | discriminate]. Qed.

Lemma returns_op {A} (f : RdOp A) : returnsOp f -> returns (op f).
Proof.
  intros Hf st Hsz. unfold op. specialize (Hf (reader st) Hsz).
  destruct (f (reader st)) as [r b]. exact Hf.
Qed.

Lemma returns_bind {A B} (m : M A) (k : A -> M B) :
  returns m -> (forall a, returns (k a)) -> returns (bind m k).
Proof.
  intros Hm Hk st Hsz. unfold bind. specialize (Hm st Hsz).
  destruct (m st) as [[a | e] st']; cbn [fst snd] in *.
  - destruct Hm as [Hl _].
    destruct (Hk a st' (later_size _ _ Hl Hsz)) as [Hl' Hr].
    split; [eapply later_trans; eassumption | assumption].
  - destruct Hm as [Hl Hr]. split; [assumption |].
    intros [= ->]. now apply Hr.
Qed.

Lemma Err_not_fuel {A B} (e : error) :
  @Err A e <> Err OutOfFuel -> @Err B e <> Err OutOfFuel.
Proof. intros H [= ->]. now apply H. Qed.

Ltac not_fuel :=
  first [ discriminate | assumption | eapply Err_not_fuel; eassumption
        | subst; discriminate ].

Ltac returns_step :=
  first
    [ apply returns_ret
    | apply returns_fail; discriminate
    | apply returns_advance
    | apply returns_op;
      first [ apply binaryRead_returns | apply readPaddedString_returns
            | apply readBlob_returns | apply Peek_returns ]
    | apply returns_bind; [| intros ?] ].

Lemma readArgument_returns (c : byte) (msg : Message) :
  returns (readArgument c msg).
Proof.
  unfold readArgument.
  repeat match goal with
         | |- returns (if ?x then _ else _) => destruct x
         end;
    try (repeat returns_step; fail).
  - (* s *)
    apply returns_bind; [returns_step | intros [s n]]. repeat returns_step.
  - (* b *)
    apply returns_bind; [returns_step | intros [s n]]. repeat returns_step.
  - (* t *)
    intros st Hsz.
    pose proof (returns_op _ (binaryRead_returns 8) st Hsz) as [Hl _].
    destruct (op (binaryRead 8) st) as [[u | e] st']; cbn [fst snd] in *.
    + split; [assumption | discriminate].
    + split; [assumption | discriminate].
Qed.

Lemma readArgumentsLoop_returns (typetags : bytes) (msg : Message) :
  returns (readArgumentsLoop typetags msg).
Proof.
  revert msg. induction typetags as [| c typetags IH]; intros msg;
    cbn [readArgumentsLoop].
  - apply returns_ret.
  - apply returns_bind; [apply readArgument_returns |].
    intros [msg' | msg']; [apply IH | apply returns_ret].
Qed.

Lemma readArguments_returns (msg : Message) : returns (readArguments msg).
Proof.
  unfold readArguments.
  apply returns_bind; [returns_step | intros [typetags n]].
  apply returns_bind; [returns_step | intros _].
  destruct typetags as [| c typetags]; [apply returns_ret |].
  destruct (negb (Ascii.eqb c ","));
    [apply returns_fail; discriminate | apply readArgumentsLoop_returns].
Qed.

Lemma readMessage_returns : returns readMessage.
Proof.
  unfold readMessage.
  apply returns_bind; [returns_step | intros [addr n]].
  apply returns_bind; [returns_step | intros _].
  apply readArguments_returns.
Qed.

Lemma bind_inv {A B} (m : M A) (k : A -> M B) (st st' : St) (r : result B) :
  bind m k st = (r, st') ->
  (exists a st1, m st = (Ok a, st1) /\ k a st1 = (r, st'))
  \/ (exists e, m st = (Err e, st') /\ r = Err e).
Proof.
  unfold bind. destruct (m st) as [[a | e] st1].
  - intros H. left. eauto.
  - intros [= <- <-]. right. eauto.
Qed.

Lemma op_inv {A} (f : RdOp A) (st st' : St) (r : result A) :
  op f st = (r, st') ->
  f (reader st) = (r, reader st') /\ start st' = start st.
Proof.
  unfold op. destruct (f (reader st)) as [r0 b]. intros [= <- <-]. auto.
Qed.

(** [readBundle] returns when its loop does. *)
Lemma readBundleWith_returns (loop : Bundle -> M Bundle) (st : St) :
  (0 < size (reader st))%nat ->
  (forall bundle st',
      later (reader st) (reader st') ->
      (length (stream (reader st')) < length (stream (reader st)))%nat ->
      later (reader st') (reader (snd (loop bundle st')))
      /\ fst (loop bundle st') <> Err OutOfFuel) ->
  later (reader st) (reader (snd (readBundleWith loop st)))
  /\ fst (readBundleWith loop st) <> Err OutOfFuel.
Proof.
  intros Hsz Hloop.
  destruct (readBundleWith loop st) as [r st'] eqn:E. cbn [fst snd].
  unfold readBundleWith in E.
  pose proof (readPaddedString_later (reader st) Hsz) as [Hl1 Hs1].
  apply bind_inv in E.
  destruct E as [([startTag n] & st1 & E1 & E) | (e & E1 & ->)];
    apply op_inv in E1; destruct E1 as [E1 _]; rewrite E1 in Hl1, Hs1;
    cbn [fst snd] in Hl1, Hs1;
    [| split; [assumption | subst e; discriminate]].
  apply bind_inv in E.
  destruct E as [([] & st2 & E2 & E) | (e & E2 & ->)]; [| discriminate].
  injection E2 as <-.
  destruct (negb (bytes_eqb startTag bundleTagString)).
  { injection E as <- <-. split; [assumption | discriminate]. }
  apply bind_inv in E.
  pose proof (binaryRead_later 8 (reader st1)) as [Hl2 Hs2].
  destruct E as [(timeTag & st3 & E3 & E) | (e & E3 & ->)];
    apply op_inv in E3; destruct E3 as [E3 _]; cbn [reader] in E3;
    rewrite E3 in Hl2, Hs2; cbn [fst snd] in Hl2, Hs2.
  2:{ split; [eapply later_trans; eassumption |].
      destruct Hs2; subst e; discriminate. }
  apply bind_inv in E.
  destruct E as [([] & st4 & E4 & E) | (e & E4 & ->)]; [| discriminate].
  injection E4 as <-.
  specialize (Hloop (NewBundle timeTag)
                    {| reader := reader st3; start := start st3 + 8 |}).
  cbn [reader] in Hloop. rewrite E in Hloop. cbn [fst snd] in Hloop.
  destruct Hloop as [H1 H2].
  - eapply later_trans; eassumption.
  - destruct Hl2 as [_ Hl2]. lia.
  - split; [| assumption].
    eapply later_trans; [eassumption |]. eapply later_trans; eassumption.
Qed.

(** Fuel beyond the number of bytes left is enough: [readPacket] and the
    loop of [readBundle] return. *)
Lemma readPacket_readBundleLoop_return (fuel : nat) :
  (forall end_ st,
      (0 < size (reader st))%nat ->
      (length (stream (reader st)) < fuel)%nat ->
      later (reader st) (reader (snd (readPacket fuel end_ st)))
      /\ fst (readPacket fuel end_ st) <> Err OutOfFuel)
  /\ (forall end_ bundle st,
         (0 < size (reader st))%nat ->
         (length (stream (reader st)) < fuel)%nat ->
         later (reader st) (reader (snd (readBundleLoop fuel end_ bundle st)))
         /\ fst (readBundleLoop fuel end_ bundle st) <> Err OutOfFuel).
Proof.
  induction fuel as [| fuel [IHp IHl]]; [split; intros; lia |].
  split.
  - intros end_ st Hsz Hf.
    destruct (readPacket (S fuel) end_ st) as [r st'] eqn:E. cbn [fst snd].
    cbn [readPacket] in E.
    pose proof (returns_op _ (Peek_returns 1) st Hsz) as [Hl0 Hr0].
    apply bind_inv in E.
    destruct E as [(bs & st0 & E0 & E) | (e & E0 & ->)];
      rewrite E0 in Hl0, Hr0; cbn [fst snd] in Hl0, Hr0;
      [| split; [assumption | not_fuel]].
    pose proof (later_size _ _ Hl0 Hsz) as Hsz0.
    destruct bs as [| c bs];
      [injection E as <- <-; split; [assumption | discriminate] |].
    destruct (Ascii.eqb c "/").
    { pose proof (returns_bind readMessage (fun msg => ret (PMessage msg))
                    readMessage_returns (fun a => returns_ret _) st0 Hsz0)
        as [H1 H2].
      rewrite E in H1, H2.
      split; [eapply later_trans; eassumption | assumption]. }
    destruct (Ascii.eqb c "#");
      [| injection E as <- <-; split; [assumption | discriminate]].
    destruct (readBundleWith_returns (readBundleLoop fuel end_) st0 Hsz0)
      as [H1 H2].
    { intros bundle st1 Hl1 Hlt. apply IHl.
      - eapply later_size; eassumption.
      - destruct Hl0 as [_ Hl0]. lia. }
    apply bind_inv in E.
    destruct E as [(bundle & st1 & E1 & E) | (e & E1 & ->)];
      rewrite E1 in H1, H2; cbn [fst snd] in H1, H2.
    + injection E as <- <-.
      split; [eapply later_trans; eassumption | discriminate].
    + split; [eapply later_trans; eassumption | not_fuel].
  - intros end_ bundle st Hsz Hf.
    destruct (readBundleLoop (S fuel) end_ bundle st) as [r st'] eqn:E.
    cbn [fst snd]. cbn [readBundleLoop] in E.
    destruct (start st <? end_);
      [| injection E as <- <-; split; [apply later_refl | discriminate]].
    pose proof (binaryRead_later 4 (reader st)) as [Hl1 Hs1].
    apply bind_inv in E.
    destruct E as [(u & st1 & E1 & E) | (e & E1 & ->)];
      apply op_inv in E1; destruct E1 as [E1 _];
      rewrite E1 in Hl1, Hs1; cbn [fst snd] in Hl1, Hs1.
    2:{ split; [assumption | destruct Hs1; subst e; discriminate]. }
    destruct Hs1 as [_ Hs1].
    apply bind_inv in E.
    destruct E as [([] & st2 & E2 & E) | (e & E2 & ->)]; [| discriminate].
    injection E2 as <-.
    apply bind_inv in E.
    match type of E with
    | context [readPacket fuel end_ ?s] =>
        destruct (IHp end_ s) as [H3 H4]
    end.
    { cbn [reader]. eapply later_size; eassumption. }
    { cbn [reader]. lia. }
    cbn [reader] in H3.
    destruct E as [(p & st3 & E3 & E) | (e & E3 & ->)];
      rewrite E3 in H3, H4; cbn [fst snd] in H3, H4;
      [| split; [eapply later_trans; eassumption | not_fuel]].
    destruct (IHl end_ (Bundle_Append bundle p) st3) as [H5 H6].
    { eapply later_size; [exact H3 |]. eapply later_size; eassumption. }
    { destruct H3 as [_ H3]. lia. }
    rewrite E in H5, H6. cbn [fst snd] in H5, H6.
    split; [| assumption].
    eapply later_trans; [eassumption |]. eapply later_trans; eassumption.
Qed.

(** ** Bundles *)

(** C5 fails on the code by a slip: [readBundle] reads the four bytes of
    an element's size ("Read the size of the bundle element") into
    [length] and never uses it, and it hands the decoding of an element
    the [end] of the bundle it is in.  [nestedBundleBytes] is a
    well-formed bundle of 60 bytes with two elements: a bundle of 28
    bytes, so declared, that holds the message "/a", and the message "/b"
    of 8 bytes, so declared.  Decoded on its own the first element is a
    bundle with the one message.  Decoded in place it goes on to the end
    of the outer bundle and takes "/b" as well: the result, returned
    without an error, is an outer bundle with one element, not the two
    that the length fields bound.  Nor is a length field checked against
    what was read: a bundle whose element of 8 bytes declares 0 bytes
    decodes all the same. *)
Theorem readBundle_length_unused :
  len nestedBundleBytes = 60
  /\ be_uint (firstn 4 (skipn 16 nestedBundleBytes)) = 28
  /\ be_uint (firstn 4 (skipn 48 nestedBundleBytes)) = 8
  /\ readPacket 29 28
       (mkSt (NewReader (firstn 28 (skipn 20 nestedBundleBytes))) 0)
     = (Ok (PBundle (mkBundle 2 [PMessage (NewMessage (lit "/a") [])])),
        mkSt (mkReader [] [] defaultBufSize) 28)
  /\ readPacket 13 8 (mkSt (NewReader (skipn 52 nestedBundleBytes)) 0)
     = (Ok (PMessage (NewMessage (lit "/b") [])),
        mkSt (mkReader [] [] defaultBufSize) 8)
  /\ readPacket 61 60 (mkSt (NewReader nestedBundleBytes) 0)
     = (Ok (PBundle (mkBundle 1
              [PBundle (mkBundle 2 [PMessage (NewMessage (lit "/a") []);
                                    PMessage (NewMessage (lit "/b") [])])])),
        mkSt (mkReader [] [] defaultBufSize) 60)
  /\ mkBundle 1
       [PBundle (mkBundle 2 [PMessage (NewMessage (lit "/a") []);
                             PMessage (NewMessage (lit "/b") [])])]
     <> mkBundle 1
          [PBundle (mkBundle 2 [PMessage (NewMessage (lit "/a") [])]);
           PMessage (NewMessage (lit "/b") [])]
  /\ be_uint (firstn 4 (skipn 16 (bundleBytes 0))) = 0
  /\ readPacket 29 28 (mkSt (NewReader (bundleBytes 0)) 0)
     = (Ok (PBundle (mkBundle 1 [PMessage (NewMessage (lit "/a") [])])),
        mkSt (mkReader [] [] defaultBufSize) 28).
Proof.
  repeat split; try (vm_compute; reflexivity). discriminate.
Qed.

(** ** The type-tag string of a decoded message *)

Lemma collectFragments_error (fuel : nat) (d : byte) (full : bytes)
      (b : Reader) (e : error) :
  fst (collectFragments fuel d full b) = Err e -> e = EOF \/ e = OutOfFuel.
Proof.
  revert full b. induction fuel as [| fuel IH]; intros full b;
    cbn [collectFragments]; destruct (splitAfter d (buf b)) as [[l r] |];
    cbn [fst]; try discriminate.
  - intros [= <-]. auto.
  - destruct (size b <=? length (buf b))%nat; [apply IH |].
    destruct (rd b); [intros [= <-]; auto | apply IH].
Qed.

Lemma readPaddedString_error (b : Reader) (e : error) :
  fst (readPaddedString b) = Err e -> e = EOF \/ e = OutOfFuel.
Proof.
  unfold readPaddedString, ReadString.
  pose proof (collectFragments_error (2 * length (rd b) + 2) NUL [] b) as H.
  destruct (collectFragments (2 * length (rd b) + 2) NUL [] b)
    as [[str | e0] b1]; cbn [fst] in *.
  - destruct (0 <? padBytesNeeded (len str)); [| discriminate].
    pose proof (Read_later (Z.to_nat (padBytesNeeded (len str))) b1) as [_ HR].
    destruct (Read (Z.to_nat (padBytesNeeded (len str))) b1) as [[p | e1] b2];
      cbn [fst] in *; [discriminate |].
    intros [= <-]. destruct HR as [[= ->] | HR]; [auto | discriminate].
  - intros [= <-]. auto.
Qed.

(** The package's own errors that the loop over the tags can return. *)
Lemma readArgument_error (c : byte) (msg : Message) (st st' : St) (e : error) :
  readArgument c msg st = (Err e, st') ->
  readerError e = true
  \/ e = ErrUnsupportedTypeTag c
  \/ exists blobLen, e = ErrInvalidBlobLength blobLen.
Proof.
  unfold readArgument.
  repeat match goal with
         | |- (if ?x then _ else _) _ = _ -> _ => destruct x
         end;
    intros E;
    try (injection E as <- <-; auto; fail);
    try discriminate.
  all: try (apply bind_inv in E;
            destruct E as [(u & st1 & E1 & E) | (e1 & E1 & [= <-])];
            [ apply bind_inv in E;
              destruct E as [([] & st2 & _ & E) | (e2 & E2 & _)];
              discriminate
            | apply op_inv in E1; destruct E1 as [E1 _];
              match type of E1 with
              | binaryRead ?n ?b = _ =>
                  pose proof (binaryRead_later n b) as [_ HR];
                  rewrite E1 in HR; cbn [fst] in HR;
                  destruct HR as [-> | ->]; auto
              end ]; fail).
  - (* s *)
    apply bind_inv in E.
    destruct E as [([s n] & st1 & E1 & E) | (e1 & E1 & [= <-])].
    + apply bind_inv in E.
      destruct E as [([] & st2 & _ & E) | (e2 & E2 & _)]; discriminate.
    + apply op_inv in E1. destruct E1 as [E1 _].
      pose proof (readPaddedString_error (reader st) e) as HR.
      rewrite E1 in HR. destruct (HR eq_refl) as [-> | ->]; auto.
  - (* b *)
    apply bind_inv in E.
    destruct E as [([s n] & st1 & E1 & E) | (e1 & E1 & [= <-])].
    + apply bind_inv in E.
      destruct E as [([] & st2 & _ & E) | (e2 & E2 & _)]; discriminate.
    + apply op_inv in E1. destruct E1 as [E1 _].
      pose proof (readBlob_later (reader st)) as [_ HR].
      rewrite E1 in HR. cbn [fst] in HR.
      destruct HR as [-> | [-> | [blobLen ->]]]; eauto.
  - (* t *)
    destruct (op (binaryRead 8) st) as [[u | e1] st1]; discriminate.
Qed.

Lemma readArgumentsLoop_error (typetags : bytes) (msg : Message)
      (st st' : St) (e : error) :
  readArgumentsLoop typetags msg st = (Err e, st') ->
  forall t, e <> ErrUnsupportedTypeTagString t.
Proof.
  revert msg st. induction typetags as [| c typetags IH]; intros msg st;
    cbn [readArgumentsLoop]; [discriminate |].
  intros E. apply bind_inv in E.
  destruct E as [(f & st1 & E1 & E) | (e1 & E1 & [= <-])].
  - destruct f; [eapply IH; eassumption | discriminate].
  - apply readArgument_error in E1. intros t ->.
    destruct E1 as [E1 | [E1 | [n E1]]]; discriminate.
Qed.

(** [readMessage] once the address and the tag string are read. *)
Lemma readMessage_tags (st : St) (addr typetags : bytes) (n n' : Z)
      (b1 b2 : Reader) :
  readPaddedString (reader st) = (Ok (addr, n), b1) ->
  readPaddedString b1 = (Ok (typetags, n'), b2) ->
  readMessage st
  = match typetags with
    | [] => ret (NewMessage addr [])
    | c :: typetags' =>
        if negb (Ascii.eqb c ",")
        then fail (ErrUnsupportedTypeTagString typetags)
        else readArgumentsLoop typetags' (NewMessage addr [])
    end (mkSt b2 (start st + n + n')).
Proof.
  intros H1 H2. unfold readMessage, readArguments.
  unfold bind, op, advance. cbn [reader start]. rewrite H1.
  cbn [reader start]. rewrite H2. reflexivity.
Qed.

(** C9, as the code has it.  [readMessage] fails with the
    tag-string error exactly when the address and the tag string are read
    and the tag string is not empty and does not begin with a comma; with
    an empty tag string it returns the message without arguments; and a
    tag outside the alphabet makes it fail with the unknown-tag error when
    the rounds for the tags before it have all gone on to the next tag. *)
Theorem readMessage_type_tags :
  (forall st typetags,
      fst (readMessage st) = Err (ErrUnsupportedTypeTagString typetags)
      <-> exists addr n b1 n' b2 c typetags',
          readPaddedString (reader st) = (Ok (addr, n), b1)
          /\ readPaddedString b1 = (Ok (typetags, n'), b2)
          /\ typetags = c :: typetags' /\ c <> ","%char)
  /\ (forall st addr n b1 n' b2,
         readPaddedString (reader st) = (Ok (addr, n), b1) ->
         readPaddedString b1 = (Ok ([], n'), b2) ->
         readMessage st
         = (Ok (NewMessage addr []), mkSt b2 (start st + n + n')))
  /\ (forall st addr n b1 n' b2 pre c post msg' st',
         readPaddedString (reader st) = (Ok (addr, n), b1) ->
         readPaddedString b1 = (Ok (","%char :: pre ++ c :: post, n'), b2) ->
         knownTag c = false ->
         readArgumentsRounds pre (NewMessage addr [])
                             (mkSt b2 (start st + n + n'))
         = Some (msg', st') ->
         readMessage st = (Err (ErrUnsupportedTypeTag c), st')).
Proof.
  split; [| split].
  - intros st typetags. split.
    + intros H.
      destruct (readPaddedString (reader st)) as [[[addr n] | e] b1] eqn:E1.
      2:{ unfold readMessage, bind, op in H. rewrite E1 in H.
          cbn [fst] in H. injection H as ->.
          pose proof (readPaddedString_error (reader st)) as HE.
          rewrite E1 in HE. destruct (HE _ eq_refl); discriminate. }
      destruct (readPaddedString b1) as [[[tags n'] | e] b2] eqn:E2.
      2:{ unfold readMessage, readArguments, bind, op, advance in H.
          cbn [reader start] in H. rewrite E1 in H. cbn [reader start] in H.
          rewrite E2 in H. cbn [fst] in H. injection H as ->.
          pose proof (readPaddedString_error b1) as HE.
          rewrite E2 in HE. destruct (HE _ eq_refl); discriminate. }
      rewrite (readMessage_tags _ _ _ _ _ _ _ E1 E2) in H.
      destruct tags as [| c tags']; [discriminate |].
      destruct (Ascii.eqb c ",") eqn:Ec; cbn [negb] in H.
      * destruct (readArgumentsLoop tags' (NewMessage addr [])
                    {| reader := b2; start := start st + n + n' |})
          as [[m | e] st'] eqn:EL; [discriminate |].
        cbn [fst] in H. injection H as ->.
        exfalso. eapply readArgumentsLoop_error; [exact EL | reflexivity].
      * cbn [fail fst] in H. injection H as <-.
        exists addr, n, b1, n', b2, c, tags'.
        repeat split; auto.
        intros ->. discriminate.
    + intros (addr & n & b1 & n' & b2 & c & tags' & E1 & E2 & -> & Hc).
      rewrite (readMessage_tags _ _ _ _ _ _ _ E1 E2).
      destruct (Ascii.eqb c ",") eqn:Ec.
      * apply Ascii.eqb_eq in Ec. contradiction.
      * reflexivity.
  - intros st addr n b1 n' b2 E1 E2.
    now rewrite (readMessage_tags _ _ _ _ _ _ _ E1 E2).
  - intros st addr n b1 n' b2 pre c post msg' st' E1 E2 Hc HR.
    rewrite (readMessage_tags _ _ _ _ _ _ _ E1 E2).
    rewrite Ascii.eqb_refl. cbn [negb]. clear E1 E2.
    revert HR. generalize (NewMessage addr []).
    generalize {| reader := b2; start := start st + n + n' |}.
    induction pre as [| x pre IH]; intros s m HR.
    + injection HR as -> ->. cbn [app readArgumentsLoop].
      unfold bind, readArgument.
      unfold knownTag in Hc. cbn [lit list_ascii_of_string existsb] in Hc.
      repeat match type of Hc with
             | (?x || _)%bool = false =>
                 apply orb_false_elim in Hc;
                 let H := fresh in destruct Hc as [H Hc]; rewrite H
             end.
      reflexivity.
    + cbn [app readArgumentsLoop readArgumentsRounds] in *.
      unfold bind at 1.
      destruct (readArgument x m s) as [[[m1 | m1] | e] s1];
        try discriminate.
      apply IH. exact HR.
Qed.

Lemma readMessage_type_tags_witness :
  fst (readMessage
         (mkSt (NewReader (lit "/a" ++ [NUL; NUL] ++ lit "x" ++ [NUL; NUL; NUL])) 0))
  = Err (ErrUnsupportedTypeTagString (lit "x"))
  /\ readMessage
       (mkSt (NewReader (lit "/a" ++ [NUL; NUL] ++ [NUL; NUL; NUL; NUL])) 0)
     = (Ok (NewMessage (lit "/a") []), mkSt (mkReader [] [] defaultBufSize) 8)
  /\ readMessage
       (mkSt (NewReader (lit "/a" ++ [NUL; NUL] ++ lit ",ix" ++ [NUL]
                         ++ be_bytes 4 7)) 0)
     = (Err (ErrUnsupportedTypeTag "x"%char),
        mkSt (mkReader [] [] defaultBufSize) 12).
Proof.
  destruct readMessage_type_tags as [Ha [Hb Hc]].
  split; [| split].
  - apply (proj2 (Ha _ _)).
    exists (lit "/a"), 4,
      (mkReader (lit "x" ++ [NUL; NUL; NUL]) [] defaultBufSize), 4,
      (mkReader [] [] defaultBufSize), "x"%char, [].
    split; [vm_compute; reflexivity |].
    split; [vm_compute; reflexivity |].
    split; [reflexivity | discriminate].
  - apply (Hb (mkSt (NewReader (lit "/a" ++ [NUL; NUL] ++ [NUL; NUL; NUL; NUL])) 0)
              (lit "/a") 4
              (mkReader [NUL; NUL; NUL; NUL] [] defaultBufSize) 4
              (mkReader [] [] defaultBufSize));
      vm_compute; reflexivity.
  - apply (Hc (mkSt (NewReader (lit "/a" ++ [NUL; NUL] ++ lit ",ix" ++ [NUL]
                                ++ be_bytes 4 7)) 0)
              (lit "/a") 4
              (mkReader (lit ",ix" ++ [NUL] ++ be_bytes 4 7) [] defaultBufSize) 4
              (mkReader (be_bytes 4 7) [] defaultBufSize)
              (lit "i") "x"%char []
              (NewMessage (lit "/a") [AInt32 7])
              (mkSt (mkReader [] [] defaultBufSize) 12));
      vm_compute; reflexivity.
Defined.

(** ** Big-endian numbers *)

Lemma Z_of_byte_range (b : byte) : 0 <= Z_of_byte b < 256.
Proof.
  unfold Z_of_byte. pose proof (N_ascii_bounded b) as H. lia.
Qed.

Lemma Z_of_byte_of_Z (z : Z) : Z_of_byte (byte_of_Z z) = z mod 256.
Proof.
  unfold Z_of_byte, byte_of_Z.
  pose proof (Z.mod_pos_bound z 256 ltac:(lia)) as H.
  rewrite N_ascii_embedding by lia.
  apply Z2N.id. lia.
Qed.

Lemma lor_shiftl_byte (acc b : Z) :
  0 <= acc -> 0 <= b < 256 -> Z.lor (Z.shiftl acc 8) b = acc * 256 + b.
Proof.
  intros Ha Hb.
  rewrite Z.shiftl_mul_pow2 by lia. change (2 ^ 8) with 256.
  rewrite <- Z.lxor_lor.
  - symmetry. apply Z.add_nocarry_lxor.
    apply Z.bits_inj'. intros n Hn.
    rewrite Z.land_spec, Z.bits_0.
    destruct (Z.ltb_spec n 8).
    + replace (acc * 256) with (acc * 2 ^ 8) by reflexivity.
      rewrite Z.mul_pow2_bits_low by lia. reflexivity.
    + rewrite (Z.bits_above_log2 b n); [apply andb_false_r | lia |].
      destruct (Z.eq_dec b 0) as [-> | Hb0]; [simpl; lia |].
      assert (Z.log2 b < 8); [| lia].
      apply Z.log2_lt_pow2; [lia |]. change (2 ^ 8) with 256. lia.
  - apply Z.bits_inj'. intros n Hn.
    rewrite Z.land_spec, Z.bits_0.
    destruct (Z.ltb_spec n 8).
    + replace (acc * 256) with (acc * 2 ^ 8) by reflexivity.
      rewrite Z.mul_pow2_bits_low by lia. reflexivity.
    + rewrite (Z.bits_above_log2 b n); [apply andb_false_r | lia |].
      destruct (Z.eq_dec b 0) as [-> | Hb0]; [simpl; lia |].
      assert (Z.log2 b < 8); [| lia].
      apply Z.log2_lt_pow2; [lia |]. change (2 ^ 8) with 256. lia.
Qed.

Lemma be_uint_fold (k : nat) (v acc : Z) :
  0 <= acc ->
  fold_left (fun acc b => Z.lor (Z.shiftl acc 8) (Z_of_byte b)) (be_bytes k v) acc
  = acc * 2 ^ (8 * Z.of_nat k) + v mod 2 ^ (8 * Z.of_nat k).
Proof.
  revert acc. induction k as [| k IH]; intros acc Ha.
  - simpl. rewrite Z.mod_1_r. lia.
  - cbn [be_bytes fold_left].
    rewrite Z_of_byte_of_Z.
    pose proof (Z.mod_pos_bound (Z.shiftr v (8 * Z.of_nat k)) 256 ltac:(lia)) as Hb.
    rewrite lor_shiftl_byte by lia.
    rewrite IH by lia.
    rewrite Z.shiftr_div_pow2 by lia.
    replace (8 * Z.of_nat (S k)) with (8 * Z.of_nat k + 8) by lia.
    rewrite Z.pow_add_r by lia. change (2 ^ 8) with 256.
    set (p := 2 ^ (8 * Z.of_nat k)).
    assert (Hp : 0 < p) by (apply Z.pow_pos_nonneg; lia).
    rewrite (Z.rem_mul_r v p 256) by lia.
    lia.
Qed.

Lemma be_uint_be_bytes (k : nat) (v : Z) :
  be_uint (be_bytes k v) = v mod 2 ^ (8 * Z.of_nat k).
Proof. unfold be_uint. rewrite be_uint_fold by lia. lia. Qed.

Lemma length_be_bytes (k : nat) (v : Z) : length (be_bytes k v) = k.
Proof. induction k as [| k IH]; simpl; [reflexivity | now rewrite IH]. Qed.

Lemma to_int32_wrap (t : Z) :
  - 2 ^ 31 <= t < 2 ^ 31 -> to_int32 (t mod 2 ^ 32) = t.
Proof.
  intros H. unfold to_int32.
  rewrite Zplus_mod_idemp_l.
  rewrite Z.mod_small; lia.
Qed.

Lemma to_int64_wrap (t : Z) :
  - 2 ^ 63 <= t < 2 ^ 63 -> to_int64 (t mod 2 ^ 64) = t.
Proof.
  intros H. unfold to_int64.
  rewrite Zplus_mod_idemp_l.
  rewrite Z.mod_small; lia.
Qed.

Lemma to_int32_small (t : Z) : - 2 ^ 31 <= t < 2 ^ 31 -> to_int32 t = t.
Proof. intros H. unfold to_int32. rewrite Z.mod_small; lia. Qed.

(** ** Reading what is in the buffer *)

Lemma firstn_length_app {A} (l rest : list A) :
  firstn (length l) (l ++ rest) = l.
Proof.
  rewrite firstn_app, Nat.sub_diag, firstn_all. simpl. apply app_nil_r.
Qed.

Lemma skipn_length_app {A} (l rest : list A) :
  skipn (length l) (l ++ rest) = rest.
Proof.
  rewrite skipn_app, Nat.sub_diag, skipn_all. reflexivity.
Qed.

Lemma Read_buffered (n : nat) (bf rest r : bytes) (sz : nat) :
  length bf = n -> (0 < n)%nat ->
  Read n (mkReader (bf ++ rest) r sz) = (Ok bf, mkReader rest r sz).
Proof.
  intros <- Hn. unfold Read. cbn [buf rd size].
  destruct bf as [| x bf]; [simpl in Hn; lia |].
  change ((x :: bf) ++ rest) with (x :: (bf ++ rest)) at 1.
  cbv iota beta.
  change (x :: (bf ++ rest)) with ((x :: bf) ++ rest).
  rewrite firstn_length_app, skipn_length_app. reflexivity.
Qed.

Lemma ReadFull_buffered (n : nat) (bf rest r : bytes) (sz : nat) :
  length bf = n -> (0 < n)%nat ->
  ReadFull n (mkReader (bf ++ rest) r sz) = (Ok bf, mkReader rest r sz).
Proof.
  intros Hl Hn. unfold ReadFull.
  destruct n as [| n]; [lia |]. cbn [ReadAtLeast length Nat.leb].
  change (S n - 0)%nat with (S n).
  rewrite (Read_buffered (S n) bf rest r sz Hl Hn).
  cbn [app]. destruct n; cbn [ReadAtLeast]; rewrite Hl, Nat.leb_refl;
    reflexivity.
Qed.

Lemma binaryRead_buffered (n : nat) (v : Z) (rest r : bytes) (sz : nat) :
  (0 < n)%nat ->
  binaryRead n (mkReader (be_bytes n v ++ rest) r sz)
  = (Ok (v mod 2 ^ (8 * Z.of_nat n)), mkReader rest r sz).
Proof.
  intros Hn. unfold binaryRead.
  rewrite (ReadFull_buffered n (be_bytes n v) rest r sz
             (length_be_bytes n v) Hn).
  now rewrite be_uint_be_bytes.
Qed.

Lemma collectFragments_found (fuel : nat) (d : byte) (full line rest : bytes)
      (b : Reader) :
  splitAfter d (buf b) = Some (line, rest) ->
  collectFragments fuel d full b
  = (Ok (full ++ line), mkReader rest (rd b) (size b)).
Proof. intros H. destruct fuel; cbn [collectFragments]; now rewrite H. Qed.

Lemma nullFree_Index (s : bytes) : nullFree s = true -> Index s NUL = -1.
Proof.
  induction s as [| x s IH]; cbn [nullFree forallb Index]; [reflexivity |].
  intros H. apply andb_prop in H. destruct H as [Hx Hs].
  apply negb_true_iff in Hx. rewrite Hx.
  fold (nullFree s) in Hs. rewrite (IH Hs). reflexivity.
Qed.

Lemma nullFree_truncate (s : bytes) : nullFree s = true -> truncateAtNull s = s.
Proof. intros H. apply Index_absent. now apply nullFree_Index. Qed.

Lemma paddedStringDoc_nullFree (s : bytes) :
  nullFree s = true ->
  paddedStringDoc s = s ++ NUL :: make (padBytesNeeded (len s + 1)).
Proof.
  intros H. unfold paddedStringDoc. now rewrite (nullFree_truncate s H).
Qed.

Lemma length_make (n : Z) : length (make n) = Z.to_nat n.
Proof. unfold make. apply repeat_length. Qed.

(** A padded string that lies in the buffer is read back, and counted with
    its terminator and padding. *)
Lemma readPaddedString_buffered (s rest r : bytes) (sz : nat) :
  nullFree s = true ->
  readPaddedString (mkReader (paddedStringDoc s ++ rest) r sz)
  = (Ok (s, len (paddedStringDoc s)), mkReader rest r sz).
Proof.
  intros Hs. rewrite (paddedStringDoc_nullFree s Hs).
  unfold readPaddedString, ReadString.
  rewrite (collectFragments_found _ NUL [] (s ++ [NUL])
             (make (padBytesNeeded (len s + 1)) ++ rest)).
  2:{ cbn [buf]. rewrite <- app_assoc. cbn [app].
      apply splitAfter_intro. exact Hs. }
  cbn [app rd size].
  pose proof (len_nonneg s) as Hlen.
  pose proof (padBytesNeeded_range (len s + 1) ltac:(lia)) as Hp.
  rewrite len_app. change (len [NUL]) with 1.
  replace (len s + 1 - 1) with (len s) by lia.
  assert (Hf : firstn (Z.to_nat (len s)) (s ++ [NUL]) = s)
    by (unfold len; rewrite Nat2Z.id; apply firstn_length_app).
  rewrite Hf.
  assert (Hn : len (s ++ NUL :: make (padBytesNeeded (len s + 1)))
               = len s + 1 + padBytesNeeded (len s + 1)).
  { rewrite len_app. change (NUL :: make (padBytesNeeded (len s + 1)))
      with ([NUL] ++ make (padBytesNeeded (len s + 1))).
    rewrite len_app, len_make by lia. change (len [NUL]) with 1. lia. }
  rewrite Hn.
  destruct (0 <? padBytesNeeded (len s + 1)) eqn:E.
  - apply Z.ltb_lt in E.
    rewrite (Read_buffered _ (make (padBytesNeeded (len s + 1))) rest r sz).
    + reflexivity.
    + apply length_make.
    + lia.
  - apply Z.ltb_ge in E.
    assert (Hz : padBytesNeeded (len s + 1) = 0) by lia.
    rewrite Hz. cbn [make Z.to_nat repeat app]. rewrite Z.add_0_r.
    reflexivity.
Qed.

(** A blob that lies in the buffer is read back. *)
Lemma readBlob_buffered (t rest r : bytes) (sz : nat) :
  t <> [] ->
  len (t ++ make (padBytesNeeded (len t)) ++ rest) < 2 ^ 31 ->
  readBlob (mkReader (wireArgument (ABlob t) ++ rest) r sz)
  = (Ok (t, 4 + len t + padBytesNeeded (len t)), mkReader rest r sz).
Proof.
  intros Ht Hlen. cbn [wireArgument].
  pose proof (len_nonneg t) as H0.
  pose proof (len_nonneg (make (padBytesNeeded (len t)) ++ rest)) as H1.
  pose proof (padBytesNeeded_range (len t) H0) as Hp.
  rewrite len_app in Hlen.
  assert (H1t : 1 <= len t).
  { destruct t; [congruence | unfold len; simpl; lia]. }
  unfold readBlob. rewrite <- app_assoc.
  rewrite binaryRead_buffered by lia.
  rewrite (to_int32_small (len t)) by lia.
  change (2 ^ (8 * Z.of_nat 4)) with (2 ^ 32).
  rewrite Z.mod_small by lia.
  rewrite (to_int32_small (len t)) by lia.
  unfold Buffered. cbn [buf].
  rewrite <- app_assoc.
  rewrite (to_int32_small (len (t ++ make (padBytesNeeded (len t)) ++ rest)))
    by (rewrite len_app; lia).
  rewrite len_app.
  assert (E1 : (len t <? 1) = false) by (apply Z.ltb_ge; lia).
  assert (E2 : (len t + len (make (padBytesNeeded (len t)) ++ rest) <? len t)
               = false) by (apply Z.ltb_ge; lia).
  rewrite E1, E2. cbn [orb].
  rewrite (Read_buffered (Z.to_nat (len t)) t).
  2:{ unfold len. now rewrite Nat2Z.id. }
  2:{ lia. }
  rewrite Z.sub_diag. cbn [make Z.to_nat repeat]. rewrite app_nil_r.
  destruct (0 <? padBytesNeeded (len t)) eqn:E.
  - apply Z.ltb_lt in E.
    rewrite (Read_buffered _ (make (padBytesNeeded (len t))) rest r sz).
    + reflexivity.
    + apply length_make.
    + lia.
  - apply Z.ltb_ge in E.
    assert (Hz : padBytesNeeded (len t) = 0) by lia.
    rewrite Hz. cbn [make Z.to_nat repeat app]. rewrite Z.add_0_r.
    reflexivity.
Qed.

(** ** Encoding a message *)

Lemma writeBlob_wire (t payload : bytes) :
  snd (writeBlob t payload) = payload ++ wireArgument (ABlob t).
Proof.
  unfold writeBlob. cbn [wireArgument].
  pose proof (padBytesNeeded_range (len t) (len_nonneg t)) as Hp.
  destruct (0 <? padBytesNeeded (len t)) eqn:E; cbn [snd].
  - now rewrite <- !app_assoc.
  - apply Z.ltb_ge in E.
    assert (Hz : padBytesNeeded (len t) = 0) by lia.
    rewrite Hz. cbn [make Z.to_nat repeat]. rewrite app_nil_r.
    now rewrite <- app_assoc.
Qed.

Lemma wireArguments_cons (a : Argument) (args : list Argument) :
  wireArguments (a :: args) = wireArgument a ++ wireArguments args.
Proof. reflexivity. Qed.

(** The encoder writes the wire form of the arguments it knows. *)
Lemma marshalArguments_wire (args : list Argument) (typetags payload : bytes) :
  forallb roundTrips args = true ->
  marshalArguments args typetags payload
  = Ok (typetags ++ map getTypeTag args, payload ++ wireArguments args).
Proof.
  revert typetags payload.
  induction args as [| a args IH]; intros typetags payload H.
  - cbn. now rewrite !app_nil_r.
  - cbn [forallb] in H. apply andb_prop in H. destruct H as [Ha Hargs].
    rewrite wireArguments_cons. cbn [map].
    destruct a as [t | | t | t | t | t | t | t | t |];
      cbn [marshalArguments getTypeTag wireArgument Timetag_MarshalBinary];
      try (rewrite (IH _ _ Hargs), <- !app_assoc; reflexivity);
      try discriminate.
    + cbn [roundTrips] in Ha.
      rewrite writePaddedString_doc
        by (rewrite (nullFree_Index _ Ha); discriminate).
      rewrite (IH _ _ Hargs), <- !app_assoc. reflexivity.
    + pose proof (writeBlob_wire t payload) as Hw.
      destruct (writeBlob t payload) as [n payload']. cbn [snd] in Hw.
      subst payload'. cbn [wireArgument].
      rewrite (IH _ _ Hargs), <- !app_assoc. reflexivity.
Qed.

Lemma getTypeTag_not_null (a : Argument) :
  roundTrips a = true -> Ascii.eqb (getTypeTag a) NUL = false.
Proof. destruct a as [[] | | | | | | | | |]; cbn; intros; congruence. Qed.

Lemma typetags_nullFree (args : list Argument) :
  forallb roundTrips args = true ->
  nullFree (","%char :: map getTypeTag args) = true.
Proof.
  intros H. cbn [nullFree forallb]. apply andb_true_intro.
  split; [reflexivity |].
  induction args as [| a args IH]; [reflexivity |].
  cbn [forallb map] in *. apply andb_prop in H. destruct H as [Ha Hargs].
  rewrite (getTypeTag_not_null a Ha). cbn [negb andb]. now apply IH.
Qed.

(** [MarshalBinary] writes the padded address, the padded tag string and
    the arguments. *)
Lemma MarshalBinary_wire (msg : Message) :
  roundTripsMessage msg = true -> MarshalBinary msg = Ok (wireMessage msg).
Proof.
  unfold roundTripsMessage. intros H. apply andb_prop in H.
  destruct H as [Haddr Hargs]. unfold MarshalBinary, wireMessage.
  rewrite writePaddedString_doc
    by (rewrite (nullFree_Index _ Haddr); discriminate).
  rewrite (marshalArguments_wire _ _ _ Hargs).
  change ([","%char] ++ map getTypeTag (Arguments msg))
    with (","%char :: map getTypeTag (Arguments msg)).
  assert (HI : Index (","%char :: map getTypeTag (Arguments msg)) NUL <> 0)
    by (rewrite (nullFree_Index _ (typetags_nullFree _ Hargs)); discriminate).
  rewrite (writePaddedString_doc _ _ HI).
  cbn [app]. now rewrite <- app_assoc.
Qed.

(** ** Decoding what was encoded *)

Lemma Append_Append (msg : Message) (a : Argument) (args : list Argument) :
  Append (Append msg [a]) args = Append msg (a :: args).
Proof. unfold Append. cbn. now rewrite <- app_assoc. Qed.

(** The rounds of the loop, one tag each. *)
Lemma readArgument_int32 (msg : Message) :
  readArgument "i"%char msg
  = (u <- op (binaryRead 4) ;; _ <- advance 4 ;;
     ret (Next (Append msg [AInt32 (to_int32 u)]))).
Proof. reflexivity. Qed.

Lemma readArgument_int64 (msg : Message) :
  readArgument "h"%char msg
  = (u <- op (binaryRead 8) ;; _ <- advance 8 ;;
     ret (Next (Append msg [AInt64 (to_int64 u)]))).
Proof. reflexivity. Qed.

Lemma readArgument_float32 (msg : Message) :
  readArgument "f"%char msg
  = (u <- op (binaryRead 4) ;; _ <- advance 4 ;;
     ret (Next (Append msg [AFloat32 u]))).
Proof. reflexivity. Qed.

Lemma readArgument_float64 (msg : Message) :
  readArgument "d"%char msg
  = (u <- op (binaryRead 8) ;; _ <- advance 8 ;;
     ret (Next (Append msg [AFloat64 u]))).
Proof. reflexivity. Qed.

Lemma readArgument_string (msg : Message) :
  readArgument "s"%char msg
  = ('(s, _) <- op readPaddedString ;;
     _ <- advance (len s + padBytesNeeded (len s)) ;;
     ret (Next (Append msg [AStr s]))).
Proof. reflexivity. Qed.

Lemma readArgument_blob (msg : Message) :
  readArgument "b"%char msg
  = ('(buf, n) <- op readBlob ;; _ <- advance n ;;
     ret (Next (Append msg [ABlob buf]))).
Proof. reflexivity. Qed.

Lemma readArgument_timetag (msg : Message) (st : St) :
  readArgument "t"%char msg st
  = match op (binaryRead 8) st with
    | (Err _, st') => (Ok (ReturnNil msg), st')
    | (Ok tt', st') =>
        (Ok (Next (Append msg [ATime (NewTimetagFromTimetag tt')])),
         mkSt (reader st') (start st' + 8))
    end.
Proof.
  change (readArgument "t"%char msg st)
    with (match op (binaryRead 8) st with
          | (Err _, st') => (Ok (ReturnNil msg), st')
          | (Ok tt', st') =>
              (_ <- advance 8 ;;
               ret (Next (Append msg [ATime (NewTimetagFromTimetag tt')]))) st'
          end).
  destruct (op (binaryRead 8) st) as [[u | e] st']; reflexivity.
Qed.

Lemma readArgument_flag (msg : Message) :
  readArgument "N"%char msg = ret (Next (Append msg [ANil]))
  /\ readArgument "T"%char msg = ret (Next (Append msg [ABool true]))
  /\ readArgument "F"%char msg = ret (Next (Append msg [ABool false])).
Proof. repeat split. Qed.

Ltac in_range H :=
  let H1 := fresh H in
  let H2 := fresh H in
  apply andb_prop in H; destruct H as [H1 H2];
  apply Z.leb_le in H1; apply Z.ltb_lt in H2.

(** Over the wire form of arguments that lie in the buffer, the loop gives
    the arguments back. *)
Lemma readArgumentsLoop_wire (args : list Argument) :
  forallb roundTrips args = true ->
  forall msg rest r sz start0,
    len (wireArguments args ++ rest) < 2 ^ 31 ->
    exists start1,
      readArgumentsLoop (map getTypeTag args) msg
        (mkSt (mkReader (wireArguments args ++ rest) r sz) start0)
      = (Ok (Append msg args), mkSt (mkReader rest r sz) start1).
Proof.
  induction args as [| a args IH]; intros H msg rest r sz start0 Hlen.
  - exists start0. cbn. unfold Append, ret. rewrite app_nil_r.
    now destruct msg.
  - cbn [forallb] in H. apply andb_prop in H. destruct H as [Ha Hargs].
    rewrite wireArguments_cons, <- app_assoc in *.
    rewrite len_app in Hlen.
    pose proof (len_nonneg (wireArgument a)) as Hw.
    cbn [map readArgumentsLoop]. unfold bind at 1.
    assert (Hrest : len (wireArguments args ++ rest) < 2 ^ 31) by lia.
    destruct a as [t | | t | t | t | t | t | t | t |];
      cbn [getTypeTag wireArgument roundTrips] in *; try discriminate.
    + (* bool *)
      destruct (readArgument_flag msg) as [_ [HT HF]].
      destruct t; [rewrite HT | rewrite HF]; cbn [ret app];
        match goal with
        | |- context [Append msg [ABool ?b]] =>
            destruct (IH Hargs (Append msg [ABool b]) rest r sz start0 Hrest)
              as [s1 E]; exists s1; rewrite E, Append_Append; reflexivity
        end.
    + (* nil *)
      destruct (readArgument_flag msg) as [HN _]. rewrite HN. cbn [ret app].
      destruct (IH Hargs (Append msg [ANil]) rest r sz start0 Hrest)
        as [s1 E]. exists s1. now rewrite E, Append_Append.
    + (* int32 *)
      in_range Ha.
      rewrite readArgument_int32. unfold bind, op, advance, ret.
      cbn [reader start]. rewrite binaryRead_buffered by lia.
      cbn [reader start].
      change (2 ^ (8 * Z.of_nat 4)) with (2 ^ 32).
      rewrite to_int32_wrap by lia.
      destruct (IH Hargs (Append msg [AInt32 t]) rest r sz (start0 + 4) Hrest)
        as [s1 E]. exists s1. now rewrite E, Append_Append.
    + (* float32 *)
      in_range Ha.
      rewrite readArgument_float32. unfold bind, op, advance, ret.
      cbn [reader start]. rewrite binaryRead_buffered by lia.
      cbn [reader start].
      change (2 ^ (8 * Z.of_nat 4)) with (2 ^ 32).
      rewrite Z.mod_small by lia.
      destruct (IH Hargs (Append msg [AFloat32 t]) rest r sz (start0 + 4) Hrest)
        as [s1 E]. exists s1. now rewrite E, Append_Append.
    + (* string *)
      rewrite readArgument_string. unfold bind, op, advance, ret.
      cbn [reader start]. rewrite (readPaddedString_buffered _ _ _ _ Ha).
      cbn [reader start].
      destruct (IH Hargs (Append msg [AStr t]) rest r sz
                   (start0 + (len t + padBytesNeeded (len t))) Hrest)
        as [s1 E]. exists s1. now rewrite E, Append_Append.
    + (* blob *)
      rewrite readArgument_blob. unfold bind, op, advance, ret.
      cbn [reader start].
      assert (Ht : t <> []).
      { destruct t; [discriminate | congruence]. }
      change (be_bytes 4 (to_int32 (len t)) ++ t ++ make (padBytesNeeded (len t)))
        with (wireArgument (ABlob t)).
      rewrite readBlob_buffered.
      * cbn [reader start].
        destruct (IH Hargs (Append msg [ABlob t]) rest r sz
                     (start0 + (4 + len t + padBytesNeeded (len t))) Hrest)
          as [s1 E]. exists s1. now rewrite E, Append_Append.
      * exact Ht.
      * cbn [wireArgument] in Hlen. rewrite !len_app in *.
        pose proof (len_nonneg (be_bytes 4 (to_int32 (len t)))). lia.
    + (* int64 *)
      in_range Ha.
      rewrite readArgument_int64. unfold bind, op, advance, ret.
      cbn [reader start]. rewrite binaryRead_buffered by lia.
      cbn [reader start].
      change (2 ^ (8 * Z.of_nat 8)) with (2 ^ 64).
      rewrite to_int64_wrap by lia.
      destruct (IH Hargs (Append msg [AInt64 t]) rest r sz (start0 + 8) Hrest)
        as [s1 E]. exists s1. now rewrite E, Append_Append.
    + (* float64 *)
      in_range Ha.
      rewrite readArgument_float64. unfold bind, op, advance, ret.
      cbn [reader start]. rewrite binaryRead_buffered by lia.
      cbn [reader start].
      change (2 ^ (8 * Z.of_nat 8)) with (2 ^ 64).
      rewrite Z.mod_small by lia.
      destruct (IH Hargs (Append msg [AFloat64 t]) rest r sz (start0 + 8) Hrest)
        as [s1 E]. exists s1. now rewrite E, Append_Append.
    + (* timetag *)
      in_range Ha.
      rewrite readArgument_timetag. unfold op.
      cbn [reader start]. rewrite binaryRead_buffered by lia.
      change (2 ^ (8 * Z.of_nat 8)) with (2 ^ 64).
      rewrite Z.mod_small by lia. cbn [reader start].
      unfold NewTimetagFromTimetag.
      destruct (IH Hargs (Append msg [ATime t]) rest r sz (start0 + 8) Hrest)
        as [s1 E]. exists s1. now rewrite E, Append_Append.
Qed.

(** A reader that has not read yet takes the whole input into its buffer
    when it fits. *)
Lemma ReadString_fresh (d : byte) (data line rest : bytes) (sz : nat) :
  (length data <= sz)%nat ->
  splitAfter d data = Some (line, rest) ->
  ReadString d (mkReader [] data sz) = (Ok line, mkReader rest [] sz).
Proof.
  intros Hsz Hsplit. unfold ReadString. cbn [rd].
  replace (2 * length data + 2)%nat with (S (2 * length data + 1)) by lia.
  cbn [collectFragments buf rd size splitAfter length].
  destruct data as [| x data]; [discriminate |].
  cbn [length] in Hsz.
  assert (E : (sz <=? 0)%nat = false) by (apply Nat.leb_gt; lia).
  rewrite E.
  unfold fill. cbn [buf rd size length app]. rewrite Nat.sub_0_r.
  rewrite firstn_all2, skipn_all2 by (cbn [length]; lia).
  now rewrite (collectFragments_found _ d [] line rest).
Qed.

Lemma readPaddedString_fresh (data : bytes) (sz : nat) (s rest : bytes) :
  (length data <= sz)%nat ->
  nullFree s = true ->
  data = paddedStringDoc s ++ rest ->
  readPaddedString (mkReader [] data sz)
  = readPaddedString (mkReader data [] sz).
Proof.
  intros Hsz Hs ->. rewrite (paddedStringDoc_nullFree s Hs) in *.
  assert (Hsplit : splitAfter NUL ((s ++ NUL :: make (padBytesNeeded (len s + 1)))
                                   ++ rest)
                   = Some (s ++ [NUL],
                           make (padBytesNeeded (len s + 1)) ++ rest)).
  { rewrite <- app_assoc. cbn [app]. now apply splitAfter_intro. }
  unfold readPaddedString.
  rewrite (ReadString_fresh _ _ _ _ _ Hsz Hsplit).
  unfold ReadString.
  rewrite (collectFragments_found _ NUL [] (s ++ [NUL])
             (make (padBytesNeeded (len s + 1)) ++ rest)
             (mkReader _ [] sz) Hsplit).
  reflexivity.
Qed.

(** A message that lies in the buffer is read back. *)
Lemma readMessage_wire_buffered (msg : Message) (rest r : bytes) (sz : nat)
      (start0 : Z) :
  roundTripsMessage msg = true ->
  len (wireMessage msg ++ rest) < 2 ^ 31 ->
  exists start1,
    readMessage (mkSt (mkReader (wireMessage msg ++ rest) r sz) start0)
    = (Ok msg, mkSt (mkReader rest r sz) start1).
Proof.
  unfold roundTripsMessage. intros H Hlen. apply andb_prop in H.
  destruct H as [Haddr Hargs]. unfold wireMessage in *.
  rewrite <- !app_assoc in *.
  pose proof (typetags_nullFree _ Hargs) as Htags.
  set (tags := ","%char :: map getTypeTag (Arguments msg)) in *.
  rewrite (readMessage_tags
             (mkSt (mkReader (paddedStringDoc (Address msg)
                              ++ paddedStringDoc tags
                              ++ wireArguments (Arguments msg) ++ rest) r sz)
                   start0)
             _ _ _ _ _ _
             (readPaddedString_buffered (Address msg)
                (paddedStringDoc tags ++ wireArguments (Arguments msg) ++ rest)
                r sz Haddr)
             (readPaddedString_buffered tags
                (wireArguments (Arguments msg) ++ rest) r sz Htags)).
  subst tags.
  cbn [negb Ascii.eqb Bool.eqb andb start].
  rewrite !len_app in Hlen.
  pose proof (len_nonneg (paddedStringDoc (Address msg))).
  pose proof (len_nonneg (paddedStringDoc (","%char :: map getTypeTag (Arguments msg)))).
  destruct (readArgumentsLoop_wire _ Hargs (NewMessage (Address msg) [])
              rest r sz
              (start0 + len (paddedStringDoc (Address msg))
               + len (paddedStringDoc (","%char :: map getTypeTag (Arguments msg)))))
    as [s1 E].
  { rewrite len_app. lia. }
  exists s1. rewrite E. now destruct msg.
Qed.

(** ** Reading across the end of the buffer

    With a capacity that is a multiple of four the reader refills at
    multiples of four bytes from the end of an encoded message, so the
    padding of a string never straddles the end of the buffer. *)

Lemma Read_wordSized (n : nat) (b : Reader) :
  wordSized b -> (n < size b)%nat -> wordSized (snd (Read n b)).
Proof.
  intros [H1 [H2 H3]] Hn. destruct b as [bf r sz]. cbn [size rd] in *.
  unfold Read. cbn [buf rd size].
  destruct n as [| n]; [repeat split; assumption |].
  destruct bf as [| x bf].
  - destruct r as [| y r]; [repeat split; assumption |].
    assert (E : (sz <=? S n)%nat = false) by (apply Nat.leb_gt; lia).
    rewrite E. cbn [snd]. unfold wordSized. cbn [size rd].
    repeat split; try assumption.
    unfold len in *. rewrite length_skipn.
    destruct (Nat.le_gt_cases (length (y :: r)) sz) as [Hle | Hgt].
    + replace (length (y :: r) - sz)%nat with 0%nat by lia. reflexivity.
    + rewrite Nat2Z.inj_sub by lia.
      Z.to_euclidean_division_equations; lia.
  - cbn [snd]. repeat split; assumption.
Qed.

Lemma ReadAtLeast_wordSized (fuel min : nat) (got : bytes) (b : Reader) :
  wordSized b -> (min < size b)%nat ->
  wordSized (snd (ReadAtLeast fuel min got b)).
Proof.
  revert got b. induction fuel as [| fuel IH]; intros got b Hb Hn;
    cbn [ReadAtLeast]; destruct (min <=? length got)%nat; try assumption.
  pose proof (Read_wordSized (min - length got) b Hb ltac:(lia)) as HR.
  pose proof (Read_later (min - length got) b) as [[Hsz _] _].
  destruct (Read (min - length got) b) as [[p | e] b']; cbn [snd] in *.
  - apply IH; [assumption | lia].
  - assumption.
Qed.

Lemma collectFragments_wordSized (fuel : nat) (d : byte) (full : bytes)
      (b : Reader) :
  wordAligned b -> wordSized (snd (collectFragments fuel d full b)).
Proof.
  revert full b. induction fuel as [| fuel IH]; intros full b [[H1 [H2 H3]] H4];
    cbn [collectFragments]; destruct (splitAfter d (buf b)) as [[l r] |];
    cbn [snd]; try (repeat split; assumption).
  destruct (size b <=? length (buf b))%nat eqn:E.
  - apply IH. repeat split; assumption.
  - apply Nat.leb_gt in E.
    destruct (rd b) as [| y r] eqn:Er; [repeat split; assumption |].
    apply IH. unfold wordAligned, wordSized, fill. cbn [buf rd size].
    rewrite Er.
    set (room := (size b - length (buf b))%nat).
    assert (Hroom : Z.of_nat room mod 4 = 0).
    { subst room. rewrite Nat2Z.inj_sub by lia. unfold len in H4.
      Z.to_euclidean_division_equations; lia. }
    unfold len in *. rewrite length_app, length_skipn, length_firstn.
    destruct (Nat.le_gt_cases (length (y :: r)) room) as [Hle | Hgt].
    + rewrite Nat.min_r by lia.
      replace (length (y :: r) - room)%nat with 0%nat by lia.
      rewrite Nat2Z.inj_add.
      repeat split; try assumption; try reflexivity.
      Z.to_euclidean_division_equations; lia.
    + rewrite Nat.min_l by lia.
      rewrite Nat2Z.inj_add, Nat2Z.inj_sub by lia.
      repeat split; try assumption;
        Z.to_euclidean_division_equations; lia.
Qed.

Lemma wordAligned_stream (b : Reader) :
  wordAligned b -> len (stream b) mod 4 = 0.
Proof.
  intros [[_ [_ H3]] H4]. unfold stream. rewrite len_app.
  Z.to_euclidean_division_equations; lia.
Qed.

Lemma wordAligned_intro (b : Reader) :
  wordSized b -> len (stream b) mod 4 = 0 -> wordAligned b.
Proof.
  intros Hs H. split; [assumption |].
  destruct Hs as [_ [_ H3]]. unfold stream in H. rewrite len_app in H.
  Z.to_euclidean_division_equations; lia.
Qed.

Lemma wordAligned_size (b : Reader) : wordAligned b -> (0 < size b)%nat.
Proof. intros [[_ [H _]] _]. lia. Qed.

(** A fixed-width number at the front of the stream is read, wherever the
    buffer ends. *)
Lemma binaryRead_stream (n : nat) (v : Z) (b : Reader) (rest : bytes) :
  wordAligned b -> n = 4%nat \/ n = 8%nat ->
  stream b = be_bytes n v ++ rest ->
  exists b',
    binaryRead n b = (Ok (v mod 2 ^ (8 * Z.of_nat n)), b')
    /\ stream b' = rest /\ wordAligned b'.
Proof.
  intros Hb Hn Hs.
  pose proof (wordAligned_stream b Hb) as Hal.
  pose proof (ReadFull_spec n b) as HR.
  pose proof (ReadAtLeast_wordSized n n [] b (proj1 Hb)) as HW.
  fold (ReadFull n b) in HW.
  assert (Hlen : (n <=? length (stream b))%nat = true).
  { apply Nat.leb_le. rewrite Hs, length_app, length_be_bytes. lia. }
  rewrite Hlen in HR. destruct HR as [b' [HR [Hs' [Hsz _]]]].
  rewrite HR in HW. cbn [snd] in HW.
  exists b'. unfold binaryRead. rewrite HR.
  rewrite Hs in *.
  rewrite <- (length_be_bytes n v) at 1.
  rewrite firstn_length_app, be_uint_be_bytes.
  rewrite <- (length_be_bytes n v) in Hs' at 1.
  rewrite skipn_length_app in Hs'.
  split; [reflexivity |]. split; [assumption |].
  apply wordAligned_intro.
  - apply HW. destruct Hb as [[_ [H8 _]] _]. destruct Hn; subst n; lia.
  - rewrite Hs'. rewrite len_app in Hal.
    unfold len in Hal at 1. rewrite length_be_bytes in Hal.
    destruct Hn; subst n; Z.to_euclidean_division_equations; lia.
Qed.

(** A padded string at the front of the stream is read, wherever the
    buffer ends. *)
Lemma readPaddedString_stream (s rest : bytes) (b : Reader) :
  wordAligned b -> nullFree s = true ->
  stream b = paddedStringDoc s ++ rest ->
  exists b',
    readPaddedString b = (Ok (s, len (paddedStringDoc s)), b')
    /\ stream b' = rest /\ wordAligned b'.
Proof.
  intros Hb Hs Hst.
  pose proof (wordAligned_stream b Hb) as Hal.
  pose proof (paddedStringDoc_aligned s) as [Hdoc _].
  rewrite (paddedStringDoc_nullFree s Hs) in *.
  pose proof (len_nonneg s) as Hlen.
  pose proof (padBytesNeeded_range (len s + 1) ltac:(lia)) as Hp.
  set (pad := padBytesNeeded (len s + 1)) in *.
  assert (Hsplit : splitAfter NUL (stream b)
                   = Some (s ++ [NUL], make pad ++ rest)).
  { rewrite Hst, <- app_assoc. cbn [app]. now apply splitAfter_intro. }
  pose proof (ReadString_spec NUL b (wordAligned_size b Hb)) as HR.
  rewrite Hsplit in HR. destruct HR as [b1 [HR [Hs1 [Hsz1 _]]]].
  pose proof (collectFragments_wordSized (2 * length (rd b) + 2) NUL [] b Hb)
    as HW.
  fold (ReadString NUL b) in HW. rewrite HR in HW. cbn [snd] in HW.
  assert (Hdoclen : len (s ++ NUL :: make pad) = len s + 1 + pad).
  { rewrite len_app. change (NUL :: make pad) with ([NUL] ++ make pad).
    rewrite len_app, len_make by lia. change (len [NUL]) with 1. lia. }
  rewrite Hdoclen in *.
  unfold readPaddedString. rewrite HR.
  rewrite len_app. change (len [NUL]) with 1.
  replace (len s + 1 - 1) with (len s) by lia.
  assert (Hf : firstn (Z.to_nat (len s)) (s ++ [NUL]) = s)
    by (unfold len; rewrite Nat2Z.id; apply firstn_length_app).
  rewrite Hf. fold pad.
  assert (Hrest : len rest mod 4 = 0).
  { rewrite Hst, len_app, Hdoclen in Hal.
    Z.to_euclidean_division_equations; lia. }
  destruct (0 <? pad) eqn:E.
  - apply Z.ltb_lt in E.
    (* the padding lies in the buffer *)
    assert (Hbuf : pad <= len (buf b1)).
    { destruct HW as [_ [_ Hrd]].
      assert (Hl1 : len (buf b1) + len (rd b1) = pad + len rest).
      { unfold stream in Hs1. rewrite <- len_app, Hs1, len_app, len_make by lia.
        reflexivity. }
      pose proof (len_nonneg (buf b1)).
      Z.to_euclidean_division_equations; lia. }
    destruct b1 as [bf1 r1 sz1]. cbn [buf rd size] in *.
    assert (Hbf : bf1 = make pad ++ skipn (Z.to_nat pad) bf1).
    { unfold stream in Hs1. cbn [buf rd] in Hs1.
      rewrite <- (firstn_skipn (Z.to_nat pad) bf1) at 1. f_equal.
      assert (Hf1 : firstn (Z.to_nat pad) (bf1 ++ r1)
                    = firstn (Z.to_nat pad) bf1).
      { rewrite firstn_app.
        replace (Z.to_nat pad - length bf1)%nat with 0%nat
          by (unfold len in Hbuf; lia).
        cbn [firstn]. apply app_nil_r. }
      rewrite <- Hf1, Hs1.
      rewrite <- (length_make pad) at 1. apply firstn_length_app. }
    rewrite Hbf.
    rewrite (Read_buffered (Z.to_nat pad) (make pad) _ r1 sz1
               (length_make pad) ltac:(lia)).
    eexists. split; [reflexivity |]. split.
    + unfold stream in *. cbn [buf rd] in *.
      rewrite Hbf, <- app_assoc in Hs1.
      now apply app_inv_head in Hs1.
    + apply wordAligned_intro; [exact HW |].
      unfold stream in *. cbn [buf rd] in *.
      rewrite Hbf, <- app_assoc in Hs1.
      apply app_inv_head in Hs1. now rewrite Hs1.
  - apply Z.ltb_ge in E. assert (Hz : pad = 0) by lia.
    rewrite Hz in *. cbn [make Z.to_nat repeat app] in Hs1.
    rewrite Z.add_0_r.
    exists b1. split; [reflexivity |]. split; [assumption |].
    apply wordAligned_intro; [exact HW | now rewrite Hs1].
Qed.

Lemma len_be_bytes (k : nat) (v : Z) : len (be_bytes k v) = Z.of_nat k.
Proof. unfold len. now rewrite length_be_bytes. Qed.

Lemma wireArgument_aligned (a : Argument) : len (wireArgument a) mod 4 = 0.
Proof.
  destruct a as [t | | t | t | t | t | t | t | t |]; cbn [wireArgument];
    try reflexivity; try (rewrite len_be_bytes; reflexivity).
  - apply paddedStringDoc_aligned.
  - pose proof (len_nonneg t) as H.
    pose proof (padBytesNeeded_range (len t) H) as Hp.
    pose proof (padBytesNeeded_aligned (len t) H) as Ha.
    rewrite !len_app, len_be_bytes, len_make by lia.
    Z.to_euclidean_division_equations; lia.
Qed.

Lemma wireArguments_aligned (args : list Argument) :
  len (wireArguments args) mod 4 = 0.
Proof.
  induction args as [| a args IH]; [reflexivity |].
  rewrite wireArguments_cons, len_app.
  pose proof (wireArgument_aligned a).
  Z.to_euclidean_division_equations; lia.
Qed.

Lemma wireMessage_aligned (msg : Message) : len (wireMessage msg) mod 4 = 0.
Proof.
  unfold wireMessage. rewrite !len_app.
  pose proof (paddedStringDoc_aligned (Address msg)) as [H1 _].
  pose proof (paddedStringDoc_aligned
                (","%char :: map getTypeTag (Arguments msg))) as [H2 _].
  pose proof (wireArguments_aligned (Arguments msg)) as H3.
  Z.to_euclidean_division_equations; lia.
Qed.

(** Over the wire form of arguments without blobs the loop gives the
    arguments back, wherever the buffer ends. *)
Lemma readArgumentsLoop_stream (args : list Argument) :
  forallb roundTrips args = true ->
  forallb noBlob args = true ->
  forall msg b rest start0,
    wordAligned b ->
    stream b = wireArguments args ++ rest ->
    exists b' start1,
      readArgumentsLoop (map getTypeTag args) msg (mkSt b start0)
      = (Ok (Append msg args), mkSt b' start1)
      /\ stream b' = rest /\ wordAligned b'.
Proof.
  induction args as [| a args IH]; intros H Hnb msg b rest start0 Hb Hs.
  - exists b, start0. cbn. unfold Append, ret. rewrite app_nil_r.
    split; [now destruct msg | auto].
  - cbn [forallb] in H, Hnb.
    apply andb_prop in H. destruct H as [Ha Hargs].
    apply andb_prop in Hnb. destruct Hnb as [Hna Hnargs].
    rewrite wireArguments_cons, <- app_assoc in Hs.
    cbn [map readArgumentsLoop]. unfold bind at 1.
    destruct a as [t | | t | t | t | t | t | t | t |];
      cbn [getTypeTag wireArgument roundTrips noBlob] in *;
      try discriminate.
    + (* bool *)
      destruct (readArgument_flag msg) as [_ [HT HF]].
      destruct t; [rewrite HT | rewrite HF]; cbn [ret app];
        match goal with
        | |- context [Append msg [ABool ?x]] =>
            destruct (IH Hargs Hnargs (Append msg [ABool x]) b rest start0 Hb Hs)
              as [b' [s1 [E HE]]];
              exists b', s1; rewrite E, Append_Append; split;
              [reflexivity | exact HE]
        end.
    + (* nil *)
      destruct (readArgument_flag msg) as [HN _]. rewrite HN. cbn [ret app].
      destruct (IH Hargs Hnargs (Append msg [ANil]) b rest start0 Hb Hs)
        as [b' [s1 [E HE]]].
      exists b', s1. rewrite E, Append_Append. auto.
    + (* int32 *)
      in_range Ha.
      destruct (binaryRead_stream 4 t b _ Hb (or_introl eq_refl) Hs)
        as [b1 [E1 [Hs1 Hb1]]].
      rewrite readArgument_int32. unfold bind, op, advance, ret.
      cbn [reader start]. rewrite E1. cbn [reader start].
      change (2 ^ (8 * Z.of_nat 4)) with (2 ^ 32).
      rewrite to_int32_wrap by lia.
      destruct (IH Hargs Hnargs (Append msg [AInt32 t]) b1 rest (start0 + 4)
                   Hb1 Hs1) as [b' [s1 [E HE]]].
      exists b', s1. rewrite E, Append_Append. auto.
    + (* float32 *)
      in_range Ha.
      destruct (binaryRead_stream 4 t b _ Hb (or_introl eq_refl) Hs)
        as [b1 [E1 [Hs1 Hb1]]].
      rewrite readArgument_float32. unfold bind, op, advance, ret.
      cbn [reader start]. rewrite E1. cbn [reader start].
      change (2 ^ (8 * Z.of_nat 4)) with (2 ^ 32).
      rewrite Z.mod_small by lia.
      destruct (IH Hargs Hnargs (Append msg [AFloat32 t]) b1 rest (start0 + 4)
                   Hb1 Hs1) as [b' [s1 [E HE]]].
      exists b', s1. rewrite E, Append_Append. auto.
    + (* string *)
      destruct (readPaddedString_stream t _ b Hb Ha Hs) as [b1 [E1 [Hs1 Hb1]]].
      rewrite readArgument_string. unfold bind, op, advance, ret.
      cbn [reader start]. rewrite E1. cbn [reader start].
      destruct (IH Hargs Hnargs (Append msg [AStr t]) b1 rest
                   (start0 + (len t + padBytesNeeded (len t))) Hb1 Hs1)
        as [b' [s1 [E HE]]].
      exists b', s1. rewrite E, Append_Append. auto.
    + (* int64 *)
      in_range Ha.
      destruct (binaryRead_stream 8 t b _ Hb (or_intror eq_refl) Hs)
        as [b1 [E1 [Hs1 Hb1]]].
      rewrite readArgument_int64. unfold bind, op, advance, ret.
      cbn [reader start]. rewrite E1. cbn [reader start].
      change (2 ^ (8 * Z.of_nat 8)) with (2 ^ 64).
      rewrite to_int64_wrap by lia.
      destruct (IH Hargs Hnargs (Append msg [AInt64 t]) b1 rest (start0 + 8)
                   Hb1 Hs1) as [b' [s1 [E HE]]].
      exists b', s1. rewrite E, Append_Append. auto.
    + (* float64 *)
      in_range Ha.
      destruct (binaryRead_stream 8 t b _ Hb (or_intror eq_refl) Hs)
        as [b1 [E1 [Hs1 Hb1]]].
      rewrite readArgument_float64. unfold bind, op, advance, ret.
      cbn [reader start]. rewrite E1. cbn [reader start].
      change (2 ^ (8 * Z.of_nat 8)) with (2 ^ 64).
      rewrite Z.mod_small by lia.
      destruct (IH Hargs Hnargs (Append msg [AFloat64 t]) b1 rest (start0 + 8)
                   Hb1 Hs1) as [b' [s1 [E HE]]].
      exists b', s1. rewrite E, Append_Append. auto.
    + (* timetag *)
      in_range Ha.
      destruct (binaryRead_stream 8 t b _ Hb (or_intror eq_refl) Hs)
        as [b1 [E1 [Hs1 Hb1]]].
      rewrite readArgument_timetag. unfold op.
      cbn [reader start]. rewrite E1. cbn [reader start].
      change (2 ^ (8 * Z.of_nat 8)) with (2 ^ 64).
      rewrite Z.mod_small by lia. unfold NewTimetagFromTimetag.
      destruct (IH Hargs Hnargs (Append msg [ATime t]) b1 rest (start0 + 8)
                   Hb1 Hs1) as [b' [s1 [E HE]]].
      exists b', s1. rewrite E, Append_Append. auto.
Qed.

(** A message without blobs at the front of the stream is read back,
    wherever the buffer ends. *)
Lemma readMessage_wire_stream (msg : Message) (b : Reader) (rest : bytes)
      (start0 : Z) :
  roundTripsMessage msg = true ->
  forallb noBlob (Arguments msg) = true ->
  wordAligned b ->
  stream b = wireMessage msg ++ rest ->
  exists b' start1,
    readMessage (mkSt b start0) = (Ok msg, mkSt b' start1)
    /\ stream b' = rest /\ wordAligned b'.
Proof.
  unfold roundTripsMessage. intros H Hnb Hb Hs. apply andb_prop in H.
  destruct H as [Haddr Hargs]. unfold wireMessage in Hs.
  rewrite <- !app_assoc in Hs.
  pose proof (typetags_nullFree _ Hargs) as Htags.
  destruct (readPaddedString_stream _ _ b Hb Haddr Hs) as [b1 [E1 [Hs1 Hb1]]].
  destruct (readPaddedString_stream _ _ b1 Hb1 Htags Hs1)
    as [b2 [E2 [Hs2 Hb2]]].
  rewrite (readMessage_tags (mkSt b start0) _ _ _ _ _ _ E1 E2).
  cbn [negb Ascii.eqb Bool.eqb andb start].
  destruct (readArgumentsLoop_stream _ Hargs Hnb (NewMessage (Address msg) [])
              b2 rest
              (start0 + len (paddedStringDoc (Address msg))
               + len (paddedStringDoc (","%char :: map getTypeTag (Arguments msg))))
              Hb2 Hs2)
    as [b' [s1 [E HE]]].
  exists b', s1. rewrite E. split; [now destruct msg | exact HE].
Qed.

(** C1, as the code has it.  A message whose address and string arguments
    hold no null byte, whose blobs are not empty, and whose other arguments
    are values of their Go types is encoded; and decoding the encoding
    gives the message back, address and arguments, and leaves nothing
    unread, when the encoding fits the buffer of the reader (4096 bytes
    for [bufio.NewReader]), or when the message has no blob and the
    capacity asked for is a multiple of four (as 4096 is).
    [NewReader data] is [NewReaderSize data defaultBufSize]. *)
Theorem readMessage_MarshalBinary (msg : Message) :
  roundTripsMessage msg = true ->
  exists data,
    MarshalBinary msg = Ok data
    /\ forall sz start0,
        ((length data <= Nat.max sz 16)%nat /\ len data < 2 ^ 31)
        \/ (forallb noBlob (Arguments msg) = true /\ Z.of_nat sz mod 4 = 0) ->
        exists st1,
          readMessage (mkSt (NewReaderSize data sz) start0) = (Ok msg, st1)
          /\ stream (reader st1) = [].
Proof.
  intros H. exists (wireMessage msg).
  split; [now apply MarshalBinary_wire |].
  intros sz start0 [[Hsz Hlen] | [Hnb Hsz]].
  - pose proof H as H'. unfold roundTripsMessage in H'.
    apply andb_prop in H'. destruct H' as [Haddr _].
    assert (Hfresh :
              readMessage (mkSt (NewReaderSize (wireMessage msg) sz) start0)
              = readMessage (mkSt (mkReader (wireMessage msg) []
                                            (Nat.max sz 16)) start0)).
    { unfold readMessage, bind, op, NewReaderSize. cbn [reader start].
      now rewrite (readPaddedString_fresh _ _ (Address msg) _ Hsz Haddr
                     eq_refl). }
    rewrite Hfresh.
    replace (mkReader (wireMessage msg) [] (Nat.max sz 16))
      with (mkReader (wireMessage msg ++ []) [] (Nat.max sz 16))
      by now rewrite app_nil_r.
    destruct (readMessage_wire_buffered msg [] [] (Nat.max sz 16) start0 H)
      as [s1 E]; [now rewrite app_nil_r |].
    eexists. split; [exact E | reflexivity].
  - assert (Hb : wordAligned (NewReaderSize (wireMessage msg) sz)).
    { unfold wordAligned, wordSized, NewReaderSize. cbn [buf rd size].
      pose proof (wireMessage_aligned msg) as Ha.
      repeat split; try assumption; try reflexivity.
      - rewrite Nat2Z.inj_max. change (Z.of_nat 16) with 16.
        Z.to_euclidean_division_equations; lia.
      - lia. }
    destruct (readMessage_wire_stream msg _ [] start0 H Hnb Hb)
      as [b' [s1 [E [Hs _]]]].
    { unfold stream, NewReaderSize. cbn [buf rd]. now rewrite app_nil_r. }
    eexists. split; [exact E | exact Hs].
Qed.

Lemma readMessage_MarshalBinary_witness :
  roundTripsMessage sampleMessage = true
  /\ exists data,
      MarshalBinary sampleMessage = Ok data
      /\ exists st1,
          readMessage (mkSt (NewReaderSize data defaultBufSize) 0)
          = (Ok sampleMessage, st1)
          /\ stream (reader st1) = [].
Proof.
  split; [reflexivity |].
  destruct (readMessage_MarshalBinary sampleMessage eq_refl) as [data [H1 H2]].
  exists data. split; [exact H1 |].
  assert (Hd : length data = 72%nat).
  { assert (E : MarshalBinary sampleMessage = Ok (wireMessage sampleMessage))
      by reflexivity.
    rewrite E in H1. injection H1 as <-. reflexivity. }
  apply (H2 defaultBufSize 0). left. split.
  - rewrite Hd. apply Nat.leb_le. reflexivity.
  - unfold len. rewrite Hd. reflexivity.
Defined.

(** ** More on the decoder's slips *)

Lemma to_int32_le (x : Z) : 0 <= x -> to_int32 x <= x.
Proof.
  intros H. unfold to_int32.
  pose proof (Z.mod_le (x + 2 ^ 31) (2 ^ 32) ltac:(lia) ltac:(lia)). lia.
Qed.

(** X12: [readBlob] refuses a declared length below one, or above the
    bytes that remain after the length, with the invalid-length error,
    which carries the length; the four bytes of the length have been
    consumed by then. *)
Lemma readBlob_invalid_length (b b1 : Reader) (u : Z) :
  binaryRead 4 b = (Ok u, b1) ->
  to_int32 u < 1 \/ len (stream b1) < to_int32 u ->
  readBlob b = (Err (ErrInvalidBlobLength (to_int32 u)), b1).
Proof.
  intros HR H. unfold readBlob. rewrite HR.
  assert (E : ((to_int32 u <? 1) || (to_int32 (Buffered b1) <? to_int32 u))
              = true).
  { apply orb_true_iff. destruct H as [H | H].
    - left. now apply Z.ltb_lt.
    - right. apply Z.ltb_lt. unfold Buffered.
      pose proof (to_int32_le (len (buf b1)) (len_nonneg _)).
      unfold stream in H. rewrite len_app in H.
      pose proof (len_nonneg (rd b1)). lia. }
  now rewrite E.
Qed.

(** The count of a string argument falls four short exactly when the
    length of the string is a multiple of four. *)
Lemma string_count_short (n : Z) :
  0 <= n ->
  (n + 1 + padBytesNeeded (n + 1)) - (n + padBytesNeeded n)
  = if n mod 4 =? 0 then 4 else 0.
Proof.
  intros H. rewrite !padBytesNeeded_mod by lia.
  destruct (n mod 4 =? 0) eqn:E;
    [apply Z.eqb_eq in E | apply Z.eqb_neq in E];
    Z.to_euclidean_division_equations; lia.
Qed.

(** Only the timetag round returns [nil] before the tags are used up. *)
Lemma readArgument_ReturnNil (c : byte) (msg msg' : Message) (st st' : St) :
  readArgument c msg st = (Ok (ReturnNil msg'), st') -> c = "t"%char.
Proof.
  unfold readArgument.
  repeat match goal with
         | |- (if Ascii.eqb c ?x then _ else _) _ = _ -> _ =>
             let E := fresh "E" in destruct (Ascii.eqb c x) eqn:E
         end;
    intros H; try discriminate;
    try (apply bind_inv in H;
         destruct H as [(u & st1 & _ & H) | (e & _ & [=])];
         try destruct u;
         apply bind_inv in H;
         destruct H as [([] & st2 & _ & H) | (e & _ & [=])];
         discriminate).
  now apply Ascii.eqb_eq.
Qed.

(** ** The matcher against the words of an expression *)

Lemma nullable_Words (re : regex) : nullable re = true <-> Words re [].
Proof.
  induction re; simpl.
  - split; [discriminate | inversion 1].
  - split; [constructor | reflexivity].
  - split; [discriminate | inversion 1].
  - split; [discriminate | inversion 1].
  - rewrite andb_true_iff, IHre1, IHre2. split.
    + intros [H1 H2]. exact (WCat _ _ [] [] H1 H2).
    + inversion 1 as [| | | a b s t Hs Ht E1 E2 | | | |]; subst.
      apply app_eq_nil in E2. destruct E2 as [-> ->]. now split.
  - rewrite orb_true_iff, IHre1, IHre2. split.
    + intros [H | H]; [now apply WAltL | now apply WAltR].
    + inversion 1; subst; [now left | now right].
  - split; [constructor | reflexivity].
Qed.

Lemma Words_star_cons (a : regex) (s : bytes) :
  Words (RStar a) s ->
  forall c s', s = c :: s' ->
    exists s1 s2, s' = s1 ++ s2 /\ Words a (c :: s1) /\ Words (RStar a) s2.
Proof.
  intros H. remember (RStar a) as re eqn:E.
  induction H as [| | | | | | a' | a' s t Hs _ Ht IHt]; try discriminate.
  injection E as ->. intros c s' Hc. destruct s as [| x s].
  - simpl in Hc. now apply IHt.
  - simpl in Hc. injection Hc as -> <-. now exists s, t.
Qed.

Lemma deriv_Words (re : regex) (c : byte) (s : bytes) :
  Words (deriv c re) s <-> Words re (c :: s).
Proof.
  revert s. induction re; intros s; simpl.
  - split; inversion 1.
  - split; inversion 1.
  - destruct (Ascii.eqb c0 c) eqn:E.
    + apply Ascii.eqb_eq in E. subst c0. split.
      * inversion 1. constructor.
      * inversion 1. constructor.
    + apply Ascii.eqb_neq in E. split; inversion 1. congruence.
  - destruct (Ascii.eqb c newline) eqn:E.
    + apply Ascii.eqb_eq in E. split; inversion 1. congruence.
    + apply Ascii.eqb_neq in E. split.
      * inversion 1. now constructor.
      * inversion 1. constructor.
  - assert (HL : Words (RCat (deriv c re1) re2) s
                 <-> exists s1 s2, s = s1 ++ s2 /\ Words re1 (c :: s1)
                                   /\ Words re2 s2).
    { split.
      - inversion 1 as [| | | a b s1 s2 H1 H2 | | | |]; subst.
        exists s1, s2. now rewrite <- IHre1.
      - intros (s1 & s2 & -> & H1 & H2). constructor; [now apply IHre1 | easy]. }
    assert (HC : Words (RCat re1 re2) (c :: s)
                 <-> (exists s1 s2, s = s1 ++ s2 /\ Words re1 (c :: s1)
                                    /\ Words re2 s2)
                     \/ (Words re1 [] /\ Words re2 (c :: s))).
    { split.
      - inversion 1 as [| | | a b s1 s2 H1 H2 E1 E2 | | | |]; subst.
        destruct s1 as [| x s1]; simpl in E2.
        + right. subst s2. now split.
        + injection E2 as -> <-. left. now exists s1, s2.
      - intros [(s1 & s2 & -> & H1 & H2) | [H1 H2]].
        + exact (WCat _ _ (c :: s1) s2 H1 H2).
        + exact (WCat _ _ [] (c :: s) H1 H2). }
    rewrite HC. destruct (nullable re1) eqn:N.
    + apply nullable_Words in N. split.
      * inversion 1; subst; [left; now apply HL | right; split; [easy | now apply IHre2]].
      * intros [H | [_ H]]; [apply WAltL; now apply HL | apply WAltR; now apply IHre2].
    + rewrite HL. split; [now left |].
      intros [H | [H _]]; [easy |]. apply nullable_Words in H. congruence.
  - split.
    + inversion 1; subst; [apply WAltL; now apply IHre1 | apply WAltR; now apply IHre2].
    + inversion 1; subst; [apply WAltL; now apply IHre1 | apply WAltR; now apply IHre2].
  - split.
    + inversion 1 as [| | | a b s1 s2 H1 H2 | | | |]; subst.
      apply IHre in H1. exact (WStarCons _ (c :: s1) s2 H1 H2).
    + intros H. destruct (Words_star_cons _ _ H c s eq_refl)
        as (s1 & s2 & -> & H1 & H2).
      constructor; [now apply IHre | easy].
Qed.

(** [matchWhole] decides the words of the expression. *)
Lemma matchWhole_Words (re : regex) (s : bytes) :
  matchWhole re s = true <-> Words re s.
Proof.
  revert re. induction s as [| c s IH]; intros re; simpl.
  - apply nullable_Words.
  - rewrite IH. apply deriv_Words.
Qed.

(** [MatchString] holds exactly when some part of the string, between two
    of its positions, is a word of the expression. *)
Lemma MatchString_Words (re : regex) (s : bytes) :
  MatchString re s = true
  <-> exists pre w post, s = pre ++ w ++ post /\ Words re w.
Proof.
  rewrite MatchString_substrings, existsb_exists. split.
  - intros (w & Hin & Hw). apply substrings_spec in Hin.
    destruct Hin as (pre & post & ->).
    exists pre, w, post. split; [easy | now apply matchWhole_Words].
  - intros (pre & w & post & -> & Hw). exists w. split.
    + apply substrings_spec. now exists pre, post.
    + now apply matchWhole_Words.
Qed.

(** ** The encoder on every input *)

Lemma writePaddedString_written (str buf : bytes) :
  let t := if 0 <? Index str NUL
           then firstn (Z.to_nat (Index str NUL)) str else str in
  let w := t ++ [NUL] ++ make (padBytesNeeded (len t + 1)) in
  writePaddedString str buf = (len w, buf ++ w).
Proof.
  intros t w. unfold writePaddedString. fold t.
  pose proof (len_nonneg t) as Ht.
  pose proof (padBytesNeeded_range (len t + 1) ltac:(lia)) as Hp.
  subst w. rewrite !len_app, len_make by lia.
  change (len [NUL]) with 1.
  destruct (0 <? padBytesNeeded (len t + 1)) eqn:E.
  - rewrite ?len_make by lia. f_equal; [lia |].
    now rewrite <- !app_assoc.
  - apply Z.ltb_ge in E. assert (E0 : padBytesNeeded (len t + 1) = 0) by lia.
    rewrite E0. change (make 0) with (@nil byte). rewrite ?app_nil_r.
    f_equal; [lia | now rewrite <- ?app_assoc].
Qed.

Lemma writePaddedString_buf (str buf : bytes) :
  writePaddedString str buf
  = (fst (writePaddedString str []), buf ++ snd (writePaddedString str [])).
Proof. now rewrite (writePaddedString_written str buf), (writePaddedString_written str []). Qed.

Lemma firstn_prefix {A} (n : nat) (l : list A) : exists rest, l = firstn n l ++ rest.
Proof. exists (skipn n l). now rewrite firstn_skipn. Qed.

(** X1: The count [writePaddedString] returns is the number of bytes it
    appends, a multiple of four; what was in the buffer stays; what is
    appended is a prefix of the string, one null byte, and fewer than four
    null bytes of padding. *)
Theorem writePaddedString_count (str buf : bytes) :
  exists t pad w,
    writePaddedString str buf = (len w, buf ++ w)
    /\ w = t ++ [NUL] ++ make pad
    /\ (exists rest, str = t ++ rest)
    /\ 0 <= pad < 4
    /\ len w mod 4 = 0
    /\ 4 <= len w <= len str + 4.
Proof.
  pose proof (writePaddedString_written str buf) as H. cbv zeta in H.
  set (t := if 0 <? Index str NUL
            then firstn (Z.to_nat (Index str NUL)) str else str) in *.
  assert (Hpre : exists rest, str = t ++ rest).
  { subst t. destruct (0 <? Index str NUL).
    - apply firstn_prefix.
    - exists []. now rewrite app_nil_r. }
  pose proof (len_nonneg t) as Ht.
  pose proof (padBytesNeeded_range (len t + 1) ltac:(lia)) as Hp.
  pose proof (padBytesNeeded_aligned (len t + 1) ltac:(lia)) as Ha.
  assert (Hl : len (t ++ [NUL] ++ make (padBytesNeeded (len t + 1)))
               = len t + 1 + padBytesNeeded (len t + 1)).
  { rewrite !len_app, len_make by lia. change (len [NUL]) with 1. lia. }
  exists t, (padBytesNeeded (len t + 1)),
    (t ++ [NUL] ++ make (padBytesNeeded (len t + 1))).
  rewrite Hl. split; [now rewrite <- Hl |].
  split; [reflexivity |]. split; [exact Hpre |]. split; [exact Hp |].
  split; [exact Ha |].
  destruct Hpre as [rest Hr].
  assert (len str = len t + len rest) by (rewrite Hr at 1; apply len_app).
  pose proof (len_nonneg rest).
  Z.to_euclidean_division_equations; lia.
Qed.

Lemma writeBlob_written (data buf : bytes) :
  let w := be_bytes 4 (to_int32 (len data)) ++ data
           ++ make (padBytesNeeded (len data)) in
  writeBlob data buf = (len w, buf ++ w).
Proof.
  intros w. unfold writeBlob. subst w.
  pose proof (len_nonneg data) as Ht.
  pose proof (padBytesNeeded_range (len data) ltac:(lia)) as Hp.
  rewrite !len_app, len_be_bytes, len_make by lia.
  destruct (0 <? padBytesNeeded (len data)) eqn:E.
  - rewrite ?len_make by lia. f_equal; [change (Z.of_nat 4) with 4; lia |].
    now rewrite <- !app_assoc.
  - apply Z.ltb_ge in E. assert (E0 : padBytesNeeded (len data) = 0) by lia.
    rewrite E0. change (make 0) with (@nil byte). rewrite ?app_nil_r.
    f_equal; [change (Z.of_nat 4) with 4; lia | now rewrite <- ?app_assoc].
Qed.

(** X2: The count [writeBlob] returns is the number of bytes it appends, a
    multiple of four: the length as four bytes, the data, and fewer than
    four null bytes of padding; what was in the buffer stays. *)
Theorem writeBlob_count (data buf : bytes) :
  exists pad w,
    writeBlob data buf = (len w, buf ++ w)
    /\ w = be_bytes 4 (to_int32 (len data)) ++ data ++ make pad
    /\ 0 <= pad < 4
    /\ len w = 4 + len data + pad
    /\ len w mod 4 = 0.
Proof.
  pose proof (len_nonneg data) as Ht.
  pose proof (padBytesNeeded_range (len data) ltac:(lia)) as Hp.
  pose proof (padBytesNeeded_aligned (len data) ltac:(lia)) as Ha.
  exists (padBytesNeeded (len data)),
    (be_bytes 4 (to_int32 (len data)) ++ data ++ make (padBytesNeeded (len data))).
  assert (Hl : len (be_bytes 4 (to_int32 (len data)) ++ data
                    ++ make (padBytesNeeded (len data)))
               = 4 + len data + padBytesNeeded (len data)).
  { rewrite !len_app, len_be_bytes, len_make by lia. change (Z.of_nat 4) with 4; lia. }
  repeat split; try easy; try lia.
  - apply writeBlob_written.
  - rewrite Hl. Z.to_euclidean_division_equations; lia.
Qed.

Lemma typeTags_map (msg : Message) :
  typeTags msg = ","%char :: map getTypeTag (Arguments msg).
Proof.
  unfold typeTags. destruct (Arguments msg) as [| a args]; [reflexivity |].
  cbn [length Nat.eqb]. now rewrite fold_left_snoc_map.
Qed.

Lemma marshalArguments_supported (args : list Argument) (typetags payload : bytes) :
  forallb supported args = true ->
  marshalArguments args typetags payload
  = Ok (typetags ++ map getTypeTag args,
        payload ++ concat (map argumentPayload args)).
Proof.
  revert typetags payload.
  induction args as [| a args IH]; intros typetags payload H.
  - cbn. now rewrite !app_nil_r.
  - cbn [forallb] in H. apply andb_prop in H. destruct H as [Ha H].
    destruct a; try discriminate; cbn [marshalArguments map concat];
      try (rewrite (IH _ _ H), <- !app_assoc; reflexivity).
    + rewrite writePaddedString_buf. rewrite (IH _ _ H), <- !app_assoc.
      reflexivity.
    + rewrite (writeBlob_written t payload). cbv zeta.
      rewrite (IH _ _ H). cbn [argumentPayload].
      rewrite (writeBlob_written t []). cbv zeta. cbn [snd app].
      rewrite <- !app_assoc. reflexivity.
Qed.

Lemma marshalArguments_unsupported (args : list Argument) (typetags payload : bytes) :
  forallb supported args = false ->
  marshalArguments args typetags payload = Err ErrUnsupportedType.
Proof.
  revert typetags payload.
  induction args as [| a args IH]; intros typetags payload H; [discriminate |].
  cbn [forallb] in H.
  destruct a; cbn [marshalArguments]; cbn [supported andb] in H;
    try (apply IH; exact H); try reflexivity.
  - destruct (writePaddedString t payload). now apply IH.
  - destruct (writeBlob t payload). now apply IH.
Qed.

Lemma supported_In (args : list Argument) :
  forallb supported args = false <-> In AOther args.
Proof.
  induction args as [| a args IH]; cbn [forallb In].
  - split; [discriminate | tauto].
  - destruct a; cbn [supported andb]; rewrite ?IH;
      try (split; [tauto | intros [H | H]; [discriminate | exact H]]).
    split; [now left | reflexivity].
Qed.

Lemma MarshalBinary_supported (msg : Message) :
  forallb supported (Arguments msg) = true ->
  MarshalBinary msg
  = Ok (snd (writePaddedString (Address msg) [])
        ++ snd (writePaddedString (typeTags msg) [])
        ++ concat (map argumentPayload (Arguments msg))).
Proof.
  intros H. unfold MarshalBinary.
  destruct (writePaddedString (Address msg) []) as [n data] eqn:E.
  rewrite (marshalArguments_supported _ _ _ H).
  rewrite writePaddedString_buf, typeTags_map. cbn [snd app].
  now rewrite <- app_assoc.
Qed.

Lemma len_writePaddedString (str : bytes) :
  len (snd (writePaddedString str [])) mod 4 = 0
  /\ 4 <= len (snd (writePaddedString str [])).
Proof.
  rewrite (writePaddedString_written str []). cbv zeta. cbn [snd app].
  set (t := if 0 <? Index str NUL then _ else _).
  pose proof (len_nonneg t) as Ht.
  pose proof (padBytesNeeded_range (len t + 1) ltac:(lia)) as Hp.
  pose proof (padBytesNeeded_aligned (len t + 1) ltac:(lia)) as Ha.
  assert (Hl : len (t ++ NUL :: make (padBytesNeeded (len t + 1)))
               = len t + 1 + padBytesNeeded (len t + 1)).
  { change (NUL :: make (padBytesNeeded (len t + 1)))
      with ([NUL] ++ make (padBytesNeeded (len t + 1))).
    rewrite !len_app, len_make by lia. change (len [NUL]) with 1. lia. }
  rewrite Hl. split; [exact Ha |].
  Z.to_euclidean_division_equations; lia.
Qed.

Lemma len_argumentPayload (a : Argument) : len (argumentPayload a) mod 4 = 0.
Proof.
  destruct a; cbn [argumentPayload]; try reflexivity;
    unfold Timetag_MarshalBinary; rewrite ?len_be_bytes; try reflexivity.
  - apply len_writePaddedString.
  - rewrite (writeBlob_written t []). cbv zeta. cbn [snd app].
    pose proof (len_nonneg t) as Ht.
    pose proof (padBytesNeeded_range (len t) ltac:(lia)) as Hp.
    pose proof (padBytesNeeded_aligned (len t) ltac:(lia)) as Ha.
    rewrite !len_app, len_be_bytes, len_make by lia.
    change (Z.of_nat 4) with 4.
    Z.to_euclidean_division_equations; lia.
Qed.

Lemma len_payload (args : list Argument) :
  len (concat (map argumentPayload args)) mod 4 = 0
  /\ 0 <= len (concat (map argumentPayload args)).
Proof.
  split; [| apply len_nonneg].
  induction args as [| a args IH]; [reflexivity |].
  cbn [map concat]. rewrite len_app.
  pose proof (len_argumentPayload a).
  Z.to_euclidean_division_equations; lia.
Qed.

(** X4: when every argument has a type the switch knows, [MarshalBinary]
    returns the padded address, then the padded tag string, which is the
    one [typeTags] returns, then the payloads of the arguments in their
    order. *)
Theorem MarshalBinary_layout (msg : Message) :
  forallb supported (Arguments msg) = true ->
  MarshalBinary msg
  = Ok (snd (writePaddedString (Address msg) [])
        ++ snd (writePaddedString (typeTags msg) [])
        ++ concat (map argumentPayload (Arguments msg))).
Proof. apply MarshalBinary_supported. Qed.

Lemma MarshalBinary_layout_witness :
  forallb supported (Arguments sampleMessage) = true
  /\ MarshalBinary sampleMessage
     = Ok (snd (writePaddedString (Address sampleMessage) [])
           ++ snd (writePaddedString (typeTags sampleMessage) [])
           ++ concat (map argumentPayload (Arguments sampleMessage))).
Proof.
  split; [reflexivity | apply (MarshalBinary_layout sampleMessage); reflexivity].
Defined.

(** X5: [MarshalBinary] fails exactly when an argument has a type outside
    the switch, and then with the unsupported-type error; nothing else
    makes it fail. *)
Theorem MarshalBinary_unsupported (msg : Message) :
  (MarshalBinary msg = Err ErrUnsupportedType <-> In AOther (Arguments msg))
  /\ (forall e, MarshalBinary msg = Err e -> e = ErrUnsupportedType)
  /\ ((exists data, MarshalBinary msg = Ok data)
      <-> forallb supported (Arguments msg) = true).
Proof.
  assert (HE : forallb supported (Arguments msg) = false ->
               MarshalBinary msg = Err ErrUnsupportedType).
  { intros H. unfold MarshalBinary.
    destruct (writePaddedString (Address msg) []).
    now rewrite (marshalArguments_unsupported _ _ _ H). }
  pose proof (MarshalBinary_supported msg) as HO.
  destruct (forallb supported (Arguments msg)) eqn:E.
  - specialize (HO eq_refl). rewrite HO. repeat split; try discriminate.
    + intros H. apply supported_In in H. congruence.
    + now eexists.
  - specialize (HE eq_refl). rewrite HE. repeat split; try discriminate.
    + intros _. now apply supported_In.
    + now intros e [= <-].
    + now intros [data H].
Qed.

(** X6: whatever [MarshalBinary] returns has a length that is a multiple of
    four, and at least eight bytes. *)
Theorem MarshalBinary_aligned (msg : Message) (data : bytes) :
  MarshalBinary msg = Ok data -> len data mod 4 = 0 /\ 8 <= len data.
Proof.
  intros H.
  destruct (forallb supported (Arguments msg)) eqn:E.
  - rewrite (MarshalBinary_supported msg E) in H. injection H as <-.
    rewrite !len_app.
    pose proof (len_writePaddedString (Address msg)) as [H1 H2].
    pose proof (len_writePaddedString (typeTags msg)) as [H3 H4].
    pose proof (len_payload (Arguments msg)) as [H5 H6].
    split; [Z.to_euclidean_division_equations; lia | lia].
  - unfold MarshalBinary in H.
    destruct (writePaddedString (Address msg) []).
    now rewrite (marshalArguments_unsupported _ _ _ E) in H.
Qed.

Lemma MarshalBinary_aligned_witness :
  MarshalBinary nullStringMessage
  = Ok (lit "/a" ++ [NUL; NUL] ++ lit ",s" ++ [NUL; NUL]
        ++ lit "a" ++ [NUL; NUL; NUL])
  /\ len (lit "/a" ++ [NUL; NUL] ++ lit ",s" ++ [NUL; NUL]
          ++ lit "a" ++ [NUL; NUL; NUL]) mod 4 = 0
  /\ 8 <= len (lit "/a" ++ [NUL; NUL] ++ lit ",s" ++ [NUL; NUL]
               ++ lit "a" ++ [NUL; NUL; NUL]).
Proof.
  split; [reflexivity |].
  apply (MarshalBinary_aligned nullStringMessage). reflexivity.
Defined.

(** X8: [ClearData] leaves the address and no argument, [Clear] leaves the
    empty address and no argument; a cleared message always encodes, to
    the same eight bytes, whatever arguments it held; and appending after
    [ClearData] gives the message [NewMessage] builds from the address and
    the appended arguments. *)
Theorem Clear_MarshalBinary (msg : Message) :
  Address (ClearData msg) = Address msg
  /\ Arguments (ClearData msg) = []
  /\ Address (Clear msg) = []
  /\ Arguments (Clear msg) = []
  /\ MarshalBinary (Clear msg)
     = Ok ([NUL; NUL; NUL; NUL] ++ lit "," ++ [NUL; NUL; NUL])
  /\ typeTags (ClearData msg) = lit ","
  /\ (forall args,
         Append (ClearData msg) args = NewMessage (Address msg) args).
Proof.
  assert (HC : ClearData msg = mkMessage (Address msg) []).
  { unfold ClearData. now rewrite skipn_all. }
  assert (HK : Clear msg = mkMessage [] []).
  { unfold Clear, ClearData. cbn [Arguments Address]. now rewrite skipn_all. }
  rewrite HC, HK. repeat split.
Qed.

(** ** The reading primitives on every input *)

Lemma splitAfter_None (d : byte) (s : bytes) :
  forallb (fun c => negb (Ascii.eqb c d)) s = true -> splitAfter d s = None.
Proof.
  induction s as [| x s IH]; cbn [forallb splitAfter]; [reflexivity |].
  intros H. apply andb_prop in H. destruct H as [H1 H2].
  destruct (Ascii.eqb x d); [discriminate |]. now rewrite (IH H2).
Qed.

Lemma firstn_len_app (s rest : bytes) :
  firstn (Z.to_nat (len s)) (s ++ rest) = s.
Proof. unfold len. rewrite Nat2Z.id. apply firstn_length_app. Qed.

(** X9: [readPaddedString] on any input.  Without a null byte ahead it
    fails with [EOF].  With the string [s] and its terminator ahead it
    returns [s] and the padded length of [s], a multiple of four, after
    taking at most the padding from what follows, whatever those bytes
    are; it fails with [EOF] when padding is due and nothing follows. *)
Theorem readPaddedString_any (b : Reader) :
  (0 < size b)%nat ->
  (nullFree (stream b) = true -> fst (readPaddedString b) = Err EOF)
  /\ (forall s tail,
         nullFree s = true ->
         stream b = s ++ NUL :: tail ->
         (0 < padBytesNeeded (len s + 1) -> tail = [] ->
          fst (readPaddedString b) = Err EOF)
         /\ (padBytesNeeded (len s + 1) = 0 \/ tail <> [] ->
             exists p b',
               readPaddedString b
               = (Ok (s, len s + 1 + padBytesNeeded (len s + 1)), b')
               /\ tail = p ++ stream b'
               /\ len p <= padBytesNeeded (len s + 1)
               /\ (0 < padBytesNeeded (len s + 1) -> 0 < len p)
               /\ (len s + 1 + padBytesNeeded (len s + 1)) mod 4 = 0)).
Proof.
  intros Hsz. pose proof (ReadString_spec NUL b Hsz) as H. split.
  - intros Hn. unfold nullFree in Hn.
    rewrite (splitAfter_None NUL _ Hn) in H.
    destruct H as (b' & E & _). unfold readPaddedString. now rewrite E.
  - intros s tail Hs Hst.
    rewrite Hst, (splitAfter_intro NUL s tail Hs) in H.
    destruct H as (b1 & E & Hs1 & Hsz1 & _).
    pose proof (len_nonneg s) as Hl.
    pose proof (padBytesNeeded_range (len s + 1) ltac:(lia)) as Hp.
    pose proof (padBytesNeeded_aligned (len s + 1) ltac:(lia)) as Ha.
    assert (HR : readPaddedString b
                 = if 0 <? padBytesNeeded (len s + 1) then
                     match Read (Z.to_nat (padBytesNeeded (len s + 1))) b1 with
                     | (Err e, reader) => (Err e, reader)
                     | (Ok _, reader) =>
                         (Ok (s, len s + 1 + padBytesNeeded (len s + 1)), reader)
                     end
                   else (Ok (s, len s + 1), b1)).
    { unfold readPaddedString. rewrite E.
      rewrite len_app. change (len [NUL]) with 1.
      replace (len s + 1 - 1) with (len s) by lia.
      rewrite firstn_len_app. reflexivity. }
    rewrite HR. clear HR E.
    destruct (0 <? padBytesNeeded (len s + 1)) eqn:Ep;
      [apply Z.ltb_lt in Ep | apply Z.ltb_ge in Ep].
    + pose proof (Read_spec (Z.to_nat (padBytesNeeded (len s + 1))) b1
                    ltac:(lia)) as HR.
      rewrite Hs1 in HR. destruct tail as [| x tail'].
      * split; [intros _ _; now rewrite HR |].
        intros [H0 | H0]; [lia | congruence].
      * destruct HR as (p & b' & ER & Hp0 & Hlen & Hst' & _).
        split; [discriminate |]. intros _. rewrite ER.
        exists p, b'. split; [reflexivity |]. split; [exact Hst' |].
        split; [unfold len at 1; lia |]. split; [| exact Ha].
        intros _. destruct p; [congruence | unfold len; simpl; lia].
    + split; [lia |]. intros _. exists [], b1.
      assert (E0 : padBytesNeeded (len s + 1) = 0) by lia.
      rewrite E0 in *. rewrite Z.add_0_r.
      split; [reflexivity |]. split; [now rewrite Hs1 |].
      split; [unfold len; simpl; lia |]. split; [lia |].
      now rewrite Z.add_0_r in Ha.
Qed.

Lemma readPaddedString_any_witness :
  (0 < size (NewReader (lit "/ab" ++ [NUL] ++ lit ",")))%nat
  /\ (nullFree (stream (NewReader (lit "/ab" ++ [NUL] ++ lit ","))) = true ->
      fst (readPaddedString (NewReader (lit "/ab" ++ [NUL] ++ lit ",")))
      = Err EOF)
  /\ exists p b',
      readPaddedString (NewReader (lit "/ab" ++ [NUL] ++ lit ","))
      = (Ok (lit "/ab", 4), b')
      /\ lit "," = p ++ stream b'.
Proof.
  assert (Hsz : (0 < size (NewReader (lit "/ab" ++ [NUL] ++ lit ",")))%nat)
    by (vm_compute; lia).
  split; [exact Hsz |].
  destruct (readPaddedString_any _ Hsz) as [H1 H2].
  split; [exact H1 |].
  destruct (H2 (lit "/ab") (lit ",") eq_refl eq_refl) as [_ H3].
  destruct (H3 (or_introl eq_refl)) as (p & b' & E & Ht & _).
  exists p, b'. split; [exact E | exact Ht].
Defined.

Lemma binaryRead_Ok (n : nat) (b b1 : Reader) (u : Z) :
  binaryRead n b = (Ok u, b1) ->
  u = be_uint (firstn n (stream b))
  /\ stream b1 = skipn n (stream b)
  /\ (n <= length (stream b))%nat
  /\ size b1 = size b.
Proof.
  intros H. unfold binaryRead in H.
  pose proof (ReadFull_spec n b) as HS.
  destruct (n <=? length (stream b))%nat eqn:E.
  - destruct HS as (b' & HF & Hs & Hz & _). rewrite HF in H.
    injection H as <- <-. apply Nat.leb_le in E. now repeat split.
  - destruct HS as (e & b' & HF & _). now rewrite HF in H.
Qed.

Lemma readBlob_Ok (b b' : Reader) (blob : bytes) (n : Z) :
  readBlob b = (Ok (blob, n), b') ->
  exists hdr tail,
    stream b = hdr ++ blob ++ tail
    /\ length hdr = 4%nat
    /\ to_int32 (be_uint hdr) = len blob
    /\ 1 <= len blob
    /\ n = 4 + len blob + padBytesNeeded (len blob)
    /\ n mod 4 = 0.
Proof.
  intros H. unfold readBlob in H.
  destruct (binaryRead 4 b) as [[u | e] b1] eqn:EB; [| discriminate].
  apply binaryRead_Ok in EB. destruct EB as (Hu & Hs1 & Hlen & _).
  destruct ((to_int32 u <? 1) || (to_int32 (Buffered b1) <? to_int32 u))
    eqn:EC; [discriminate |].
  apply orb_false_iff in EC. destruct EC as [E1 E2].
  apply Z.ltb_ge in E1. apply Z.ltb_ge in E2.
  pose proof (to_int32_le (len (buf b1)) (len_nonneg _)) as Hle.
  unfold Buffered in E2.
  set (L := to_int32 u) in *.
  assert (HR : Read (Z.to_nat L) b1
               = (Ok (firstn (Z.to_nat L) (buf b1)),
                  mkReader (skipn (Z.to_nat L) (buf b1)) (rd b1) (size b1))).
  { unfold Read. destruct (Z.to_nat L) eqn:EL; [lia |].
    destruct (buf b1) eqn:Ebuf; [unfold len in *; simpl in *; lia |].
    reflexivity. }
  rewrite HR in H. clear HR.
  assert (Hgot : len (firstn (Z.to_nat L) (buf b1)) = L).
  { unfold len in *. rewrite length_firstn. lia. }
  rewrite Hgot, Z.sub_diag in H. change (make 0) with (@nil byte) in H.
  rewrite app_nil_r in H.
  pose proof (padBytesNeeded_range L ltac:(lia)) as Hp.
  pose proof (padBytesNeeded_aligned L ltac:(lia)) as Ha.
  assert (HB : blob = firstn (Z.to_nat L) (buf b1)
               /\ n = 4 + L + padBytesNeeded L).
  { destruct (0 <? padBytesNeeded L) eqn:Ep.
    - destruct (Read (Z.to_nat (padBytesNeeded L)) _) as [[got | e] b2];
        [| discriminate].
      split; congruence.
    - apply Z.ltb_ge in Ep.
      assert (Hn : n = 4 + L) by congruence.
      split; [congruence | lia]. }
  destruct HB as [-> ->].
  exists (firstn 4 (stream b)), (skipn (Z.to_nat L) (buf b1) ++ rd b1).
  split.
  { rewrite (app_assoc (firstn _ (buf b1))), firstn_skipn.
    fold (stream b1). rewrite Hs1. now rewrite firstn_skipn. }
  split; [rewrite length_firstn; lia |].
  rewrite <- Hu. fold L. rewrite Hgot.
  split; [reflexivity |]. split; [lia |]. split; [reflexivity |].
  Z.to_euclidean_division_equations; lia.
Qed.

(** X11: a blob [readBlob] returns is made of the bytes that follow the
    four-byte length, as many as the length declares and at least one; the
    count returned is four, the length and the padding of the length, a
    multiple of four. *)
Theorem readBlob_sound (b b' : Reader) (blob : bytes) (n : Z) :
  readBlob b = (Ok (blob, n), b') ->
  exists hdr tail,
    stream b = hdr ++ blob ++ tail
    /\ length hdr = 4%nat
    /\ to_int32 (be_uint hdr) = len blob
    /\ 1 <= len blob
    /\ n = 4 + len blob + padBytesNeeded (len blob)
    /\ n mod 4 = 0.
Proof. apply readBlob_Ok. Qed.

Lemma readBlob_sound_witness :
  exists hdr tail,
    stream (mkReader (be_bytes 4 3 ++ lit "xyz" ++ lit "!") [] defaultBufSize)
    = hdr ++ lit "xyz" ++ tail
    /\ length hdr = 4%nat
    /\ to_int32 (be_uint hdr) = len (lit "xyz")
    /\ 1 <= len (lit "xyz")
    /\ 8 = 4 + len (lit "xyz") + padBytesNeeded (len (lit "xyz"))
    /\ 8 mod 4 = 0.
Proof.
  apply (readBlob_sound
           (mkReader (be_bytes 4 3 ++ lit "xyz" ++ lit "!") [] defaultBufSize)
           (mkReader [] [] defaultBufSize) (lit "xyz") 8).
  vm_compute. reflexivity.
Defined.

Lemma readBlob_invalid_length_witness :
  readBlob (mkReader (be_bytes 4 9 ++ lit "xyz") [] defaultBufSize)
  = (Err (ErrInvalidBlobLength (to_int32 9)),
     mkReader (lit "xyz") [] defaultBufSize).
Proof.
  apply (readBlob_invalid_length
           (mkReader (be_bytes 4 9 ++ lit "xyz") [] defaultBufSize)
           (mkReader (lit "xyz") [] defaultBufSize) 9).
  - vm_compute. reflexivity.
  - right. vm_compute. reflexivity.
Defined.

(** ** Writing, then reading *)

Lemma truncateAtNull_nullFree (s : bytes) : nullFree (truncateAtNull s) = true.
Proof.
  induction s as [| x s IH]; [reflexivity |].
  cbn [truncateAtNull]. destruct (Ascii.eqb x NUL) eqn:E; [reflexivity |].
  cbn [nullFree forallb]. now rewrite E.
Qed.

Lemma paddedStringDoc_truncate (s : bytes) :
  paddedStringDoc (truncateAtNull s) = paddedStringDoc s.
Proof.
  unfold paddedStringDoc.
  now rewrite (nullFree_truncate _ (truncateAtNull_nullFree s)).
Qed.

Lemma app_eq_prefix {A} (d r l1 l2 : list A) :
  l1 ++ l2 = d ++ r -> (length d <= length l1)%nat ->
  exists r1, l1 = d ++ r1 /\ r = r1 ++ l2.
Proof.
  revert l1. induction d as [| x d IH]; intros l1 H Hl.
  - exists l1. now split.
  - destruct l1 as [| y l1]; [simpl in Hl; lia |].
    cbn [app] in H. injection H as -> H.
    destruct (IH l1 H) as (r1 & -> & ->); [simpl in Hl; lia |].
    now exists r1.
Qed.

(** X10: what [writePaddedString] wrote for a string that does not begin
    with a null byte, [readPaddedString] reads back: it returns the string
    up to its first null byte and the count the writer returned, and
    leaves what follows unread.  This holds when the written bytes lie in
    the reader's buffer, and when the reader stands at a multiple of four
    bytes of an input and has a capacity that are multiples of four. *)
Theorem readPaddedString_writePaddedString (str rest : bytes) (b : Reader) :
  Index str NUL <> 0 ->
  stream b = snd (writePaddedString str []) ++ rest ->
  (length (snd (writePaddedString str [])) <= length (buf b))%nat
  \/ wordAligned b ->
  exists b',
    readPaddedString b
    = (Ok (truncateAtNull str, fst (writePaddedString str [])), b')
    /\ stream b' = rest.
Proof.
  intros HI. rewrite (writePaddedString_doc str [] HI). cbn [fst snd app].
  rewrite <- (paddedStringDoc_truncate str).
  pose proof (truncateAtNull_nullFree str) as Hn.
  intros Hs [Hb | Hb].
  - destruct (app_eq_prefix _ _ _ _ Hs Hb) as (r1 & E1 & E2).
    destruct b as [bf r sz]. cbn [buf rd] in *. subst bf rest.
    exists (mkReader r1 r sz). split; [| reflexivity].
    now apply readPaddedString_buffered.
  - destruct (readPaddedString_stream _ rest b Hb Hn Hs) as (b' & E & Hs' & _).
    now exists b'.
Qed.

Lemma readPaddedString_writePaddedString_witness :
  exists b',
    readPaddedString (NewReader (lit "/a" ++ [NUL; NUL] ++ lit ","))
    = (Ok (truncateAtNull (lit "/a"), fst (writePaddedString (lit "/a") [])), b')
    /\ stream b' = lit ",".
Proof.
  apply (readPaddedString_writePaddedString (lit "/a") (lit ",")
           (mkReader (lit "/a" ++ [NUL; NUL] ++ lit ",") [] defaultBufSize)).
  - vm_compute. discriminate.
  - reflexivity.
  - left. vm_compute. lia.
Defined.

(** X13: what [writeBlob] wrote and which lies in the reader's buffer,
    [readBlob] reads back with the count the writer returned, leaving what
    follows unread; except the empty blob, which is written as a length of
    zero and refused. *)
Theorem readBlob_writeBlob (data rest r : bytes) (sz : nat) :
  len (snd (writeBlob data []) ++ rest) < 2 ^ 31 ->
  readBlob (mkReader (snd (writeBlob data []) ++ rest) r sz)
  = (match data with
     | [] => Err (ErrInvalidBlobLength 0)
     | _ :: _ => Ok (data, fst (writeBlob data []))
     end, mkReader rest r sz).
Proof.
  rewrite (writeBlob_written data []). cbv zeta. cbn [fst snd app].
  pose proof (len_nonneg data) as H0.
  pose proof (padBytesNeeded_range (len data) H0) as Hp.
  intros Hlen. destruct data as [| x data].
  - cbn [len length Z.of_nat app]. unfold readBlob.
    change (be_bytes 4 (to_int32 0) ++ make (padBytesNeeded 0))
      with (be_bytes 4 0 ++ []).
    rewrite app_nil_r, binaryRead_buffered by lia. reflexivity.
  - rewrite !len_app, len_be_bytes in Hlen. rewrite len_make in Hlen by lia.
    change (Z.of_nat 4) with 4 in Hlen.
    pose proof (len_nonneg rest).
    rewrite !len_app, len_be_bytes, len_make by lia.
    change (Z.of_nat 4) with 4.
    pose proof (readBlob_buffered (x :: data) rest r sz ltac:(discriminate))
      as HB.
    cbn [wireArgument] in HB. rewrite <- !app_assoc in HB.
    rewrite <- !app_assoc, Z.add_assoc. apply HB.
    rewrite !len_app, len_make by lia. lia.
Qed.

Lemma readBlob_writeBlob_witness :
  readBlob (mkReader (snd (writeBlob (lit "xyz") []) ++ lit "!") []
                     defaultBufSize)
  = (Ok (lit "xyz", fst (writeBlob (lit "xyz") [])),
     mkReader (lit "!") [] defaultBufSize).
Proof.
  apply (readBlob_writeBlob (lit "xyz") (lit "!") [] defaultBufSize).
  vm_compute. reflexivity.
Defined.

(** ** What the decoder returns *)

Lemma to_int32_range (x : Z) : - 2 ^ 31 <= to_int32 x < 2 ^ 31.
Proof.
  unfold to_int32.
  pose proof (Z.mod_pos_bound (x + 2 ^ 31) (2 ^ 32) ltac:(lia)). lia.
Qed.

Lemma to_int64_range (x : Z) : - 2 ^ 63 <= to_int64 x < 2 ^ 63.
Proof.
  unfold to_int64.
  pose proof (Z.mod_pos_bound (x + 2 ^ 63) (2 ^ 64) ltac:(lia)). lia.
Qed.

Lemma be_uint_fold_range (bs : bytes) (acc : Z) :
  0 <= acc ->
  acc * 2 ^ (8 * len bs)
  <= fold_left (fun acc b => Z.lor (Z.shiftl acc 8) (Z_of_byte b)) bs acc
  < (acc + 1) * 2 ^ (8 * len bs).
Proof.
  revert acc. induction bs as [| b bs IH]; intros acc Hacc.
  - cbn. lia.
  - cbn [fold_left].
    pose proof (Z_of_byte_range b) as Hb.
    rewrite (lor_shiftl_byte acc _ Hacc Hb).
    specialize (IH (acc * 256 + Z_of_byte b) ltac:(lia)).
    pose proof (len_nonneg bs) as Hl.
    replace (len (b :: bs)) with (len bs + 1)
      by (unfold len; cbn [length]; lia).
    replace (8 * (len bs + 1)) with (8 * len bs + 8) by lia.
    rewrite Z.pow_add_r by lia. change (2 ^ 8) with 256.
    assert (0 < 2 ^ (8 * len bs)) by (apply Z.pow_pos_nonneg; lia).
    nia.
Qed.

Lemma be_uint_range (bs : bytes) : 0 <= be_uint bs < 2 ^ (8 * len bs).
Proof.
  pose proof (be_uint_fold_range bs 0 ltac:(lia)) as H.
  unfold be_uint. lia.
Qed.

Lemma binaryRead_range (n : nat) (b b1 : Reader) (u : Z) :
  binaryRead n b = (Ok u, b1) -> 0 <= u < 2 ^ (8 * Z.of_nat n).
Proof.
  intros H. apply binaryRead_Ok in H. destruct H as (-> & _ & Hlen & _).
  pose proof (be_uint_range (firstn n (stream b))) as HR.
  unfold len in HR. rewrite length_firstn in HR.
  now replace (Nat.min n (length (stream b))) with n in HR by lia.
Qed.

Lemma notIn_nullFree (s : bytes) : ~ In NUL s -> nullFree s = true.
Proof.
  induction s as [| x s IH]; [reflexivity |]. intros H.
  cbn [nullFree forallb]. destruct (Ascii.eqb x NUL) eqn:E.
  - apply Ascii.eqb_eq in E. subst x. exfalso. apply H. now left.
  - cbn [negb andb]. apply IH. intros Hin. apply H. now right.
Qed.

Lemma readPaddedString_Ok (b b' : Reader) (s : bytes) (n : Z) :
  (0 < size b)%nat ->
  readPaddedString b = (Ok (s, n), b') ->
  nullFree s = true
  /\ (exists tail, stream b = s ++ NUL :: tail)
  /\ n = len s + 1 + padBytesNeeded (len s + 1).
Proof.
  intros Hsz H. pose proof (ReadString_spec NUL b Hsz) as HS.
  unfold readPaddedString in H.
  destruct (splitAfter NUL (stream b)) as [[line rest] |] eqn:E.
  - destruct HS as (b1 & ER & _). rewrite ER in H.
    apply splitAfter_Some in E. destruct E as (Hst & pre & -> & Hpre).
    rewrite len_app in H. change (len [NUL]) with 1 in H.
    replace (len pre + 1 - 1) with (len pre) in H by lia.
    rewrite firstn_len_app in H.
    pose proof (len_nonneg pre) as Hl.
    pose proof (padBytesNeeded_range (len pre + 1) ltac:(lia)) as Hp.
    assert (HE : s = pre /\ n = len pre + 1 + padBytesNeeded (len pre + 1)).
    { destruct (0 <? padBytesNeeded (len pre + 1)) eqn:Ep.
      - destruct (Read _ b1) as [[got | e] b2]; [| discriminate].
        split; congruence.
      - apply Z.ltb_ge in Ep.
        assert (n = len pre + 1) by congruence. split; [congruence | lia]. }
    destruct HE as [-> ->]. split; [now apply notIn_nullFree |].
    split; [| reflexivity]. exists rest. rewrite Hst, <- app_assoc.
    reflexivity.
  - destruct HS as (b1 & ER & _). now rewrite ER in H.
Qed.

Lemma forallb_snoc {A} (f : A -> bool) (l : list A) (a : A) :
  forallb f l = true -> f a = true -> forallb f (l ++ [a]) = true.
Proof. intros Hl Ha. rewrite forallb_app, Hl. cbn. now rewrite Ha. Qed.

(** One round of the loop appends at most one argument, one the encoder
    takes and the decoder gives back, and counts it. *)
Lemma readArgument_valid (c : byte) (msg : Message) (st st' : St) (f : flow) :
  (0 < size (reader st))%nat ->
  readArgument c msg st = (Ok f, st') ->
  match f with
  | Next m =>
      exists a, m = Append msg [a] /\ roundTrips a = true
                /\ start st' = start st + counted a
  | ReturnNil m => m = msg /\ start st' = start st
  end.
Proof.
  intros Hsz. unfold readArgument.
  repeat match goal with
         | |- (if Ascii.eqb c ?x then _ else _) _ = _ -> _ =>
             destruct (Ascii.eqb c x)
         end;
    intros H; try discriminate.
  - (* int32 *)
    apply bind_inv in H. destruct H as [(u & st1 & H1 & H) | (e & _ & [=])].
    apply op_inv in H1. destruct H1 as [H1 Hs].
    injection H as <- <-. eexists. split; [reflexivity |].
    cbn [roundTrips counted start]. split; [| now rewrite Hs].
    pose proof (to_int32_range u).
    apply andb_true_intro. split; [apply Z.leb_le | apply Z.ltb_lt]; lia.
  - (* int64 *)
    apply bind_inv in H. destruct H as [(u & st1 & H1 & H) | (e & _ & [=])].
    apply op_inv in H1. destruct H1 as [H1 Hs].
    injection H as <- <-. eexists. split; [reflexivity |].
    cbn [roundTrips counted start]. split; [| now rewrite Hs].
    pose proof (to_int64_range u).
    apply andb_true_intro. split; [apply Z.leb_le | apply Z.ltb_lt]; lia.
  - (* float32 *)
    apply bind_inv in H. destruct H as [(u & st1 & H1 & H) | (e & _ & [=])].
    apply op_inv in H1. destruct H1 as [H1 Hs].
    injection H as <- <-. eexists. split; [reflexivity |].
    cbn [roundTrips counted start]. split; [| now rewrite Hs].
    apply binaryRead_range in H1. change (2 ^ (8 * Z.of_nat 4)) with (2 ^ 32) in H1.
    apply andb_true_intro. split; [apply Z.leb_le | apply Z.ltb_lt]; lia.
  - (* float64 *)
    apply bind_inv in H. destruct H as [(u & st1 & H1 & H) | (e & _ & [=])].
    apply op_inv in H1. destruct H1 as [H1 Hs].
    injection H as <- <-. eexists. split; [reflexivity |].
    cbn [roundTrips counted start]. split; [| now rewrite Hs].
    apply binaryRead_range in H1. change (2 ^ (8 * Z.of_nat 8)) with (2 ^ 64) in H1.
    apply andb_true_intro. split; [apply Z.leb_le | apply Z.ltb_lt]; lia.
  - (* string *)
    apply bind_inv in H.
    destruct H as [([s n] & st1 & H1 & H) | (e & _ & [=])].
    apply op_inv in H1. destruct H1 as [H1 Hs].
    injection H as <- <-. eexists. split; [reflexivity |].
    cbn [roundTrips counted start]. split; [| now rewrite Hs].
    now apply (readPaddedString_Ok _ _ _ _ Hsz) in H1.
  - (* blob *)
    apply bind_inv in H.
    destruct H as [([blob n] & st1 & H1 & H) | (e & _ & [=])].
    apply op_inv in H1. destruct H1 as [H1 Hs].
    injection H as <- <-. eexists. split; [reflexivity |].
    cbn [roundTrips counted start].
    apply readBlob_Ok in H1.
    destruct H1 as (hdr & tail & _ & _ & _ & Hl & Hn & _).
    split; [| rewrite Hs; lia].
    destruct blob; [unfold len in Hl; simpl in Hl; lia | reflexivity].
  - (* timetag *)
    destruct (op (binaryRead 8) st) as [[u | e] st1] eqn:H1;
      apply op_inv in H1; destruct H1 as [H1 Hs].
    + injection H as <- <-. eexists. split; [reflexivity |].
      cbn [roundTrips counted start]. unfold NewTimetagFromTimetag.
      split; [| now rewrite Hs].
      apply binaryRead_range in H1.
      change (2 ^ (8 * Z.of_nat 8)) with (2 ^ 64) in H1.
      apply andb_true_intro. split; [apply Z.leb_le | apply Z.ltb_lt]; lia.
    + injection H as <- <-. now split.
  - injection H as <- <-. exists ANil. cbn. repeat split. lia.
  - injection H as <- <-. exists (ABool true). cbn. repeat split. lia.
  - injection H as <- <-. exists (ABool false). cbn. repeat split. lia.
Qed.

Lemma Append_nil (msg : Message) : Append msg [] = msg.
Proof. unfold Append. rewrite app_nil_r. now destruct msg. Qed.

Lemma countedAll_app (a b : list Argument) :
  countedAll (a ++ b) = countedAll a + countedAll b.
Proof.
  induction a as [| x a IH]; [reflexivity |].
  cbn [app countedAll fold_right] in *. fold (countedAll (a ++ b)).
  fold (countedAll a). lia.
Qed.

(** The loop appends valid arguments, no more than there are tags, and
    counts each. *)
Lemma readArgumentsLoop_valid (typetags : bytes) :
  forall msg st st' m,
    (0 < size (reader st))%nat ->
    readArgumentsLoop typetags msg st = (Ok m, st') ->
    exists args,
      m = Append msg args
      /\ forallb roundTrips args = true
      /\ (length args <= length typetags)%nat
      /\ start st' = start st + countedAll args.
Proof.
  induction typetags as [| c typetags IH]; intros msg st st' m Hsz H.
  - injection H as <- <-. exists []. rewrite Append_nil.
    split; [reflexivity |]. split; [reflexivity |].
    split; [cbn; lia |]. cbn. lia.
  - cbn [readArgumentsLoop] in H. apply bind_inv in H.
    destruct H as [(f & st1 & H1 & H) | (e & _ & [=])].
    pose proof (readArgument_returns c msg st Hsz) as [Hl _].
    rewrite H1 in Hl. cbn [snd] in Hl.
    pose proof (later_size _ _ Hl Hsz) as Hsz1.
    pose proof (readArgument_valid _ _ _ _ _ Hsz H1) as HV.
    destruct f as [m1 | m1].
    + destruct HV as (a & -> & Ha & Hc).
      destruct (IH _ _ _ _ Hsz1 H) as (args & -> & Hargs & Hlen & Hcnt).
      exists (a :: args). rewrite Append_Append.
      split; [reflexivity |]. cbn [forallb length countedAll fold_right].
      fold (countedAll args). rewrite Ha, Hargs.
      split; [reflexivity |]. split; lia.
    + destruct HV as [-> Hc]. injection H as <- <-. exists [].
      rewrite Append_nil.
      split; [reflexivity |]. split; [reflexivity |].
      split; [cbn; lia |]. cbn. lia.
Qed.

Lemma readMessage_Ok (st st' : St) (msg : Message) :
  (0 < size (reader st))%nat ->
  readMessage st = (Ok msg, st') ->
  roundTripsMessage msg = true.
Proof.
  intros Hsz H. unfold readMessage in H. apply bind_inv in H.
  destruct H as [([addr n] & st1 & H1 & H) | (e & _ & [=])].
  apply op_inv in H1. destruct H1 as [H1 Hs1].
  pose proof (readPaddedString_later _ Hsz) as [Hl1 _].
  rewrite H1 in Hl1. cbn [snd] in Hl1.
  pose proof (later_size _ _ Hl1 Hsz) as Hsz1.
  apply (readPaddedString_Ok _ _ _ _ Hsz) in H1. destruct H1 as [Haddr _].
  apply bind_inv in H. destruct H as [([] & st2 & H2 & H) | (e & _ & [=])].
  injection H2 as <-.
  unfold readArguments in H. apply bind_inv in H.
  destruct H as [([typetags n'] & st3 & H3 & H) | (e & _ & [=])].
  apply op_inv in H3. destruct H3 as [H3 Hs3]. cbn [reader] in H3.
  pose proof (readPaddedString_later _ Hsz1) as [Hl3 _].
  rewrite H3 in Hl3. cbn [snd] in Hl3.
  pose proof (later_size _ _ Hl3 Hsz1) as Hsz3.
  apply bind_inv in H. destruct H as [([] & st4 & H4 & H) | (e & _ & [=])].
  injection H4 as <-.
  unfold roundTripsMessage.
  destruct typetags as [| c typetags].
  - injection H as <- _. cbn [NewMessage Address Arguments forallb].
    now rewrite Haddr.
  - destruct (negb (Ascii.eqb c ",")); [discriminate |].
    apply readArgumentsLoop_valid in H; [| exact Hsz3].
    destruct H as (args & -> & Hargs & _).
    cbn [Append NewMessage Address Arguments app]. now rewrite Haddr, Hargs.
Qed.

Lemma readMessage_fresh (msg : Message) (sz : nat) (start0 : Z) :
  nullFree (Address msg) = true ->
  (length (wireMessage msg) <= sz)%nat ->
  readMessage (mkSt (mkReader [] (wireMessage msg) sz) start0)
  = readMessage (mkSt (mkReader (wireMessage msg) [] sz) start0).
Proof.
  intros Haddr Hsz. unfold readMessage, bind, op. cbn [reader start].
  now rewrite (readPaddedString_fresh _ _ (Address msg) _ Hsz Haddr eq_refl).
Qed.

(** X17: every message [readMessage] returns, on any input, is one the
    encoder takes and the decoder gives back: its address and strings hold
    no null byte, its blobs are not empty, its numbers lie within their
    widths.  So it can be encoded, and decoding that encoding gives the
    same message again. *)
Theorem readMessage_reencodes (st st' : St) (msg : Message) :
  (0 < size (reader st))%nat ->
  readMessage st = (Ok msg, st') ->
  roundTripsMessage msg = true
  /\ exists data,
      MarshalBinary msg = Ok data
      /\ forall sz start0,
          (length data <= Nat.max sz 16)%nat -> len data < 2 ^ 31 ->
          fst (readMessage (mkSt (NewReaderSize data sz) start0)) = Ok msg.
Proof.
  intros Hsz H. pose proof (readMessage_Ok _ _ _ Hsz H) as HV.
  split; [exact HV |]. exists (wireMessage msg).
  split; [now apply MarshalBinary_wire |].
  intros sz start0 Hfit Hlen. unfold NewReaderSize.
  pose proof HV as HV'. unfold roundTripsMessage in HV'.
  apply andb_prop in HV'. destruct HV' as [Haddr _].
  rewrite (readMessage_fresh _ _ _ Haddr Hfit).
  destruct (readMessage_wire_buffered msg [] [] (Nat.max sz 16) start0 HV)
    as [s1 E]; [now rewrite app_nil_r |].
  rewrite app_nil_r in E. now rewrite E.
Qed.

Lemma readMessage_reencodes_witness :
  roundTripsMessage (mkMessage (lit "/a") [AInt32 7]) = true
  /\ exists data,
      MarshalBinary (mkMessage (lit "/a") [AInt32 7]) = Ok data
      /\ forall sz start0,
          (length data <= Nat.max sz 16)%nat -> len data < 2 ^ 31 ->
          fst (readMessage (mkSt (NewReaderSize data sz) start0))
          = Ok (mkMessage (lit "/a") [AInt32 7]).
Proof.
  apply (readMessage_reencodes
           (mkSt (NewReader truncatedTimetag) 0)
           (mkSt (mkReader [] [] defaultBufSize) 12)).
  - vm_compute. lia.
  - vm_compute. reflexivity.
Defined.

(** ** The counter [*start] *)

Lemma counted_wire (a : Argument) :
  roundTrips a = true ->
  counted a = len (wireArgument a) - (if shortCounted a then 4 else 0).
Proof.
  intros H. destruct a; cbn [counted wireArgument shortCounted];
    rewrite ?len_be_bytes; try reflexivity; try discriminate.
  - cbn [roundTrips] in H. rewrite (paddedStringDoc_nullFree _ H).
    pose proof (len_nonneg t) as Hl.
    pose proof (padBytesNeeded_range (len t + 1) ltac:(lia)) as Hp.
    change (NUL :: make (padBytesNeeded (len t + 1)))
      with ([NUL] ++ make (padBytesNeeded (len t + 1))).
    rewrite !len_app, len_make by lia. change (len [NUL]) with 1.
    pose proof (string_count_short (len t) Hl). lia.
  - pose proof (len_nonneg t) as Hl.
    pose proof (padBytesNeeded_range (len t) ltac:(lia)) as Hp.
    rewrite !len_app, len_be_bytes, len_make by lia.
    change (Z.of_nat 4) with 4. lia.
Qed.

Lemma countedAll_wire (args : list Argument) :
  forallb roundTrips args = true ->
  countedAll args = len (wireArguments args) - 4 * countShort args.
Proof.
  induction args as [| a args IH]; intros H; [reflexivity |].
  cbn [forallb] in H. apply andb_prop in H. destruct H as [Ha H].
  rewrite wireArguments_cons, len_app.
  cbn [countedAll fold_right]. fold (countedAll args).
  rewrite (IH H), (counted_wire a Ha).
  unfold countShort. cbn [filter].
  destruct (shortCounted a); cbn [length]; lia.
Qed.

Lemma Append_inj (msg : Message) (a b : list Argument) :
  Append msg a = Append msg b -> a = b.
Proof.
  unfold Append. intros [= H]. now apply app_inv_head in H.
Qed.

Lemma readArgumentsLoop_wire_count (args : list Argument) (msg : Message)
      (rest r : bytes) (sz : nat) (start0 : Z) :
  forallb roundTrips args = true ->
  (0 < sz)%nat ->
  len (wireArguments args ++ rest) < 2 ^ 31 ->
  readArgumentsLoop (map getTypeTag args) msg
    (mkSt (mkReader (wireArguments args ++ rest) r sz) start0)
  = (Ok (Append msg args),
     mkSt (mkReader rest r sz)
          (start0 + len (wireArguments args) - 4 * countShort args)).
Proof.
  intros H Hsz Hlen.
  destruct (readArgumentsLoop_wire args H msg rest r sz start0 Hlen)
    as [s1 E].
  rewrite E. do 2 f_equal.
  apply readArgumentsLoop_valid in E; [| exact Hsz].
  destruct E as (args' & HA & _ & _ & Hs). cbn [start] in Hs.
  apply Append_inj in HA. subst args'.
  rewrite Hs, (countedAll_wire args H). lia.
Qed.

Lemma readMessage_wire_count (msg : Message) (rest r : bytes) (sz : nat)
      (start0 : Z) :
  roundTripsMessage msg = true ->
  (0 < sz)%nat ->
  len (wireMessage msg ++ rest) < 2 ^ 31 ->
  readMessage (mkSt (mkReader (wireMessage msg ++ rest) r sz) start0)
  = (Ok msg,
     mkSt (mkReader rest r sz)
          (start0 + len (wireMessage msg) - 4 * countShort (Arguments msg))).
Proof.
  unfold roundTripsMessage. intros H Hsz Hlen. apply andb_prop in H.
  destruct H as [Haddr Hargs]. unfold wireMessage in *.
  rewrite <- !app_assoc in *.
  pose proof (typetags_nullFree _ Hargs) as Htags.
  set (tags := ","%char :: map getTypeTag (Arguments msg)) in *.
  rewrite (readMessage_tags
             (mkSt (mkReader (paddedStringDoc (Address msg)
                              ++ paddedStringDoc tags
                              ++ wireArguments (Arguments msg) ++ rest) r sz)
                   start0)
             _ _ _ _ _ _
             (readPaddedString_buffered (Address msg)
                (paddedStringDoc tags ++ wireArguments (Arguments msg) ++ rest)
                r sz Haddr)
             (readPaddedString_buffered tags
                (wireArguments (Arguments msg) ++ rest) r sz Htags)).
  subst tags.
  cbn [negb Ascii.eqb Bool.eqb andb start].
  rewrite !len_app in Hlen. rewrite !len_app.
  pose proof (len_nonneg (paddedStringDoc (Address msg))).
  pose proof (len_nonneg (paddedStringDoc (","%char :: map getTypeTag (Arguments msg)))).
  rewrite (readArgumentsLoop_wire_count _ _ _ _ _ _ Hargs Hsz)
    by (rewrite len_app; lia).
  f_equal; [now destruct msg | f_equal; lia].
Qed.

(** X18: after [readMessage] has decoded an encoded message, the counter
    [*start] has advanced by the length of the encoding less four for
    every string argument whose length is a multiple of four; it equals
    the number of bytes read exactly when there is no such argument. *)
Theorem readMessage_start (msg : Message) (rest r : bytes) (sz : nat)
        (start0 : Z) :
  roundTripsMessage msg = true ->
  (0 < sz)%nat ->
  len (wireMessage msg ++ rest) < 2 ^ 31 ->
  MarshalBinary msg = Ok (wireMessage msg)
  /\ readMessage (mkSt (mkReader (wireMessage msg ++ rest) r sz) start0)
     = (Ok msg,
        mkSt (mkReader rest r sz)
             (start0 + len (wireMessage msg)
              - 4 * countShort (Arguments msg))).
Proof.
  intros H Hsz Hlen. split; [now apply MarshalBinary_wire |].
  now apply readMessage_wire_count.
Qed.

Lemma readMessage_start_witness :
  MarshalBinary sampleMessage = Ok (wireMessage sampleMessage)
  /\ readMessage
       (mkSt (mkReader (wireMessage sampleMessage ++ lit "/next") []
                       defaultBufSize) 0)
     = (Ok sampleMessage,
        mkSt (mkReader (lit "/next") [] defaultBufSize)
             (0 + len (wireMessage sampleMessage)
              - 4 * countShort (Arguments sampleMessage))).
Proof.
  apply (readMessage_start sampleMessage (lit "/next") [] defaultBufSize 0).
  - reflexivity.
  - vm_compute. lia.
  - vm_compute. reflexivity.
Defined.

(** ** Packets *)

Lemma Peek_buffered (c : byte) (bf r : bytes) (sz : nat) :
  (0 < sz)%nat ->
  Peek 1 (mkReader (c :: bf) r sz) = (Ok [c], mkReader (c :: bf) r sz).
Proof.
  intros Hsz. unfold Peek. cbn [buf size length Nat.ltb Nat.leb andb].
  destruct sz as [| sz]; [lia |]. reflexivity.
Qed.

Lemma Peek_fresh (c : byte) (data : bytes) (sz : nat) :
  (length (c :: data) <= sz)%nat ->
  Peek 1 (mkReader [] (c :: data) sz)
  = (Ok [c], mkReader (c :: data) [] sz).
Proof.
  intros Hsz. unfold Peek. cbn [buf size length Nat.ltb Nat.leb andb].
  destruct sz as [| sz]; [cbn [length] in Hsz; lia |].
  cbn [Nat.leb]. unfold fill. cbn [buf rd size length app].
  rewrite Nat.sub_0_r, firstn_all2, skipn_all2 by exact Hsz.
  reflexivity.
Qed.

Lemma Peek_one (b : Reader) :
  (0 < size b)%nat ->
  match stream b with
  | [] => Peek 1 b = (Err EOF, fill b) /\ stream (fill b) = []
  | c :: _ =>
      exists b', Peek 1 b = (Ok [c], b')
                 /\ stream b' = stream b /\ size b' = size b
                 /\ (b' = b \/ (buf b = [] /\ b' = fill b))
  end.
Proof.
  intros Hsz. destruct b as [bf r sz]. cbn [size] in Hsz.
  destruct sz as [| sz]; [lia |].
  destruct bf as [| c bf].
  - unfold stream, Peek. cbn [buf rd size length app Nat.ltb Nat.leb andb].
    unfold fill. cbn [buf rd size length app]. rewrite Nat.sub_0_r.
    destruct r as [| c r].
    + now split.
    + cbn [firstn skipn length Nat.leb].
      eexists. split; [reflexivity |].
      cbn [buf rd app]. rewrite firstn_skipn.
      split; [reflexivity |]. split; [reflexivity |]. right. now split.
  - unfold stream. cbn [buf rd app].
    exists (mkReader (c :: bf) r (S sz)).
    split; [now apply Peek_buffered; lia |].
    split; [reflexivity |]. split; [reflexivity |]. now left.
Qed.

(** X19: [readPacket] looks at the first byte without consuming it: on an
    empty input it fails with [EOF]; on a first byte other than [/] and
    [#] it fails with the invalid-packet error, leaving the input and the
    counter as they were. *)
Theorem readPacket_dispatch (fuel : nat) (end_ : Z) (st : St) :
  (0 < size (reader st))%nat ->
  (stream (reader st) = [] ->
   fst (readPacket (S fuel) end_ st) = Err EOF)
  /\ (forall c tail,
         stream (reader st) = c :: tail ->
         c <> "/"%char -> c <> "#"%char ->
         fst (readPacket (S fuel) end_ st) = Err ERROR_INVALID_PACKET
         /\ stream (reader (snd (readPacket (S fuel) end_ st))) = c :: tail
         /\ start (snd (readPacket (S fuel) end_ st)) = start st).
Proof.
  intros Hsz. pose proof (Peek_one (reader st) Hsz) as HP. split.
  - intros Hs. rewrite Hs in HP. destruct HP as [HP _].
    cbn [readPacket]. unfold bind, op. now rewrite HP.
  - intros c tail Hs Hc1 Hc2. rewrite Hs in HP.
    destruct HP as (b' & HP & Hs' & _).
    cbn [readPacket]. unfold bind, op. rewrite HP.
    apply Ascii.eqb_neq in Hc1, Hc2. rewrite Hc1, Hc2.
    unfold fail. cbn [fst snd reader start]. now rewrite Hs'.
Qed.

Lemma readPacket_dispatch_witness :
  (0 < size (reader (mkSt (NewReader (lit "x/a")) 3)))%nat
  /\ (stream (reader (mkSt (NewReader (lit "x/a")) 3)) = [] ->
      fst (readPacket 1 9 (mkSt (NewReader (lit "x/a")) 3)) = Err EOF)
  /\ fst (readPacket 1 9 (mkSt (NewReader (lit "x/a")) 3))
     = Err ERROR_INVALID_PACKET
  /\ stream (reader (snd (readPacket 1 9 (mkSt (NewReader (lit "x/a")) 3))))
     = lit "x/a"
  /\ start (snd (readPacket 1 9 (mkSt (NewReader (lit "x/a")) 3))) = 3.
Proof.
  assert (Hsz : (0 < size (reader (mkSt (NewReader (lit "x/a")) 3)))%nat)
    by (vm_compute; lia).
  split; [exact Hsz |].
  destruct (readPacket_dispatch 0 9 _ Hsz) as [H1 H2].
  split; [exact H1 |].
  apply (H2 "x"%char (lit "/a")); [reflexivity | discriminate | discriminate].
Defined.

Lemma wireMessage_head (msg : Message) :
  packetMessage msg = true ->
  exists tl, wireMessage msg = "/"%char :: tl.
Proof.
  unfold packetMessage, roundTripsMessage. intros H.
  apply andb_prop in H. destruct H as [H Hc].
  apply andb_prop in H. destruct H as [Haddr _].
  unfold wireMessage. rewrite (paddedStringDoc_nullFree _ Haddr).
  destruct (Address msg) as [| c a]; [discriminate |].
  apply Ascii.eqb_eq in Hc. subst c. cbn [app]. now eexists.
Qed.

Lemma packetMessage_roundTrips (msg : Message) :
  packetMessage msg = true -> roundTripsMessage msg = true.
Proof. unfold packetMessage. intros H. now apply andb_prop in H. Qed.

Lemma readPacket_message (fuel : nat) (end_ : Z) (st : St) (c : byte)
      (b' : Reader) :
  Peek 1 (reader st) = (Ok [c], b') -> c = "/"%char ->
  readPacket (S fuel) end_ st
  = (msg <- readMessage ;; ret (PMessage msg)) (mkSt b' (start st)).
Proof.
  intros HP ->. cbn [readPacket]. unfold bind at 1. unfold op.
  now rewrite HP.
Qed.

(** A message that lies in the buffer is read back as a packet, and
    counted. *)
Lemma readPacket_wire_count (msg : Message) (rest r : bytes) (sz : nat)
      (fuel : nat) (end_ start0 : Z) :
  packetMessage msg = true ->
  (0 < sz)%nat ->
  len (wireMessage msg ++ rest) < 2 ^ 31 ->
  readPacket (S fuel) end_
    (mkSt (mkReader (wireMessage msg ++ rest) r sz) start0)
  = (Ok (PMessage msg),
     mkSt (mkReader rest r sz)
          (start0 + len (wireMessage msg) - 4 * countShort (Arguments msg))).
Proof.
  intros H Hsz Hlen. destruct (wireMessage_head msg H) as [tl Htl].
  rewrite (readPacket_message fuel end_ _ "/"%char
             (mkReader (wireMessage msg ++ rest) r sz)).
  - unfold bind. cbn [start].
    now rewrite (readMessage_wire_count msg rest r sz start0
                   (packetMessage_roundTrips _ H) Hsz Hlen).
  - cbn [reader]. rewrite Htl. cbn [app]. now apply Peek_buffered.
  - reflexivity.
Qed.

Lemma fill_wordAligned (b : Reader) :
  wordAligned b -> buf b = [] -> wordAligned (fill b).
Proof.
  intros [[H1 [H2 H3]] H4] Hb. unfold wordAligned, wordSized, fill.
  rewrite Hb. cbn [buf rd size length app]. rewrite Nat.sub_0_r.
  unfold len in *. rewrite length_firstn, length_skipn.
  repeat split; try assumption.
  - destruct (Nat.le_ge_cases (size b) (length (rd b))) as [Hle | Hle].
    + replace (length (rd b) - size b)%nat
        with (Z.to_nat (Z.of_nat (length (rd b)) - Z.of_nat (size b))) by lia.
      rewrite Z2Nat.id by lia.
      Z.to_euclidean_division_equations; lia.
    + now replace (length (rd b) - size b)%nat with 0%nat by lia.
  - destruct (Nat.le_ge_cases (size b) (length (rd b))) as [Hle | Hle].
    + now replace (Nat.min (size b) (length (rd b))) with (size b) by lia.
    + now replace (Nat.min (size b) (length (rd b))) with (length (rd b))
        by lia.
Qed.

(** X20: a message whose address begins with [/] goes through
    [MarshalBinary] and [readPacket] unchanged: the packet read from the
    encoding is that message, and nothing is left unread. *)
Theorem readPacket_MarshalBinary (msg : Message) :
  packetMessage msg = true ->
  exists data,
    MarshalBinary msg = Ok data
    /\ forall fuel end_ sz start0,
        ((length data <= Nat.max sz 16)%nat /\ len data < 2 ^ 31)
        \/ (forallb noBlob (Arguments msg) = true /\ Z.of_nat sz mod 4 = 0) ->
        exists st1,
          readPacket (S fuel) end_ (mkSt (NewReaderSize data sz) start0)
          = (Ok (PMessage msg), st1)
          /\ stream (reader st1) = [].
Proof.
  intros H. pose proof (packetMessage_roundTrips _ H) as HR.
  exists (wireMessage msg). split; [now apply MarshalBinary_wire |].
  destruct (wireMessage_head msg H) as [tl Htl].
  intros fuel end_ sz start0 [[Hsz Hlen] | [Hnb Hsz]].
  - unfold NewReaderSize.
    rewrite (readPacket_message fuel end_ _ "/"%char
               (mkReader (wireMessage msg) [] (Nat.max sz 16))).
    + unfold bind. cbn [start].
      pose proof (readMessage_wire_count msg [] [] (Nat.max sz 16) start0 HR
                    ltac:(lia)) as E.
      rewrite app_nil_r in E. rewrite E by exact Hlen.
      eexists. split; reflexivity.
    + cbn [reader]. rewrite Htl in *. now apply Peek_fresh.
    + reflexivity.
  - assert (Hb : wordAligned (NewReaderSize (wireMessage msg) sz)).
    { unfold wordAligned, wordSized, NewReaderSize. cbn [buf rd size].
      pose proof (wireMessage_aligned msg) as Ha.
      repeat split; try assumption; try reflexivity.
      - rewrite Nat2Z.inj_max. change (Z.of_nat 16) with 16.
        Z.to_euclidean_division_equations; lia.
      - lia. }
    assert (Hst : stream (NewReaderSize (wireMessage msg) sz)
                  = wireMessage msg).
    { unfold stream, NewReaderSize. cbn [buf rd app]. reflexivity. }
    remember (NewReaderSize (wireMessage msg) sz) as b0 eqn:Eb0.
    pose proof (Peek_one b0 (wordAligned_size _ Hb)) as HP.
    rewrite Hst, Htl in HP. destruct HP as (b' & HP & Hs' & _ & Hb').
    assert (Hal : wordAligned b').
    { destruct Hb' as [-> | [Hnil ->]]; [exact Hb |].
      now apply fill_wordAligned. }
    rewrite (readPacket_message fuel end_ (mkSt b0 start0) "/"%char b' HP
               eq_refl).
    unfold bind. cbn [reader start].
    destruct (readMessage_wire_stream msg b' [] start0 HR Hnb Hal)
      as (b2 & s1 & E & Hs2 & _).
    { now rewrite Hs', Htl, app_nil_r. }
    rewrite E. eexists. split; [reflexivity | exact Hs2].
Qed.

Lemma readPacket_MarshalBinary_witness :
  packetMessage sampleMessage = true
  /\ exists data,
      MarshalBinary sampleMessage = Ok data
      /\ exists st1,
          readPacket 1 72 (mkSt (NewReaderSize data defaultBufSize) 0)
          = (Ok (PMessage sampleMessage), st1)
          /\ stream (reader st1) = [].
Proof.
  split; [reflexivity |].
  destruct (readPacket_MarshalBinary sampleMessage eq_refl) as [data [H1 H2]].
  exists data. split; [exact H1 |].
  assert (Hd : length data = 72%nat).
  { assert (E : MarshalBinary sampleMessage = Ok (wireMessage sampleMessage))
      by reflexivity.
    rewrite E in H1. injection H1 as <-. reflexivity. }
  apply (H2 0%nat 72 defaultBufSize 0). left. split.
  - rewrite Hd. apply Nat.leb_le. reflexivity.
  - unfold len. rewrite Hd. reflexivity.
Defined.

(** ** Bundles of messages *)

Lemma countShort_nonneg (args : list Argument) : 0 <= countShort args.
Proof. unfold countShort. lia. Qed.

Lemma countShortElems_nonneg (elems : list (Z * Message)) :
  0 <= countShortElems elems.
Proof.
  induction elems as [| e elems IH]; [cbn; lia |].
  cbn [countShortElems fold_right]. fold (countShortElems elems).
  pose proof (countShort_nonneg (Arguments (snd e))). lia.
Qed.

Lemma fold_Bundle_Append (ps es : list Packet) (t : Timetag) :
  fold_left Bundle_Append ps (mkBundle t es) = mkBundle t (es ++ ps).
Proof.
  revert es. induction ps as [| p ps IH]; intros es.
  - cbn. now rewrite app_nil_r.
  - cbn [fold_left Bundle_Append]. rewrite IH, <- app_assoc. reflexivity.
Qed.

Lemma binaryRead_empty (sz : nat) :
  binaryRead 4 (mkReader [] [] sz) = (Err EOF, mkReader [] [] sz).
Proof. reflexivity. Qed.

Lemma readBundleLoop_step (fuel : nat) (end_ : Z) (bundle : Bundle) (st : St) :
  start st < end_ ->
  readBundleLoop (S fuel) end_ bundle st
  = (_ <- op (binaryRead 4) ;;
     _ <- advance 4 ;;
     p <- readPacket fuel end_ ;;
     readBundleLoop fuel end_ (Bundle_Append bundle p)) st.
Proof.
  intros H. apply Z.ltb_lt in H. cbn [readBundleLoop]. now rewrite H.
Qed.

Lemma readBundleLoop_done (fuel : nat) (end_ : Z) (bundle : Bundle) (st : St) :
  end_ <= start st -> readBundleLoop fuel end_ bundle st = (Ok bundle, st).
Proof.
  intros H. apply Z.ltb_ge in H. destruct fuel; cbn [readBundleLoop];
    now rewrite H.
Qed.

(** The loop of [readBundle] over messages that lie in the buffer, when
    the counter stands [4 * k] short of the bytes read so far. *)
Lemma readBundleLoop_wire (sz : nat) (elems : list (Z * Message)) :
  forall bundle s k fuel,
    forallb (fun e => packetMessage (snd e)) elems = true ->
    (0 < sz)%nat -> 0 <= k ->
    (length elems < fuel)%nat ->
    len (concat (map wireElement elems)) < 2 ^ 31 ->
    readBundleLoop fuel (s + len (concat (map wireElement elems)) + 4 * k)
      bundle (mkSt (mkReader (concat (map wireElement elems)) [] sz) s)
    = if k + countShortElems elems =? 0 then
        (Ok (fold_left Bundle_Append
               (map (fun e => PMessage (snd e)) elems) bundle),
         mkSt (mkReader [] [] sz)
              (s + len (concat (map wireElement elems))))
      else
        (Err EOF,
         mkSt (mkReader [] [] sz)
              (s + len (concat (map wireElement elems))
               - 4 * countShortElems elems)).
Proof.
  induction elems as [| e elems IH]; intros bundle s k fuel H Hsz Hk Hf Hlen.
  - cbn [map concat countShortElems fold_right fold_left].
    change (len []) with 0. rewrite !Z.add_0_r, Z.sub_0_r.
    destruct (k =? 0) eqn:Ek; [apply Z.eqb_eq in Ek | apply Z.eqb_neq in Ek].
    + subst k. rewrite Z.add_0_r.
      apply readBundleLoop_done. cbn [start]. lia.
    + destruct fuel as [| fuel]; [cbn [length] in Hf; lia |].
      rewrite readBundleLoop_step by (cbn [start]; lia).
      unfold bind, op. cbn [reader start].
      now rewrite binaryRead_empty.
  - cbn [forallb] in H. apply andb_prop in H. destruct H as [He H].
    cbn [map concat countShortElems fold_right fold_left length] in *.
    fold (countShortElems elems).
    set (rest := concat (map wireElement elems)) in *.
    unfold wireElement in *. destruct e as [l m]. cbn [fst snd] in *.
    rewrite <- !app_assoc in *. rewrite !len_app, len_be_bytes in *.
    change (Z.of_nat 4) with 4 in *.
    pose proof (len_nonneg (wireMessage m)) as Hm.
    pose proof (len_nonneg rest) as Hr.
    pose proof (countShort_nonneg (Arguments m)) as Hc.
    pose proof (countShortElems_nonneg elems) as Hcs.
    destruct fuel as [| fuel]; [lia |].
    rewrite readBundleLoop_step by (cbn [start]; lia).
    destruct fuel as [| fuel]; [lia |].
    unfold bind at 1. unfold op at 1. cbn [reader start].
    rewrite binaryRead_buffered by lia.
    unfold bind at 1. unfold advance at 1. cbn [reader start].
    unfold bind at 1.
    rewrite (readPacket_wire_count m rest [] sz fuel _ (s + 4) He Hsz)
      by (rewrite len_app; lia).
    replace (s + (4 + (len (wireMessage m) + len rest)) + 4 * k)
      with ((s + 4 + len (wireMessage m) - 4 * countShort (Arguments m))
            + len rest + 4 * (k + countShort (Arguments m))) by lia.
    rewrite (IH _ _ (k + countShort (Arguments m)) (S fuel) H Hsz)
      by lia.
    replace (k + countShort (Arguments m) + countShortElems elems)
      with (k + (countShort (Arguments m) + countShortElems elems)) by lia.
    destruct (k + (countShort (Arguments m) + countShortElems elems) =? 0)
      eqn:E0; [apply Z.eqb_eq in E0 |].
    + do 2 f_equal. lia.
    + do 2 f_equal. lia.
Qed.

Lemma wireBundle_head (timetag : Timetag) (elems : list (Z * Message)) :
  exists tl, wireBundle timetag elems = "#"%char :: tl.
Proof. unfold wireBundle. cbn. now eexists. Qed.

Lemma readPaddedString_bundleTag (rest r : bytes) (sz : nat) :
  readPaddedString (mkReader (paddedStringDoc bundleTagString ++ rest) r sz)
  = (Ok (bundleTagString, 8), mkReader rest r sz).
Proof. now rewrite readPaddedString_buffered. Qed.

(** X21: [readPacket] on a bundle of messages that fits the buffer of the
    reader, with [end] at the end of the input.  Whatever the length
    fields hold, it returns the bundle with the timetag and the messages
    in their order and leaves the counter at [end] and nothing unread,
    when no string argument of the messages has a length that is a
    multiple of four; when one has, the counter stays behind [end], the
    loop goes on past the last element, and the result is [EOF]. *)
Theorem readPacket_bundle (timetag : Timetag) (elems : list (Z * Message))
        (sz fuel : nat) (start0 : Z) :
  forallb (fun e => packetMessage (snd e)) elems = true ->
  0 <= timetag < 2 ^ 64 ->
  (length (wireBundle timetag elems) <= Nat.max sz 16)%nat ->
  len (wireBundle timetag elems) < 2 ^ 31 ->
  (length elems + 1 < fuel)%nat ->
  readPacket fuel (start0 + len (wireBundle timetag elems))
    (mkSt (NewReaderSize (wireBundle timetag elems) sz) start0)
  = if countShortElems elems =? 0 then
      (Ok (PBundle (mkBundle timetag
                      (map (fun e => PMessage (snd e)) elems))),
       mkSt (mkReader [] [] (Nat.max sz 16))
            (start0 + len (wireBundle timetag elems)))
    else
      (Err EOF,
       mkSt (mkReader [] [] (Nat.max sz 16))
            (start0 + len (wireBundle timetag elems)
             - 4 * countShortElems elems)).
Proof.
  intros H Ht Hfit Hlen Hf.
  destruct fuel as [| fuel]; [lia |].
  destruct (wireBundle_head timetag elems) as [tl Htl].
  set (data := concat (map wireElement elems)).
  assert (HL : len (wireBundle timetag elems) = 16 + len data).
  { unfold wireBundle. rewrite !len_app, len_be_bytes. fold data.
    change (len (paddedStringDoc bundleTagString)) with 8.
    change (Z.of_nat 8) with 8. lia. }
  pose proof (len_nonneg data) as Hd.
  assert (HP : Peek 1 (mkReader [] (wireBundle timetag elems) (Nat.max sz 16))
               = (Ok ["#"%char],
                  mkReader (wireBundle timetag elems) [] (Nat.max sz 16))).
  { rewrite Htl in *. now apply Peek_fresh. }
  assert (HS : readPaddedString
                 (mkReader (wireBundle timetag elems) [] (Nat.max sz 16))
               = (Ok (bundleTagString, 8),
                  mkReader (be_bytes 8 timetag ++ data) [] (Nat.max sz 16))).
  { unfold wireBundle. apply readPaddedString_bundleTag. }
  rewrite HL in *. clear Htl HL.
  remember (wireBundle timetag elems) as w eqn:Ew.
  cbn [readPacket]. unfold bind at 1. unfold op at 1.
  unfold NewReaderSize. cbn [reader start]. rewrite HP.
  cbn [Ascii.eqb Bool.eqb andb].
  unfold bind at 1. unfold readBundleWith.
  unfold bind at 1. unfold op at 1. cbn [reader start]. rewrite HS.
  unfold bind at 1. unfold advance at 1. cbn [reader start].
  change (negb (bytes_eqb bundleTagString bundleTagString)) with false.
  cbv iota.
  unfold bind at 1. unfold op at 1. cbn [reader start].
  rewrite binaryRead_buffered by lia.
  change (2 ^ (8 * Z.of_nat 8)) with (2 ^ 64). rewrite Z.mod_small by lia.
  unfold bind at 1. unfold advance at 1. cbn [reader start].
  replace (start0 + (16 + len data))
    with (start0 + 8 + 8 + len data + 4 * 0) by lia.
  unfold data.
  rewrite (readBundleLoop_wire (Nat.max sz 16) elems (NewBundle timetag)
             (start0 + 8 + 8) 0 fuel H) by (fold data; lia).
  fold data. cbn [Z.add]. unfold NewBundle.
  rewrite fold_Bundle_Append. cbn [app].
  destruct (countShortElems elems =? 0); unfold ret; do 2 f_equal; lia.
Qed.

Lemma readPacket_bundle_witness :
  readPacket 4 (0 + len (wireBundle 1 sampleElems))
    (mkSt (NewReaderSize (wireBundle 1 sampleElems) defaultBufSize) 0)
  = (Ok (PBundle (mkBundle 1
           [PMessage (NewMessage (lit "/a") []);
            PMessage (NewMessage (lit "/b") [AInt32 7; AStr (lit "abc")])])),
     mkSt (mkReader [] [] defaultBufSize) 48)
  /\ fst (readPacket 4 (0 + len (wireBundle 1 shortElems))
            (mkSt (NewReaderSize (wireBundle 1 shortElems) defaultBufSize) 0))
     = Err EOF.
Proof.
  split.
  - rewrite (readPacket_bundle 1 sampleElems defaultBufSize 4 0).
    + reflexivity.
    + reflexivity.
    + lia.
    + apply Nat.leb_le. reflexivity.
    + reflexivity.
    + cbn [length sampleElems]. lia.
  - rewrite (readPacket_bundle 1 shortElems defaultBufSize 4 0).
    + reflexivity.
    + reflexivity.
    + lia.
    + apply Nat.leb_le. reflexivity.
    + reflexivity.
    + cbn [length shortElems]. lia.
Defined.

(** ** Input that ends early or starts wrongly *)

Lemma ReadAtLeast_short (fuel min : nat) :
  forall got b,
    (min - length got <= fuel)%nat ->
    (length (stream b) < min - length got)%nat ->
    fst (ReadAtLeast fuel min got b)
    = Err match got ++ stream b with
          | [] => EOF
          | _ :: _ => ErrUnexpectedEOF
          end.
Proof.
  induction fuel as [| fuel IH]; intros got b Hf Hs; [lia |].
  cbn [ReadAtLeast].
  assert (E : (min <=? length got)%nat = false) by (apply Nat.leb_gt; lia).
  rewrite E.
  pose proof (Read_spec (min - length got) b ltac:(lia)) as HR.
  destruct (stream b) as [| x s] eqn:Es.
  - rewrite HR. rewrite app_nil_r. now destruct got.
  - destruct HR as (p & b' & HR & Hp & Hlen & Hst & _).
    rewrite HR. rewrite IH.
    + destruct p as [| y p]; [congruence |].
      destruct got; reflexivity.
    + rewrite length_app.
      assert (0 < length p)%nat by (destruct p; [congruence | simpl; lia]).
      lia.
    + rewrite length_app.
      assert (Hl : length (x :: s) = (length p + length (stream b'))%nat)
        by (rewrite Hst, length_app; reflexivity).
      lia.
Qed.

Lemma binaryRead_short (n : nat) (b : Reader) :
  (length (stream b) < n)%nat ->
  fst (binaryRead n b)
  = Err match stream b with
        | [] => EOF
        | _ :: _ => ErrUnexpectedEOF
        end.
Proof.
  intros H. unfold binaryRead, ReadFull.
  pose proof (ReadAtLeast_short n n [] b) as HS.
  cbn [length app] in HS. rewrite Nat.sub_0_r in HS.
  specialize (HS (Nat.le_refl n) H).
  destruct (ReadAtLeast n n [] b) as [[bs | e] b']; cbn [fst] in *;
    [discriminate | congruence].
Qed.

Lemma bind_op_short {B} (n : nat) (k : Z -> M B) (st : St) (e : error) :
  fst (binaryRead n (reader st)) = Err e ->
  fst (bind (op (binaryRead n)) k st) = Err e.
Proof.
  intros H. unfold bind, op.
  destruct (binaryRead n (reader st)) as [[u | e'] b']; cbn [fst] in *;
    [discriminate | congruence].
Qed.

(** X14: an argument cut short by the end of the input.  For the tags [i],
    [f] and [b] with fewer than four bytes left, and [h] and [d] with
    fewer than eight, the round fails: with [EOF] when nothing is left,
    with the unexpected-EOF error when some bytes are.  For the tag [t]
    with fewer than eight bytes left the round makes [readArguments]
    return [nil], with the message as it is. *)
Theorem readArgument_truncated (msg : Message) (st : St) :
  let e := match stream (reader st) with
           | [] => EOF
           | _ :: _ => ErrUnexpectedEOF
           end in
  ((length (stream (reader st)) < 4)%nat ->
   fst (readArgument "i"%char msg st) = Err e
   /\ fst (readArgument "f"%char msg st) = Err e
   /\ fst (readArgument "b"%char msg st) = Err e)
  /\ ((length (stream (reader st)) < 8)%nat ->
      fst (readArgument "h"%char msg st) = Err e
      /\ fst (readArgument "d"%char msg st) = Err e
      /\ fst (readArgument "t"%char msg st) = Ok (ReturnNil msg)).
Proof.
  intros e. split; intros H.
  - pose proof (binaryRead_short 4 _ H) as HB. fold e in HB.
    rewrite readArgument_int32, readArgument_float32, readArgument_blob.
    split; [now apply bind_op_short |].
    split; [now apply bind_op_short |].
    unfold bind, op, readBlob.
    destruct (binaryRead 4 (reader st)) as [[u | e'] b']; cbn [fst] in *;
      [discriminate | congruence].
  - pose proof (binaryRead_short 8 _ H) as HB. fold e in HB.
    rewrite readArgument_int64, readArgument_float64, readArgument_timetag.
    split; [now apply bind_op_short |].
    split; [now apply bind_op_short |].
    unfold op.
    destruct (binaryRead 8 (reader st)) as [[u | e'] b']; cbn [fst] in *;
      [discriminate | reflexivity].
Qed.

Lemma readArgument_truncated_witness :
  fst (readArgument "i"%char (NewMessage (lit "/a") [])
         (mkSt (mkReader [NUL; NUL; NUL] [] defaultBufSize) 8))
  = Err ErrUnexpectedEOF
  /\ fst (readArgument "t"%char (NewMessage (lit "/a") [])
            (mkSt (mkReader [NUL; NUL; NUL] [] defaultBufSize) 8))
     = Ok (ReturnNil (NewMessage (lit "/a") [])).
Proof.
  destruct (readArgument_truncated (NewMessage (lit "/a") [])
              (mkSt (mkReader [NUL; NUL; NUL] [] defaultBufSize) 8))
    as [H4 H8].
  split.
  - apply H4. cbn. lia.
  - apply H8. cbn. lia.
Defined.

Lemma bytes_eqb_false (a b : bytes) : a <> b -> bytes_eqb a b = false.
Proof.
  intros H. unfold bytes_eqb. now destruct (list_eq_dec ascii_dec a b).
Qed.

(** X22: a bundle whose first string is not exactly [#bundle] is refused
    with the start-tag error, which carries the string that was read; the
    string and its padding have been consumed and counted by then. *)
Theorem readBundle_start_tag (s rest r : bytes) (sz fuel : nat)
        (end_ start0 : Z) :
  nullFree s = true ->
  s <> bundleTagString ->
  readBundle fuel end_
    (mkSt (mkReader (paddedStringDoc s ++ rest) r sz) start0)
  = (Err (ErrInvalidBundleStartTag s),
     mkSt (mkReader rest r sz) (start0 + len (paddedStringDoc s))).
Proof.
  intros Hs Hne. unfold readBundle, readBundleWith.
  unfold bind at 1. unfold op at 1. cbn [reader start].
  rewrite (readPaddedString_buffered _ _ _ _ Hs).
  unfold bind at 1. unfold advance at 1. cbn [reader start].
  now rewrite (bytes_eqb_false _ _ Hne).
Qed.

Lemma readBundle_start_tag_witness :
  readBundle 3 20
    (mkSt (mkReader (paddedStringDoc (lit "#Bundle") ++ be_bytes 8 1) []
                    defaultBufSize) 0)
  = (Err (ErrInvalidBundleStartTag (lit "#Bundle")),
     mkSt (mkReader (be_bytes 8 1) [] defaultBufSize)
          (0 + len (paddedStringDoc (lit "#Bundle")))).
Proof.
  apply (readBundle_start_tag (lit "#Bundle") (be_bytes 8 1) []
           defaultBufSize 3 20 0).
  - reflexivity.
  - discriminate.
Defined.

(** ** Handlers *)

Lemma bytes_eqb_eq (a b : bytes) : bytes_eqb a b = true <-> a = b.
Proof.
  unfold bytes_eqb. destruct (list_eq_dec ascii_dec a b); split;
    congruence.
Qed.

Lemma addressExists_In {Handler : Type} (addr : bytes)
      (handlers : list (bytes * Handler)) :
  addressExists addr handlers = true <-> In addr (map fst handlers).
Proof.
  induction handlers as [| [h f] handlers IH]; cbn [addressExists map In fst].
  - split; [discriminate | tauto].
  - destruct (bytes_eqb h addr) eqn:E.
    + apply bytes_eqb_eq in E. split; [now left | reflexivity].
    + rewrite IH. split; [now right |].
      intros [H | H]; [| exact H].
      apply bytes_eqb_eq in H. congruence.
Qed.

(** X23: [addressExists] is true exactly when the address is one of the
    keys, compared byte for byte, and so does not depend on the order in
    which the [range] over the map meets the entries. *)
Theorem addressExists_spec {Handler : Type} (addr : bytes)
        (handlers : list (bytes * Handler)) :
  (addressExists addr handlers = true <-> In addr (map fst handlers))
  /\ (forall handlers',
         (forall e, In e handlers <-> In e handlers') ->
         addressExists addr handlers' = addressExists addr handlers).
Proof.
  split; [apply addressExists_In |].
  intros handlers' HP.
  assert (HI : In addr (map fst handlers) <-> In addr (map fst handlers')).
  { rewrite !in_map_iff. split; intros ([h f] & E & Hin);
      exists (h, f); (split; [exact E | now apply HP]). }
  destruct (addressExists addr handlers) eqn:E1,
           (addressExists addr handlers') eqn:E2; try reflexivity.
  - apply addressExists_In in E1. apply HI, addressExists_In in E1.
    congruence.
  - apply addressExists_In in E2. apply HI, addressExists_In in E2.
    congruence.
Qed.

(** ** The expression built from a pattern *)

Lemma Replace_app (a b : bytes) (old : byte) (new : bytes) :
  Replace (a ++ b) old new = Replace a old new ++ Replace b old new.
Proof. unfold Replace. apply flat_map_app. Qed.

Lemma fold_Replace_app (l : list (byte * bytes)) (a b : bytes) :
  fold_left (fun pattern trs => Replace pattern (fst trs) (snd trs)) l (a ++ b)
  = fold_left (fun pattern trs => Replace pattern (fst trs) (snd trs)) l a
    ++ fold_left (fun pattern trs => Replace pattern (fst trs) (snd trs)) l b.
Proof.
  revert a b. induction l as [| trs l IH]; intros a b; [reflexivity |].
  cbn [fold_left]. now rewrite Replace_app, IH.
Qed.

Lemma regexSource_one (c : byte) : regexSource [c] = translate c.
Proof.
  destruct c as [[] [] [] [] [] [] [] []]; vm_compute; reflexivity.
Qed.

Lemma regexSource_flat_map (pattern : bytes) :
  regexSource pattern = flat_map translate pattern.
Proof.
  induction pattern as [| c pattern IH]; [reflexivity |].
  change (c :: pattern) with ([c] ++ pattern).
  unfold regexSource in *. rewrite fold_Replace_app, IH.
  fold (regexSource [c]). now rewrite regexSource_one.
Qed.

(** X24: the eight replacements of [getRegEx], made one after the other
    over the whole pattern, come to replacing each character of the
    pattern on its own by its entry in the table: no replacement touches
    what an earlier one has put in. *)
Theorem regexSource_translate (pattern : bytes) :
  regexSource pattern = flat_map translate pattern
  /\ translate "."%char = lit "\." /\ translate "("%char = lit "\("
  /\ translate ")"%char = lit "\)" /\ translate "*"%char = lit ".*"
  /\ translate "{"%char = lit "(" /\ translate ","%char = lit "|"
  /\ translate "}"%char = lit ")" /\ translate "?"%char = lit "."
  /\ (forall c,
         existsb (Ascii.eqb c) (lit ".()*{,}?") = false ->
         translate c = [c]).
Proof.
  split; [apply regexSource_flat_map |].
  repeat (split; [reflexivity |]).
  intros c. destruct c as [[] [] [] [] [] [] [] []]; vm_compute;
    intros H; first [reflexivity | discriminate].
Qed.

(** ** Patterns without alternatives *)

Lemma globChar_cases (c : byte) :
  globChar c = true ->
  c = "*"%char \/ c = "?"%char \/ c = "."%char \/ c = "("%char
  \/ c = ")"%char \/ (translate c = [c] /\ isMeta c = false).
Proof.
  destruct c as [[] [] [] [] [] [] [] []]; vm_compute; intros H;
    try discriminate;
    first [ left; reflexivity
          | right; left; reflexivity
          | do 2 right; left; reflexivity
          | do 3 right; left; reflexivity
          | do 4 right; left; reflexivity
          | do 5 right; split; reflexivity ].
Qed.

Lemma isMeta_false (c : byte) :
  isMeta c = false ->
  Ascii.eqb c "\" = false /\ Ascii.eqb c "." = false
  /\ Ascii.eqb c "+" = false /\ Ascii.eqb c "*" = false
  /\ Ascii.eqb c "?" = false /\ Ascii.eqb c "(" = false
  /\ Ascii.eqb c ")" = false /\ Ascii.eqb c "|" = false
  /\ Ascii.eqb c "{" = false.
Proof.
  unfold isMeta. cbn [lit list_ascii_of_string existsb]. intros H.
  repeat (apply orb_false_iff in H; destruct H as [? H]).
  repeat split; assumption.
Qed.

Lemma startsPlain_cons (a : byte) (r : bytes) :
  startsPlain (a :: r) = true ->
  Ascii.eqb a "*" = false /\ Ascii.eqb a "+" = false
  /\ Ascii.eqb a "?" = false /\ Ascii.eqb a "{" = false
  /\ Ascii.eqb a "|" = false /\ Ascii.eqb a ")" = false.
Proof.
  cbn [startsPlain lit list_ascii_of_string existsb]. intros H.
  apply negb_true_iff in H.
  repeat (apply orb_false_iff in H; destruct H as [? H]).
  repeat split; assumption.
Qed.

Lemma startsPlain_translate (c : byte) (rest : bytes) :
  globChar c = true -> startsPlain (translate c ++ rest) = true.
Proof.
  intros H.
  destruct (globChar_cases c H) as [-> | [-> | [-> | [-> | [-> | [E M]]]]]];
    try reflexivity.
  rewrite E. cbn [app startsPlain lit list_ascii_of_string existsb].
  destruct (isMeta_false c M) as (_ & _ & H1 & H2 & H3 & _ & H4 & H5 & H6).
  now rewrite H1, H2, H3, H4, H5, H6.
Qed.

Lemma noRep_cons (a : byte) (r : bytes) :
  noRep (a :: r) = true ->
  Ascii.eqb a "*" = false /\ Ascii.eqb a "+" = false
  /\ Ascii.eqb a "?" = false /\ Ascii.eqb a "{" = false.
Proof.
  cbn [noRep lit list_ascii_of_string existsb]. intros H.
  apply negb_true_iff in H.
  repeat (apply orb_false_iff in H; destruct H as [? H]).
  repeat split; assumption.
Qed.

Lemma startsPlain_noRep (s : bytes) : startsPlain s = true -> noRep s = true.
Proof.
  destruct s as [| a r]; [reflexivity |]. intros H.
  destruct (startsPlain_cons _ _ H) as (H1 & H2 & H3 & H4 & _).
  cbn [noRep lit list_ascii_of_string existsb].
  now rewrite H1, H2, H3, H4.
Qed.

Lemma parseRep_tail (a : regex) (rest : bytes) :
  noRep rest = true ->
  match rest with
  | c :: s' =>
      if Ascii.eqb c "*" then
        match s' with
        | c' :: _ =>
            if Ascii.eqb c' "*" || Ascii.eqb c' "+" || Ascii.eqb c' "?"
               || Ascii.eqb c' "{"
            then None else Some (RStar a, s')
        | [] => Some (RStar a, s')
        end
      else if Ascii.eqb c "+" || Ascii.eqb c "?" || Ascii.eqb c "{"
           then None
           else Some (a, c :: s')
  | [] => Some (a, [])
  end = Some (a, rest).
Proof.
  intros H. destruct rest as [| c s']; [reflexivity |].
  destruct (noRep_cons _ _ H) as (H1 & H2 & H3 & H4).
  now rewrite H1, H2, H3, H4.
Qed.

Lemma parseRep_atom (f : nat) (s : bytes) (a : regex) (rest : bytes) :
  parseAtom f s = Some (a, rest) ->
  noRep rest = true ->
  parseRep (S f) s = Some (a, rest).
Proof.
  intros HA HS. cbn [parseRep]. rewrite HA.
  pose proof (parseRep_tail a rest HS) as HT.
  destruct rest as [| c s']; [reflexivity | exact HT].
Qed.

Lemma parseRep_glob (c : byte) (rest : bytes) (f : nat) :
  globChar c = true -> noRep rest = true ->
  parseRep (S (S f)) (translate c ++ rest) = Some (globAtom c, rest).
Proof.
  intros H HS.
  destruct (globChar_cases c H) as [-> | [-> | [-> | [-> | [-> | [E M]]]]]].
  - (* [*] *)
    change (translate "*"%char ++ rest) with ("."%char :: "*"%char :: rest).
    cbn [parseRep parseAtom Ascii.eqb Bool.eqb andb].
    destruct rest as [| c' r]; [reflexivity |].
    destruct (noRep_cons _ _ HS) as (H1 & H2 & H3 & H4).
    now rewrite H1, H2, H3, H4.
  - (* [?] *)
    apply parseRep_atom; [reflexivity | exact HS].
  - apply parseRep_atom; [reflexivity | exact HS].
  - apply parseRep_atom; [reflexivity | exact HS].
  - apply parseRep_atom; [reflexivity | exact HS].
  - rewrite E. cbn [app].
    destruct (isMeta_false c M) as (H1 & H2 & _ & H4 & H5 & H6 & _).
    apply parseRep_atom; [| exact HS].
    cbn [parseAtom]. rewrite H6, H2, H1, M.
    unfold globAtom. now rewrite H4, H5.
Qed.

Lemma translate_nonempty (c : byte) :
  globChar c = true -> (0 < length (translate c))%nat.
Proof.
  intros H.
  destruct (globChar_cases c H) as [-> | [-> | [-> | [-> | [-> | [E M]]]]]];
    try (cbn; lia).
  rewrite E. cbn. lia.
Qed.

Lemma length_flat_map_translate (p : bytes) :
  forallb globChar p = true ->
  (length p <= length (flat_map translate p))%nat.
Proof.
  induction p as [| c p IH]; intros H; [cbn; lia |].
  cbn [forallb] in H. apply andb_prop in H. destruct H as [Hc H].
  cbn [flat_map length]. rewrite length_app.
  pose proof (translate_nonempty c Hc). specialize (IH H). lia.
Qed.

Lemma startsPlain_flat_map (p : bytes) :
  forallb globChar p = true -> startsPlain (flat_map translate p) = true.
Proof.
  destruct p as [| c p]; intros H; [reflexivity |].
  cbn [forallb] in H. apply andb_prop in H. destruct H as [Hc H].
  cbn [flat_map]. now apply startsPlain_translate.
Qed.

Lemma parseCat_glob (p : bytes) :
  forall f,
    forallb globChar p = true ->
    (length p + 3 <= f)%nat ->
    parseCat f (flat_map translate p) = Some (globRegex p, []).
Proof.
  induction p as [| c p IH]; intros f H Hf.
  - destruct f as [| f]; [lia |]. reflexivity.
  - cbn [forallb] in H. apply andb_prop in H. destruct H as [Hc H].
    cbn [length] in Hf.
    destruct f as [| f]; [lia |].
    cbn [flat_map globRegex].
    pose proof (startsPlain_translate c (flat_map translate p) Hc) as HS.
    pose proof (translate_nonempty c Hc) as HN.
    destruct (translate c ++ flat_map translate p) as [| x s] eqn:Es.
    { apply (f_equal (@length byte)) in Es. rewrite length_app in Es.
      cbn [length] in Es. lia. }
    destruct (startsPlain_cons _ _ HS) as (_ & _ & _ & _ & H5 & H6).
    cbn [parseCat]. rewrite H5, H6. cbn [orb].
    rewrite <- Es.
    destruct f as [| f]; [lia |]. destruct f as [| f]; [lia |].
    rewrite (parseRep_glob c _ f Hc
               (startsPlain_noRep _ (startsPlain_flat_map p H))).
    now rewrite (IH (S (S f)) H ltac:(lia)).
Qed.

Lemma getRegEx_glob (p : bytes) :
  forallb globChar p = true -> getRegEx p = Some (globRegex p).
Proof.
  intros H. unfold getRegEx, Compile. rewrite regexSource_flat_map.
  pose proof (length_flat_map_translate p H) as HL.
  replace (4 * length (flat_map translate p) + 4)%nat
    with (S (4 * length (flat_map translate p) + 3)) by lia.
  cbn [parseAlt]. now rewrite (parseCat_glob p _ H) by lia.
Qed.

Lemma Words_star_any (w : bytes) :
  Words (RStar RAny) w <-> ~ In newline w.
Proof.
  split.
  - intros H. remember (RStar RAny) as re eqn:E.
    induction H as [| | | | | | a | a s t Hs _ Ht IHt]; try discriminate.
    + intros [].
    + injection E as ->. inversion Hs; subst.
      intros [Hin | Hin]; [congruence | now apply IHt].
  - induction w as [| x w IH]; intros H; [constructor |].
    change (x :: w) with ([x] ++ w). constructor.
    + constructor. intros ->. apply H. now left.
    + apply IH. intros Hin. apply H. now right.
Qed.

Lemma Words_globRegex (p : bytes) :
  forall w, Words (globRegex p) w <-> Glob p w.
Proof.
  induction p as [| c p IH]; intros w; cbn [globRegex].
  - split; inversion 1; constructor.
  - unfold globAtom. split.
    + inversion 1 as [| | | a b s t Hs Ht | | | |]; subst.
      apply IH in Ht.
      destruct (Ascii.eqb c "*") eqn:E1;
        [apply Ascii.eqb_eq in E1; subst c |].
      { constructor; [now apply Words_star_any | exact Ht]. }
      destruct (Ascii.eqb c "?") eqn:E2;
        [apply Ascii.eqb_eq in E2; subst c |].
      { inversion Hs; subst. now constructor. }
      apply Ascii.eqb_neq in E1, E2.
      inversion Hs; subst. now constructor.
    + inversion 1 as [| p' w1 w2 Hn Hg | p' x w' Hx Hg | c' p' w' H1 H2 Hg];
        subst.
      * cbn [Ascii.eqb Bool.eqb andb].
        constructor; [now apply Words_star_any | now apply IH].
      * cbn [Ascii.eqb Bool.eqb andb].
        change (x :: w') with ([x] ++ w').
        constructor; [now constructor | now apply IH].
      * apply Ascii.eqb_neq in H1, H2. rewrite H1, H2.
        change (c :: w') with ([c] ++ w').
        constructor; [constructor | now apply IH].
Qed.

Lemma Glob_literal (p w : bytes) :
  forallb (fun c => negb (Ascii.eqb c "*" || Ascii.eqb c "?")) p = true ->
  Glob p w <-> w = p.
Proof.
  revert w. induction p as [| c p IH]; intros w H.
  - split; [now inversion 1 | intros ->; constructor].
  - cbn [forallb] in H. apply andb_prop in H. destruct H as [Hc H].
    apply negb_true_iff, orb_false_iff in Hc. destruct Hc as [H1 H2].
    apply Ascii.eqb_neq in H1, H2. split.
    + inversion 1; subst; try congruence. f_equal. now apply IH.
    + intros ->. constructor; try assumption. now apply IH.
Qed.

(** X25: the address patterns without braces and commas (and without the
    characters that [getRegEx] passes on to [regexp] with a meaning of
    their own).  Such a pattern always compiles, and [Match] is true of an
    address exactly when some part of the address is a word of the
    pattern, [*] standing for any run of characters and [?] for any one
    character, newlines excepted; for a pattern with neither, exactly when
    the address contains the pattern.  Pattern and address are ASCII, the
    characters over which [regexp] is embedded here. *)
Theorem Match_glob (pattern : bytes) (args : list Argument) (addr : bytes) :
  forallb globChar pattern = true ->
  forallb isASCII addr = true ->
  getRegEx pattern = Some (globRegex pattern)
  /\ (Match (NewMessage pattern args) addr = Some true
      <-> exists pre w post, addr = pre ++ w ++ post /\ Glob pattern w)
  /\ (Match (NewMessage pattern args) addr = Some false
      <-> ~ exists pre w post, addr = pre ++ w ++ post /\ Glob pattern w)
  /\ (forallb (fun c => negb (Ascii.eqb c "*" || Ascii.eqb c "?")) pattern
      = true ->
      (Match (NewMessage pattern args) addr = Some true
       <-> exists pre post, addr = pre ++ pattern ++ post)).
Proof.
  intros H _. pose proof (getRegEx_glob pattern H) as HG.
  split; [exact HG |].
  assert (HM : Match (NewMessage pattern args) addr = Some true
               <-> exists pre w post,
                   addr = pre ++ w ++ post /\ Glob pattern w).
  { unfold Match, NewMessage. cbn [Address]. rewrite HG. split.
    - intros [= E]. apply MatchString_Words in E.
      destruct E as (pre & w & post & E & Hw).
      exists pre, w, post. split; [exact E | now apply Words_globRegex].
    - intros (pre & w & post & E & Hw). f_equal.
      apply MatchString_Words. exists pre, w, post.
      split; [exact E | now apply Words_globRegex]. }
  split; [exact HM |]. split.
  - rewrite <- HM. unfold Match, NewMessage. cbn [Address]. rewrite HG.
    destruct (MatchString (globRegex pattern) addr); split; congruence.
  - intros HL. rewrite HM. split.
    + intros (pre & w & post & E & Hw). apply (Glob_literal _ _ HL) in Hw.
      subst w. now exists pre, post.
    + intros (pre & post & E). exists pre, pattern, post.
      split; [exact E | now apply Glob_literal].
Qed.

Lemma Match_glob_witness :
  getRegEx (lit "/foo/*/b?r") = Some (globRegex (lit "/foo/*/b?r"))
  /\ (Match (NewMessage (lit "/foo/*/b?r") []) (lit "/x/foo/1/bar/y")
      = Some true
      <-> exists pre w post,
          lit "/x/foo/1/bar/y" = pre ++ w ++ post
          /\ Glob (lit "/foo/*/b?r") w).
Proof.
  destruct (Match_glob (lit "/foo/*/b?r") [] (lit "/x/foo/1/bar/y")
              eq_refl eq_refl) as (H1 & H2 & _).
  split; [exact H1 | exact H2].
Defined.

(** ** Tags, arguments and padding *)

(** X7: appending arguments appends their tags to the tag string, and two
    appends come to one append of the two lists; a message built by
    [NewMessage] and then appended to is the message [NewMessage] builds
    from all the arguments. *)
Theorem Append_typeTags (msg : Message) (a b : list Argument) :
  typeTags (Append msg a) = typeTags msg ++ map getTypeTag a
  /\ Append (Append msg a) b = Append msg (a ++ b)
  /\ Address (Append msg a) = Address msg
  /\ (forall addr, Append (NewMessage addr a) b = NewMessage addr (a ++ b)).
Proof.
  split; [| split; [| split]].
  - rewrite !typeTags_map. cbn [Append Arguments].
    now rewrite map_app.
  - unfold Append. cbn [Address Arguments]. now rewrite app_assoc.
  - reflexivity.
  - reflexivity.
Qed.

Lemma rem4_cases (n : Z) :
  Z.rem n 4 = 0 \/ Z.rem n 4 = 1 \/ Z.rem n 4 = 2 \/ Z.rem n 4 = 3
  \/ Z.rem n 4 = -1 \/ Z.rem n 4 = -2 \/ Z.rem n 4 = -3.
Proof.
  Z.to_euclidean_division_equations; lia.
Qed.

Lemma padBytesNeeded_opp (n : Z) : padBytesNeeded n = (- n) mod 4.
Proof.
  unfold padBytesNeeded.
  pose proof (rem4_cases n) as HC.
  assert (HE : n = 4 * Z.quot n 4 + Z.rem n 4)
    by (apply Z.quot_rem'; lia).
  destruct HC as [E | [E | [E | [E | [E | [E | E]]]]]]; rewrite E in *;
    cbn; Z.to_euclidean_division_equations; lia.
Qed.

(** X3: for every integer, negative ones too, [padBytesNeeded] lies
    between 0 and 3, brings the length to a multiple of four, and is the
    least amount that does; it is 0 exactly for the multiples of four, and
    it is the same for lengths four apart. *)
Theorem padBytesNeeded_least (n : Z) :
  0 <= padBytesNeeded n < 4
  /\ (n + padBytesNeeded n) mod 4 = 0
  /\ (forall k, 0 <= k -> (n + k) mod 4 = 0 -> padBytesNeeded n <= k)
  /\ (padBytesNeeded n = 0 <-> n mod 4 = 0)
  /\ padBytesNeeded (n + 4) = padBytesNeeded n.
Proof.
  rewrite !padBytesNeeded_opp.
  repeat split; intros; Z.to_euclidean_division_equations; lia.
Qed.

Lemma knownTag_cases (c : byte) :
  knownTag c = false ->
  Ascii.eqb c "i" = false /\ Ascii.eqb c "h" = false
  /\ Ascii.eqb c "f" = false /\ Ascii.eqb c "d" = false
  /\ Ascii.eqb c "s" = false /\ Ascii.eqb c "b" = false
  /\ Ascii.eqb c "t" = false /\ Ascii.eqb c "N" = false
  /\ Ascii.eqb c "T" = false /\ Ascii.eqb c "F" = false.
Proof.
  unfold knownTag. cbn [lit list_ascii_of_string existsb]. intros H.
  repeat (apply orb_false_iff in H; destruct H as [? H]).
  repeat split; assumption.
Qed.

Lemma readArgument_unknown (c : byte) (msg : Message) (st : St) :
  knownTag c = false ->
  readArgument c msg st = (Err (ErrUnsupportedTypeTag c), st).
Proof.
  intros H.
  destruct (knownTag_cases c H)
    as (H1 & H2 & H3 & H4 & H5 & H6 & H7 & H8 & H9 & H10).
  unfold readArgument.
  now rewrite H1, H2, H3, H4, H5, H6, H7, H8, H9, H10.
Qed.

Lemma readArgument_known (c : byte) (msg : Message) (st st' : St)
      (e : error) :
  knownTag c = true ->
  readArgument c msg st = (Err e, st') ->
  e = EOF \/ e = ErrUnexpectedEOF \/ e = OutOfFuel
  \/ exists blobLen, e = ErrInvalidBlobLength blobLen.
Proof.
  intros HK. unfold readArgument.
  repeat match goal with
         | |- (if Ascii.eqb c ?x then _ else _) _ = _ -> _ =>
             let E := fresh "E" in destruct (Ascii.eqb c x) eqn:E
         end;
    intros H;
    try (apply bind_inv in H;
         destruct H as [(u & st1 & H1 & H) | (e' & H1 & [= ->])];
         [try destruct u; discriminate |];
         apply op_inv in H1; destruct H1 as [H1 _]).
  - pose proof (binaryRead_later 4 (reader st)) as [_ HL].
    rewrite H1 in HL. cbn [fst] in HL. tauto.
  - pose proof (binaryRead_later 8 (reader st)) as [_ HL].
    rewrite H1 in HL. cbn [fst] in HL. tauto.
  - pose proof (binaryRead_later 4 (reader st)) as [_ HL].
    rewrite H1 in HL. cbn [fst] in HL. tauto.
  - pose proof (binaryRead_later 8 (reader st)) as [_ HL].
    rewrite H1 in HL. cbn [fst] in HL. tauto.
  - pose proof (readPaddedString_error (reader st) e') as HL.
    rewrite H1 in HL. cbn [fst] in HL. specialize (HL eq_refl). tauto.
  - pose proof (readBlob_later (reader st)) as [_ HL].
    rewrite H1 in HL. cbn [fst] in HL. tauto.
  - destruct (op (binaryRead 8) st) as [[u | e'] st1]; discriminate.
  - discriminate.
  - discriminate.
  - discriminate.
  - unfold knownTag in HK. cbn [lit list_ascii_of_string existsb] in HK.
    rewrite E, E0, E1, E2, E3, E4, E5, E6, E7, E8 in HK. discriminate.
Qed.

(** X16: the tags of the encoder and the switch of the decoder agree.  The
    round of [readArguments] for the tag [getTypeTag] gives an argument
    fails with the unsupported-tag error exactly when the argument has a
    type outside the switch of the encoder, whose tag is the byte 255; for
    the others, on a reader with a buffer, it can fail only for want of
    input, with [EOF] or the unexpected-EOF error, or over a blob
    length. *)
Theorem readArgument_getTypeTag (a : Argument) (msg : Message) (st : St) :
  (fst (readArgument (getTypeTag a) msg st)
   = Err (ErrUnsupportedTypeTag (getTypeTag a))
   <-> a = AOther)
  /\ ((0 < size (reader st))%nat ->
      supported a = true ->
      forall e,
        fst (readArgument (getTypeTag a) msg st) = Err e ->
        e = EOF \/ e = ErrUnexpectedEOF
        \/ exists blobLen, e = ErrInvalidBlobLength blobLen).
Proof.
  assert (HS : supported a = true ->
               forall e,
                 fst (readArgument (getTypeTag a) msg st) = Err e ->
                 e = EOF \/ e = ErrUnexpectedEOF \/ e = OutOfFuel
                 \/ exists blobLen, e = ErrInvalidBlobLength blobLen).
  { intros Hs e He.
    destruct (readArgument (getTypeTag a) msg st) as [r st'] eqn:ER.
    cbn [fst] in He. subst r.
    apply (readArgument_known _ _ _ _ _) in ER; [exact ER |].
    destruct a as [[] | | | | | | | | |]; try reflexivity; discriminate. }
  split; [split |].
  - intros H. destruct (supported a) eqn:Hs.
    + destruct (HS eq_refl _ H) as [E | [E | [E | [x E]]]]; discriminate.
    + now destruct a.
  - intros ->. now rewrite readArgument_unknown.
  - intros Hsz Hs e He.
    destruct (HS Hs e He) as [E | [E | [E | E]]]; auto.
    subst e.
    pose proof (readArgument_returns (getTypeTag a) msg st Hsz) as [_ HF].
    congruence.
Qed.

Lemma readArgument_getTypeTag_witness :
  (fst (readArgument (getTypeTag (ABlob (lit "xyz"))) (NewMessage (lit "/a") [])
          (mkSt (NewReader (be_bytes 4 0)) 8))
   = Err (ErrUnsupportedTypeTag (getTypeTag (ABlob (lit "xyz"))))
   <-> ABlob (lit "xyz") = AOther)
  /\ forall e,
      fst (readArgument (getTypeTag (ABlob (lit "xyz")))
             (NewMessage (lit "/a") [])
             (mkSt (NewReader (be_bytes 4 0)) 8)) = Err e ->
      e = EOF \/ e = ErrUnexpectedEOF
      \/ exists blobLen, e = ErrInvalidBlobLength blobLen.
Proof.
  destruct (readArgument_getTypeTag (ABlob (lit "xyz"))
              (NewMessage (lit "/a") [])
              (mkSt (NewReader (be_bytes 4 0)) 8)) as [H1 H2].
  split; [exact H1 |]. apply H2; [vm_compute; lia | reflexivity].
Defined.

(** X15: a round of the loop makes [readArguments] return [nil] before the
    tags are used up only for the tag [t], and only when fewer than eight
    bytes were left; the message and the counter are then as they were
    before the round. *)
Theorem readArgument_nil_early (c : byte) (msg msg' : Message) (st st' : St) :
  readArgument c msg st = (Ok (ReturnNil msg'), st') ->
  c = "t"%char
  /\ msg' = msg
  /\ start st' = start st
  /\ (length (stream (reader st)) < 8)%nat.
Proof.
  intros H. pose proof (readArgument_ReturnNil _ _ _ _ _ H) as ->.
  split; [reflexivity |].
  rewrite readArgument_timetag in H.
  destruct (op (binaryRead 8) st) as [[u | e] st1] eqn:E; [discriminate |].
  injection H as <- <-. apply op_inv in E. destruct E as [E Hs].
  split; [reflexivity |]. split; [exact Hs |].
  pose proof (ReadFull_spec 8 (reader st)) as HF.
  destruct (8 <=? length (stream (reader st)))%nat eqn:E8.
  - destruct HF as (b' & HF & _). unfold binaryRead in E.
    rewrite HF in E. discriminate.
  - now apply Nat.leb_gt in E8.
Qed.

Lemma readArgument_nil_early_witness :
  "t"%char = "t"%char
  /\ NewMessage (lit "/a") [] = NewMessage (lit "/a") []
  /\ start (mkSt (mkReader [] [] defaultBufSize) 8)
     = start (mkSt (mkReader [NUL; NUL; NUL] [] defaultBufSize) 8)
  /\ (length (stream (reader (mkSt (mkReader [NUL; NUL; NUL] []
                                             defaultBufSize) 8))) < 8)%nat.
Proof.
  apply (readArgument_nil_early "t"%char (NewMessage (lit "/a") [])
           (NewMessage (lit "/a") [])
           (mkSt (mkReader [NUL; NUL; NUL] [] defaultBufSize) 8)
           (mkSt (mkReader [] [] defaultBufSize) 8)).
  vm_compute. reflexivity.
Defined.

(** ** Patterns with alternatives *)

Lemma translate_length (c : byte) : (0 < length (translate c))%nat.
Proof.
  destruct c as [[] [] [] [] [] [] [] []]; vm_compute; lia.
Qed.

Lemma length_flat_map_translate_all (p : bytes) :
  (length p <= length (flat_map translate p))%nat.
Proof.
  induction p as [| c p IH]; [cbn; lia |].
  cbn [flat_map length]. rewrite length_app.
  pose proof (translate_length c). lia.
Qed.

Lemma noRep_flat_map_app (p rest : bytes) :
  forallb globChar p = true -> noRep rest = true ->
  noRep (flat_map translate p ++ rest) = true.
Proof.
  destruct p as [| c p]; intros H Hr; [exact Hr |].
  cbn [forallb] in H. apply andb_prop in H. destruct H as [Hc H].
  cbn [flat_map]. rewrite <- app_assoc.
  now apply startsPlain_noRep, startsPlain_translate.
Qed.

Lemma parseCat_then (p : bytes) :
  forall rest k rest' m,
    forallb globChar p = true ->
    noRep rest = true ->
    (forall f, (m <= f)%nat -> parseCat f rest = Some (k, rest')) ->
    forall f, (length p + m + 2 <= f)%nat ->
              parseCat f (flat_map translate p ++ rest)
              = Some (globThen p k, rest').
Proof.
  induction p as [| c p IH]; intros rest k rest' m H Hr Hk f Hf.
  - cbn [flat_map app globThen]. apply Hk. cbn [length] in Hf. lia.
  - cbn [forallb] in H. apply andb_prop in H. destruct H as [Hc H].
    cbn [length] in Hf.
    destruct f as [| f]; [lia |].
    cbn [flat_map globThen]. rewrite <- app_assoc.
    pose proof (startsPlain_translate c (flat_map translate p ++ rest) Hc)
      as HS.
    pose proof (translate_length c) as HN.
    destruct (translate c ++ flat_map translate p ++ rest) as [| x s] eqn:Es.
    { apply (f_equal (@length byte)) in Es. rewrite length_app in Es.
      cbn [length] in Es. lia. }
    destruct (startsPlain_cons _ _ HS) as (_ & _ & _ & _ & H5 & H6).
    cbn [parseCat]. rewrite H5, H6. cbn [orb].
    rewrite <- Es.
    destruct f as [| f]; [lia |]. destruct f as [| f]; [lia |].
    rewrite (parseRep_glob c _ f Hc (noRep_flat_map_app p rest H Hr)).
    now rewrite (IH rest k rest' m H Hr Hk (S (S f)) ltac:(lia)).
Qed.

Lemma parseCat_stop (c : byte) (r : bytes) (f : nat) :
  c = "|"%char \/ c = ")"%char -> (1 <= f)%nat ->
  parseCat f (c :: r) = Some (REmpty, c :: r).
Proof.
  intros H Hf. destruct f as [| f]; [lia |].
  destruct H as [-> | ->]; reflexivity.
Qed.

Lemma globThen_REmpty (p : bytes) : globThen p REmpty = globRegex p.
Proof.
  induction p as [| c p IH]; [reflexivity |].
  cbn [globThen globRegex]. now rewrite IH.
Qed.

Lemma parseCat_until (p : bytes) (c : byte) (r : bytes) (f : nat) :
  forallb globChar p = true ->
  c = "|"%char \/ c = ")"%char ->
  (length p + 3 <= f)%nat ->
  parseCat f (flat_map translate p ++ c :: r) = Some (globRegex p, c :: r).
Proof.
  intros H Hc Hf. rewrite <- globThen_REmpty.
  apply (parseCat_then p (c :: r) REmpty (c :: r) 1 H).
  - destruct Hc as [-> | ->]; reflexivity.
  - intros f' Hf'. now apply parseCat_stop.
  - lia.
Qed.

Lemma flat_map_commaSep (a a' : bytes) (alts : list bytes) :
  flat_map translate (commaSep a (a' :: alts))
  = flat_map translate a ++ "|"%char :: flat_map translate (commaSep a' alts).
Proof. cbn [commaSep]. now rewrite flat_map_app. Qed.

Lemma parseAlt_alts (alts : list bytes) :
  forall a rest f,
    forallb globChar a = true ->
    forallb (forallb globChar) alts = true ->
    (length (commaSep a alts) + 4 <= f)%nat ->
    parseAlt f (flat_map translate (commaSep a alts) ++ ")"%char :: rest)
    = Some (altRegex a alts, ")"%char :: rest).
Proof.
  induction alts as [| a' alts IH]; intros a rest f Ha Halts Hf.
  - cbn [commaSep altRegex] in *.
    destruct f as [| f]; [lia |]. cbn [parseAlt].
    pose proof (parseCat_until a ")"%char rest f Ha (or_intror eq_refl)
                  ltac:(lia)) as E.
    unfold bytes, byte in *. now rewrite E.
  - cbn [forallb] in Halts. apply andb_prop in Halts.
    destruct Halts as [Ha' Halts].
    rewrite flat_map_commaSep, <- app_assoc. cbn [app altRegex].
    cbn [commaSep] in Hf. rewrite length_app in Hf. cbn [length] in Hf.
    destruct f as [| f]; [lia |]. cbn [parseAlt].
    pose proof (parseCat_until a "|"%char
                  (flat_map translate (commaSep a' alts) ++ ")"%char :: rest)
                  f Ha (or_introl eq_refl) ltac:(lia)) as E.
    pose proof (IH a' rest f Ha' Halts ltac:(lia)) as E'.
    unfold bytes, byte in *. rewrite E.
    cbn [Ascii.eqb Bool.eqb andb]. now rewrite E'.
Qed.

Lemma parseCat_group (a : bytes) (alts : list bytes) (post : bytes) (f : nat) :
  forallb globChar a = true ->
  forallb (forallb globChar) alts = true ->
  forallb globChar post = true ->
  (length (commaSep a alts) + length post + 8 <= f)%nat ->
  parseCat f ("("%char :: flat_map translate (commaSep a alts)
              ++ ")"%char :: flat_map translate post)
  = Some (RCat (altRegex a alts) (globRegex post), []).
Proof.
  intros Ha Halts Hpost Hf.
  destruct f as [| f]; [lia |]. cbn [parseCat Ascii.eqb Bool.eqb andb orb].
  destruct f as [| f]; [lia |].
  rewrite (parseRep_atom f _ (altRegex a alts) (flat_map translate post)).
  - now rewrite (parseCat_glob post (S f) Hpost) by lia.
  - destruct f as [| f]; [lia |].
    cbn [parseAtom Ascii.eqb Bool.eqb andb].
    now rewrite (parseAlt_alts alts a _ f Ha Halts) by lia.
  - now apply startsPlain_noRep, startsPlain_flat_map.
Qed.

Lemma getRegEx_brace (pre a : bytes) (alts : list bytes) (post : bytes) :
  forallb globChar pre = true ->
  forallb globChar a = true ->
  forallb (forallb globChar) alts = true ->
  forallb globChar post = true ->
  getRegEx (bracePattern pre a alts post)
  = Some (braceRegex pre a alts post).
Proof.
  intros Hpre Ha Halts Hpost.
  unfold getRegEx, Compile. rewrite regexSource_flat_map.
  pose proof (length_flat_map_translate_all (bracePattern pre a alts post))
    as HL.
  set (n := length (flat_map translate (bracePattern pre a alts post))) in *.
  replace (4 * n + 4)%nat with (S (4 * n + 3)) by lia.
  unfold bracePattern in *. rewrite length_app in HL. cbn [length] in HL.
  rewrite length_app in HL. cbn [length] in HL.
  rewrite flat_map_app. cbn [flat_map]. rewrite flat_map_app.
  cbn [flat_map].
  change (translate "{"%char) with ["("%char].
  change (translate "}"%char) with [")"%char]. cbn [app].
  cbn [parseAlt]. unfold braceRegex.
  pose proof (parseCat_then pre
                ("("%char :: flat_map translate (commaSep a alts)
                 ++ ")"%char :: flat_map translate post)
                (RCat (altRegex a alts) (globRegex post)) []
                (length (commaSep a alts) + length post + 8)
                Hpre eq_refl
                (fun f Hf => parseCat_group a alts post f Ha Halts Hpost Hf)
                (4 * n + 3)%nat ltac:(lia)) as E.
  unfold bytes, byte in *. now rewrite E.
Qed.

Lemma Glob_cons_iff (c : byte) (p w : bytes) :
  Glob (c :: p) w
  <-> exists s t, w = s ++ t /\ Words (globAtom c) s /\ Glob p t.
Proof.
  rewrite <- Words_globRegex. cbn [globRegex]. split.
  - inversion 1 as [| | | x y s t Hs Ht | | | |]; subst.
    exists s, t. split; [reflexivity |]. split; [exact Hs |].
    now apply Words_globRegex.
  - intros (s & t & -> & Hs & Ht). constructor; [exact Hs |].
    now apply Words_globRegex.
Qed.

Lemma Words_globThen (p : bytes) (k : regex) :
  forall w,
    Words (globThen p k) w
    <-> exists w1 w2, w = w1 ++ w2 /\ Glob p w1 /\ Words k w2.
Proof.
  induction p as [| c p IH]; intros w; cbn [globThen].
  - split.
    + intros H. exists [], w. split; [reflexivity |].
      split; [constructor | exact H].
    + intros (w1 & w2 & -> & H1 & H2). now inversion H1.
  - split.
    + inversion 1 as [| | | x y s t Hs Ht | | | |]; subst.
      apply IH in Ht. destruct Ht as (t1 & t2 & -> & H1 & H2).
      exists (s ++ t1), t2. split; [now rewrite app_assoc |].
      split; [| exact H2]. apply Glob_cons_iff. now exists s, t1.
    + intros (w1 & w2 & -> & H1 & H2).
      apply Glob_cons_iff in H1. destruct H1 as (s & t & -> & Hs & Ht).
      rewrite <- app_assoc. constructor; [exact Hs |].
      apply IH. now exists t, w2.
Qed.

Lemma Words_altRegex (alts : list bytes) :
  forall a w,
    Words (altRegex a alts) w <-> exists x, In x (a :: alts) /\ Glob x w.
Proof.
  induction alts as [| a' alts IH]; intros a w; cbn [altRegex].
  - rewrite Words_globRegex. split.
    + intros H. exists a. split; [now left | exact H].
    + intros (x & [<- | []] & H). exact H.
  - split.
    + inversion 1; subst.
      * exists a. split; [now left | now apply Words_globRegex].
      * match goal with H : Words (altRegex _ _) _ |- _ =>
          apply IH in H; destruct H as (x & Hin & Hx) end.
        exists x. split; [now right | exact Hx].
    + intros (x & [<- | Hin] & Hx).
      * apply WAltL. now apply Words_globRegex.
      * apply WAltR. apply IH. now exists x.
Qed.

Lemma Words_braceRegex (pre a : bytes) (alts : list bytes) (post w : bytes) :
  Words (braceRegex pre a alts post) w
  <-> exists w1 w2 w3,
      w = w1 ++ w2 ++ w3
      /\ Glob pre w1
      /\ (exists x, In x (a :: alts) /\ Glob x w2)
      /\ Glob post w3.
Proof.
  unfold braceRegex. rewrite Words_globThen. split.
  - intros (w1 & w23 & -> & H1 & H).
    inversion H as [| | | x y s t Hs Ht | | | |]; subst.
    exists w1, s, t. split; [reflexivity |]. split; [exact H1 |].
    split; [now apply Words_altRegex | now apply Words_globRegex].
  - intros (w1 & w2 & w3 & -> & H1 & H2 & H3).
    exists w1, (w2 ++ w3). split; [reflexivity |]. split; [exact H1 |].
    constructor; [now apply Words_altRegex | now apply Words_globRegex].
Qed.

(** X26: an address pattern with one pair of braces, [pre{a,...}post],
    whose parts hold no brace, no comma and none of the characters that
    reach [regexp] with a meaning of their own, always compiles; [Match]
    is true of an address exactly when some part of the address is a word
    of [pre], then a word of one of the alternatives, then a word of
    [post]. *)
Theorem Match_braces (pre a : bytes) (alts : list bytes) (post : bytes)
        (args : list Argument) (addr : bytes) :
  forallb globChar pre = true ->
  forallb globChar a = true ->
  forallb (forallb globChar) alts = true ->
  forallb globChar post = true ->
  forallb isASCII addr = true ->
  getRegEx (bracePattern pre a alts post)
  = Some (braceRegex pre a alts post)
  /\ (Match (NewMessage (bracePattern pre a alts post) args) addr = Some true
      <-> exists before w1 w2 w3 after,
          addr = before ++ (w1 ++ w2 ++ w3) ++ after
          /\ Glob pre w1
          /\ (exists x, In x (a :: alts) /\ Glob x w2)
          /\ Glob post w3).
Proof.
  intros Hpre Ha Halts Hpost _.
  pose proof (getRegEx_brace pre a alts post Hpre Ha Halts Hpost) as HG.
  split; [exact HG |].
  unfold Match, NewMessage. cbn [Address]. rewrite HG. split.
  - intros [= E]. apply MatchString_Words in E.
    destruct E as (before & w & after & E & Hw).
    apply Words_braceRegex in Hw.
    destruct Hw as (w1 & w2 & w3 & -> & H1 & H2 & H3).
    now exists before, w1, w2, w3, after.
  - intros (before & w1 & w2 & w3 & after & E & H1 & H2 & H3). f_equal.
    apply MatchString_Words. exists before, (w1 ++ w2 ++ w3), after.
    split; [exact E |]. apply Words_braceRegex. now exists w1, w2, w3.
Qed.

Lemma Match_braces_witness :
  getRegEx (bracePattern (lit "/a/") (lit "x") [lit "y?"] (lit "/*"))
  = Some (braceRegex (lit "/a/") (lit "x") [lit "y?"] (lit "/*"))
  /\ (Match (NewMessage (bracePattern (lit "/a/") (lit "x") [lit "y?"]
                                      (lit "/*")) [])
            (lit "/a/y1/b")
      = Some true
      <-> exists before w1 w2 w3 after,
          lit "/a/y1/b" = before ++ (w1 ++ w2 ++ w3) ++ after
          /\ Glob (lit "/a/") w1
          /\ (exists x, In x [lit "x"; lit "y?"] /\ Glob x w2)
          /\ Glob (lit "/*") w3).
Proof.
  apply (Match_braces (lit "/a/") (lit "x") [lit "y?"] (lit "/*") []
           (lit "/a/y1/b")); reflexivity.
Defined.
